(** * keras-js [Model]: loading, graph construction and forward pass

    A shallow embedding of [src/Model.js].  The class keeps its state in the
    fields of [this]; here every method is a function on an explicit record of
    those fields.  Code that the class imports but that is not part of the
    file (the layer classes of [./layers], the [Tensor] class, the browser's
    [XMLHttpRequest], the regular expressions of the runtime) appears as a
    parameter or as a definition taken from the specification, and says
    so. *)

From Stdlib Require Import Lia.
From Stdlib Require Strings.Byte.
From stdpp Require Import base tactics option list sorting strings gmap.

Set Default Proof Using "Type".

(** ** Errors and fallible computations *)

Inductive InputFault :=
  | WrongNames (expected : list string)
  | NotFloat32Array.

(** The source throws plain [Error] objects that differ in their message; the
    constructors follow the taxonomy of the specification.  [RangeError],
    [TypeError] and [SyntaxError] are the ones the JavaScript runtime raises
    itself. *)
Inductive Error :=
  | ConfigurationError
  | UnknownLayerClassError (layerClass : string)
  | MissingWeightError
  | ArtifactLoadError (type : string)
  | InvalidInputError (fault : InputFault)
  | RangeError
  | TypeError
  | SyntaxError
  | LayerError (msg : string).

Global Instance InputFault_eq_dec : EqDecision InputFault.
Proof. solve_decision. Defined.
Global Instance Error_eq_dec : EqDecision Error.
Proof. solve_decision. Defined.

(** The completion of a JavaScript computation: it returns a value or it
    throws. *)
Inductive completion (A : Type) :=
  | Ok (a : A)
  | Throw (e : Error).
Global Arguments Ok {A} a.
Global Arguments Throw {A} e.

Global Instance completion_ret : MRet completion := λ A a, Ok a.
Global Instance completion_bind : MBind completion := λ A B k m,
  match m with
  | Ok a => k a
  | Throw e => Throw e
  end.

(** ** The JavaScript values the engine handles *)

Module JS.

(** A plain object with string keys.  Own keys are enumerated as the
    runtime does it: first the keys that are array indices (the canonical
    decimal numerals below 2^32 - 1) in ascending numeric order, then the
    other keys in the order in which they were created; assigning an existing
    key keeps its position.  The list holds the properties in the order of
    enumeration. *)
Definition object (V : Type) : Type := list (string * V).

(** The value of a decimal digit. *)
Definition digit (c : Ascii.ascii) : option N :=
  let n := Ascii.N_of_ascii c in
  if (48 <=? n)%N && (n <=? 57)%N then Some (n - 48)%N else None.

Fixpoint digits (s : string) (acc : N) : option N :=
  match s with
  | EmptyString => Some acc
  | String c s' => d ← digit c; digits s' (10 * acc + d)%N
  end.

(** The number a key denotes when it is an array index: ["0"], or digits
    without a leading zero that denote a number below 2^32 - 1. *)
Definition arrayIndex (k : string) : option N :=
  match k with
  | EmptyString => None
  | String c k' =>
      if decide (k = "0") then Some 0%N
      else if decide (digit c = Some 0%N) then None
      else n ← digits k 0; if (n <? 4294967295)%N then Some n else None
  end.

Section object.
Context {V : Type}.

Fixpoint get (o : object V) (k : string) : option V :=
  match o with
  | [] => None
  | (k', v) :: o' => if decide (k' = k) then Some v else get o' k
  end.

(** The property [k] gets a value where it is, or is created behind all
    others. *)
Fixpoint assign (o : object V) (k : string) (v : V) : object V :=
  match o with
  | [] => [(k, v)]
  | (k', v') :: o' =>
      if decide (k' = k) then (k, v) :: o' else (k', v') :: assign o' k v
  end.

(** A new property whose key is the array index [i] is created behind the
    smaller array indices. *)
Fixpoint insert_index (o : object V) (k : string) (i : N) (v : V)
    : object V :=
  match o with
  | [] => [(k, v)]
  | (k', v') :: o' =>
      match arrayIndex k' with
      | Some j =>
          if (j <? i)%N then (k', v') :: insert_index o' k i v
          else (k, v) :: o
      | None => (k, v) :: o
      end
  end.

(** [o[k] = v] *)
Definition put (o : object V) (k : string) (v : V) : object V :=
  match arrayIndex k, get o k with
  | Some i, None => insert_index o k i v
  | _, _ => assign o k v
  end.

Definition keys (o : object V) : list string := o.*1.
Definition values (o : object V) : list V := o.*2.
End object.

(** [Array.prototype.sort] without a comparator orders strings by their
    code units. *)
Definition sort (a : list string) : list string := merge_sort String.le a.

(** lodash [isEqual] on two arrays of strings. *)
Definition isEqual (a b : list string) : bool := bool_decide (a = b).

(** lodash [find] and [every] on an array. *)
Definition find {A} (a : list A) (p : A → bool) : option A := List.find p a.
Definition every {A} (a : list A) (p : A → bool) : bool := forallb p a.

(** [String.prototype.replace] with a pattern that is a literal word:
    the first occurrence is replaced. *)
Fixpoint replace (pat by_ s : string) : string :=
  if String.prefix pat s
  then by_ +:+ String.substring (String.length pat)
                 (String.length s - String.length pat) s
  else match s with
       | EmptyString => EmptyString
       | String c s' => String c (replace pat by_ s')
       end.

(** lodash [find] with a predicate that may throw: the first element for
    which the predicate returns true; the elements behind it are not
    looked at. *)
Fixpoint findM {A} (p : A → completion bool) (a : list A)
    : completion (option A) :=
  match a with
  | [] => Ok None
  | x :: a' =>
      match p x with
      | Ok true => Ok (Some x)
      | Ok false => findM p a'
      | Throw e => Throw e
      end
  end.

(** The characters that have a meaning in a pattern, and the words in which
    none occurs: in a pattern such a word stands for itself. *)
Definition syntaxCharacters : string := "^$\.*+?()[]{}|".

Fixpoint literal (w : string) : bool :=
  match w with
  | EmptyString => true
  | String c w' =>
      (Ascii.N_of_ascii c <? 128)%N
      && negb (existsb (Ascii.eqb c) (String.list_ascii_of_string syntaxCharacters))
      && literal w'
  end.

(** The regular expressions of the runtime, which is not part of the
    sources.  [RegExp_valid source] tells whether [new RegExp(source)]
    returns (it throws a SyntaxError otherwise) and [RegExp_test source s] is
    [new RegExp(source).test(s)].  What patterns mean is left to the runtime
    but for the one case that is independent of it: [^w] for a word [w] of
    characters without a meaning in patterns is a pattern, and it matches
    the strings that start with [w]. *)
Class RegExp := {
  RegExp_valid : string → bool;
  RegExp_test : string → string → bool;
  RegExp_literal w s :
    literal w = true →
    RegExp_valid ("^" +:+ w) = true
    ∧ RegExp_test ("^" +:+ w) s = String.prefix w s
}.

(** An [ArrayBuffer] is a sequence of bytes; a [Float32Array] is a window on
    one: it starts at [byteOffset] and holds [length] elements of four
    bytes. *)
Definition ArrayBuffer : Type := list Byte.byte.

Record Float32Array := {
  buffer : ArrayBuffer;
  byteOffset : nat;
  length : nat
}.

(** [new Float32Array(buffer, byteOffset, length)]: a view, no copy.  The
    runtime raises [RangeError] when the offset is not a multiple of the
    element size or the window leaves the buffer. *)
Definition Float32Array_view (buf : ArrayBuffer) (off len : nat)
  : completion Float32Array :=
  if negb (off mod 4 =? 0) then Throw RangeError
  else if List.length buf <? off + 4 * len then Throw RangeError
  else Ok {| buffer := buf; byteOffset := off; length := len |}.

(** The bytes a typed array shows. *)
Definition bytes (a : Float32Array) : list Byte.byte :=
  take (4 * length a) (drop (byteOffset a) (buffer a)).

(** [new Float32Array(typedArray)]: a fresh buffer with the same
    elements. *)
Definition Float32Array_copy (a : Float32Array) : Float32Array :=
  {| buffer := bytes a; byteOffset := 0; length := length a |}.

Definition Float32Array_empty : Float32Array :=
  {| buffer := []; byteOffset := 0; length := 0 |}.

(** What a caller can put as a value into the argument of [predict]. *)
Inductive value :=
  | VFloat32Array (a : Float32Array)
  | VArray (a : list nat)
  | VUndefined.

Definition instanceof_Float32Array (v : option value) : bool :=
  match v with
  | Some (VFloat32Array _) => true
  | _ => false
  end.

Global Instance byte_eq_dec : EqDecision Byte.byte := Strings.Byte.byte_eq_dec.
Global Instance Float32Array_eq_dec : EqDecision Float32Array.
Proof. solve_decision. Defined.

End JS.

(** Modelled from the spec: the [Tensor] class ([./Tensor] is imported by
    Model.js but is not among the sources).  A tensor pairs a flat numeric
    buffer with a shape; it may carry the marker of the accelerated backend
    that owns its data, with the padded "actual shape" and the backend's
    handle. *)
Record Tensor := {
  data : JS.Float32Array;
  shape : list nat;
  _fromPipeline : bool;
  _actualShape : list nat;
  weblasTensor : option JS.Float32Array
}.

Global Instance Tensor_eq_dec : EqDecision Tensor.
Proof. solve_decision. Defined.

(** [new Tensor(data, shape)] pairs the buffer it is given with the shape. *)
Definition Tensor_new (d : JS.Float32Array) (sh : list nat) : Tensor :=
  {| data := d; shape := sh; _fromPipeline := false;
     _actualShape := sh; weblasTensor := None |}.

(** [tensor.replaceTensorData(d)]: a fresh copy of the buffer is installed. *)
Definition replaceTensorData (t : Tensor) (d : JS.Float32Array) : Tensor :=
  {| data := JS.Float32Array_copy d; shape := shape t;
     _fromPipeline := _fromPipeline t; _actualShape := _actualShape t;
     weblasTensor := weblasTensor t |}.

(** [xNew.copyFromWeblasTensor(h)] on [xNew = new Tensor([], shape)], followed
    by the two assignments of the source. *)
Definition Tensor_weblas_copy (x : Tensor) : Tensor :=
  {| data := JS.Float32Array_empty; shape := shape x;
     _fromPipeline := true; _actualShape := _actualShape x;
     weblasTensor := weblasTensor x |}.

(** ** Loading the three artifacts ([_initialize], [_dataRequest],
    [_interrupt], [ready])

    The browser drives the class through the handlers installed on each
    request.  The state below is the part of [this] those handlers touch,
    together with the state of the promise chain
    [Promise.all(requests).then(...).catch(...)] that [_initialize] builds and
    stores in [this._ready]. *)

Module Loader.

Inductive promise :=
  | Pending
  | Fulfilled
  | Rejected (reason : Error).

Global Instance promise_eq_dec : EqDecision promise.
Proof. solve_decision. Defined.

Record state := {
  (** [this.xhrs]: the request of each data type, or [null] *)
  xhrs : JS.object (option nat);
  (** [this.xhrProgress] *)
  xhrProgress : JS.object nat;
  (** the data types whose response was stored in [this.data] *)
  loaded : list string;
  (** the requests on which [abort()] was called *)
  aborted : list nat;
  (** what was passed to [console.log] *)
  console : list Error;
  (** the promise returned by [Promise.all] *)
  all : promise;
  (** whether [_createLayers] ran to its end *)
  built : bool;
  (** [this._ready] *)
  _ready : promise
}.

Definition dataTypes : list string := ["model"; "weights"; "metadata"].

(** The constructor and [_initialize]: one request per data type is sent
    and remembered in [this.xhrs]; request [i] is the one of the [i]-th data
    type. *)
Definition _initialize : state :=
  {| xhrs := [("model", Some 0); ("weights", Some 1); ("metadata", Some 2)];
     xhrProgress := [("model", 0); ("weights", 0); ("metadata", 0)];
     loaded := []; aborted := []; console := [];
     all := Pending; built := false; _ready := Pending |}.

Definition ready (s : state) : promise := _ready s.

(** One iteration of the loop of [_interrupt]. *)
Definition _interrupt_one (s : state) (type : string) : state :=
  match JS.get (xhrs s) type with
  | Some (Some x) =>
      {| xhrs := JS.put (xhrs s) type None;
         xhrProgress := xhrProgress s; loaded := loaded s;
         aborted := aborted s ++ [x]; console := console s;
         all := all s; built := built s; _ready := _ready s |}
  | _ => s
  end.

(** [_interrupt]: the list of data types is the one of the source. *)
Definition _interrupt (s : state) : state :=
  foldl _interrupt_one s ["model"; "weights"; "metdata"].

(** The handler given to [.catch]: it logs, interrupts and returns, so the
    promise of the chain is fulfilled. *)
Definition on_catch (err : Error) (s : state) : state :=
  let s1 := {| xhrs := xhrs s; xhrProgress := xhrProgress s;
               loaded := loaded s; aborted := aborted s;
               console := console s ++ [err];
               all := all s; built := built s; _ready := _ready s |} in
  let s2 := _interrupt s1 in
  {| xhrs := xhrs s2; xhrProgress := xhrProgress s2; loaded := loaded s2;
     aborted := aborted s2; console := console s2;
     all := all s2; built := built s2; _ready := Fulfilled |}.

(** The handler given to [.then]; [createLayers] is the outcome of
    [this._createLayers()] on the loaded data. *)
Definition on_then (createLayers : completion unit) (s : state) : state :=
  match createLayers with
  | Ok _ =>
      {| xhrs := xhrs s; xhrProgress := xhrProgress s; loaded := loaded s;
         aborted := aborted s; console := console s;
         all := all s; built := true; _ready := Fulfilled |}
  | Throw e => on_catch e s
  end.

(** [xhr.onload] of the request for [type]. *)
Definition onload (createLayers : completion unit) (type : string) (s : state)
  : state :=
  let got := if decide (type ∈ loaded s) then loaded s
             else loaded s ++ [type] in
  let done := bool_decide (all s = Pending) &&
              forallb (λ t, bool_decide (t ∈ got)) dataTypes in
  let s1 := {| xhrs := JS.put (xhrs s) type None;
               xhrProgress := JS.put (xhrProgress s) type 100;
               loaded := got; aborted := aborted s; console := console s;
               all := if done then Fulfilled else all s;
               built := built s; _ready := _ready s |} in
  if done then on_then createLayers s1 else s1.

(** [xhr.onerror] of the request for [type]: [reject(e)].  Nothing happens
    when the promise of the request was resolved before, by [onload];
    otherwise the promise is rejected with the event, which rejects
    [Promise.all] unless that is settled already.  (While [Promise.all] is
    pending no request has failed, so that the promise of the request is
    resolved exactly when its data was loaded.) *)
Definition onerror (type : string) (e : Error) (s : state) : state :=
  if decide (type ∈ loaded s) then s
  else
    match all s with
    | Pending =>
        on_catch e
          {| xhrs := xhrs s; xhrProgress := xhrProgress s;
             loaded := loaded s; aborted := aborted s; console := console s;
             all := Rejected e; built := built s; _ready := _ready s |}
    | _ => s
    end.

(** [getLoadingProgress]: the rounded mean of the three percentages. *)
Definition getLoadingProgress (s : state) : nat :=
  let progressValues := JS.values (xhrProgress s) in
  (2 * sum_list progressValues + List.length progressValues)
    / (2 * List.length progressValues).

(** Whether the request of a data type is in flight. *)
Definition in_flight (s : state) (type : string) (x : nat) : Prop :=
  JS.get (xhrs s) type = Some (Some x).

End Loader.

(** ** The data the engine is built from *)

(** An entry of the weight metadata ([this.data.metadata]); [offset] counts
    bytes of the weight buffer and [length] counts elements. *)
Module Meta.
Record entry := {
  layer_name : string;
  weight_name : string;
  offset : nat;
  length : nat;
  shape : list nat
}.
End Meta.

(** The architecture description ([this.data.model]), with the fields the
    class reads.  A layer's [config] keeps its [name], its
    [batch_input_shape] when it has one (the batch dimension first) and, for a
    wrapper, the class and name of the wrapped [layer].  [inbound_nodes] keeps
    of every node the name of the inbound layer ([node[0]]).  [config] of the
    model is the array of layer definitions: [config] itself for class
    Sequential, [config.layers] for class Model. *)
Module Keras.
Record layerConfig := {
  name : string;
  batch_input_shape : option (list nat);
  layer : option (string * string)
}.
Record layerDef := {
  class_name : string;
  config : layerConfig;
  inbound_nodes : list (list string)
}.
Record model := {
  model_class_name : string;
  model_config : list layerDef
}.
End Keras.

(** A node of [this.modelDAG]. *)
Module Node.
Record t := {
  layerClass : string;
  name : string;
  inbound : list string;
  outbound : list string
}.
Definition push_inbound (n : string) (nd : t) : t :=
  {| layerClass := layerClass nd; name := name nd;
     inbound := inbound nd ++ [n]; outbound := outbound nd |}.
Definition push_outbound (n : string) (nd : t) : t :=
  {| layerClass := layerClass nd; name := name nd;
     inbound := inbound nd; outbound := outbound nd ++ [n] |}.
End Node.

(** A layer object, as far as the engine looks into it: what it is (its name,
    its class, whether it runs in pipeline mode, its weights) and the state the
    engine keeps on it during a run.  [result] is the address of a [Tensor]. *)
Record Layer := {
  name : string;
  layerClass : string;
  _pipelineEnabled : bool;
  weights : list Tensor;
  hasResult : bool;
  visited : bool;
  result : option nat
}.

Definition Layer_new (cls nm : string) (pe : bool) (ws : list Tensor) : Layer :=
  {| name := nm; layerClass := cls; _pipelineEnabled := pe; weights := ws;
     hasResult := false; visited := false; result := None |}.

(** [layer.hasResult = false; layer.visited = false] *)
Definition Layer_reset (l : Layer) : Layer :=
  {| name := name l; layerClass := layerClass l;
     _pipelineEnabled := _pipelineEnabled l; weights := weights l;
     hasResult := false; visited := false; result := result l |}.

(** [layer.result = r; layer.hasResult = true; layer.visited = true] *)
Definition Layer_done (r : nat) (l : Layer) : Layer :=
  {| name := name l; layerClass := layerClass l;
     _pipelineEnabled := _pipelineEnabled l; weights := weights l;
     hasResult := true; visited := true; result := Some r |}.

(** The layer classes of [./layers], which Model.js imports and which are not
    among the sources: what the engine asks of them. *)
Class Layers := {
  (** [layerClass in layers] *)
  implemented : string → bool;
  (** [layer.params] of an instance of the class *)
  params : string → list string;
  (** [layer._pipelineEnabled] of an instance of the class built with the
      given [gpu] and [pipeline] attributes *)
  pipelineEnabled : string → bool → bool → bool;
  (** [layer.call(x)] for the layer of that class and name holding those
      weights; it returns a tensor or throws *)
  call : string → string → list Tensor → list Tensor → completion Tensor;
  (** [layer.transferFromPipeline(x)] *)
  transferFromPipeline : string → string → Tensor → Tensor
}.

Record Model := {
  (** [config.gpu] *)
  gpu : bool;
  (** [config.pipeline] *)
  pipeline : bool;
  (** [config.layerCallPauses] *)
  layerCallPauses : bool;
  (** [this.data.model] *)
  data_model : Keras.model;
  (** [this.data.weights] *)
  data_weights : JS.ArrayBuffer;
  (** [this.data.metadata] *)
  data_metadata : list Meta.entry;
  (** map of model layers *)
  modelLayersMap : gmap string Layer;
  (** array of model layer names with result *)
  layersWithResults : list string;
  (** directed acyclic graph of model network *)
  modelDAG : JS.object Node.t;
  (** input tensors (their addresses) *)
  inputTensors : JS.object nat;
  (** flag while computations are being performed *)
  isRunning : bool;
  (** the [Tensor] objects allocated so far; an address is an index *)
  heap : list Tensor;
  (** the continuations parked by [Promise.delay(0)], oldest first: each is the [outbound] array its branch goes on with *)
  timers : list (list string);
  (** the reasons with which branches of the traversal were rejected *)
  rejections : list Error;
  (** the layers whose [call] was invoked by the traversal, in order *)
  calls : list string
}.

Definition set_modelLayersMap (v : gmap string Layer) (m : Model) : Model :=
  {| gpu := gpu m; pipeline := pipeline m;
     layerCallPauses := layerCallPauses m; data_model := data_model m;
     data_weights := data_weights m; data_metadata := data_metadata m;
     modelLayersMap := v; layersWithResults := layersWithResults m;
     modelDAG := modelDAG m; inputTensors := inputTensors m;
     isRunning := isRunning m; heap := heap m; timers := timers m;
     rejections := rejections m; calls := calls m |}.
Definition set_layersWithResults (v : list string) (m : Model) : Model :=
  {| gpu := gpu m; pipeline := pipeline m;
     layerCallPauses := layerCallPauses m; data_model := data_model m;
     data_weights := data_weights m; data_metadata := data_metadata m;
     modelLayersMap := modelLayersMap m; layersWithResults := v;
     modelDAG := modelDAG m; inputTensors := inputTensors m;
     isRunning := isRunning m; heap := heap m; timers := timers m;
     rejections := rejections m; calls := calls m |}.
Definition set_modelDAG (v : JS.object Node.t) (m : Model) : Model :=
  {| gpu := gpu m; pipeline := pipeline m;
     layerCallPauses := layerCallPauses m; data_model := data_model m;
     data_weights := data_weights m; data_metadata := data_metadata m;
     modelLayersMap := modelLayersMap m;
     layersWithResults := layersWithResults m; modelDAG := v;
     inputTensors := inputTensors m; isRunning := isRunning m; heap := heap m;
     timers := timers m; rejections := rejections m; calls := calls m |}.
Definition set_inputTensors (v : JS.object nat) (m : Model) : Model :=
  {| gpu := gpu m; pipeline := pipeline m;
     layerCallPauses := layerCallPauses m; data_model := data_model m;
     data_weights := data_weights m; data_metadata := data_metadata m;
     modelLayersMap := modelLayersMap m;
     layersWithResults := layersWithResults m; modelDAG := modelDAG m;
     inputTensors := v; isRunning := isRunning m; heap := heap m;
     timers := timers m; rejections := rejections m; calls := calls m |}.
Definition set_isRunning (v : bool) (m : Model) : Model :=
  {| gpu := gpu m; pipeline := pipeline m;
     layerCallPauses := layerCallPauses m; data_model := data_model m;
     data_weights := data_weights m; data_metadata := data_metadata m;
     modelLayersMap := modelLayersMap m;
     layersWithResults := layersWithResults m; modelDAG := modelDAG m;
     inputTensors := inputTensors m; isRunning := v; heap := heap m;
     timers := timers m; rejections := rejections m; calls := calls m |}.
Definition set_heap (v : list Tensor) (m : Model) : Model :=
  {| gpu := gpu m; pipeline := pipeline m;
     layerCallPauses := layerCallPauses m; data_model := data_model m;
     data_weights := data_weights m; data_metadata := data_metadata m;
     modelLayersMap := modelLayersMap m;
     layersWithResults := layersWithResults m; modelDAG := modelDAG m;
     inputTensors := inputTensors m; isRunning := isRunning m; heap := v;
     timers := timers m; rejections := rejections m; calls := calls m |}.
Definition set_timers (v : list (list string)) (m : Model) : Model :=
  {| gpu := gpu m; pipeline := pipeline m;
     layerCallPauses := layerCallPauses m; data_model := data_model m;
     data_weights := data_weights m; data_metadata := data_metadata m;
     modelLayersMap := modelLayersMap m;
     layersWithResults := layersWithResults m; modelDAG := modelDAG m;
     inputTensors := inputTensors m; isRunning := isRunning m; heap := heap m;
     timers := v; rejections := rejections m; calls := calls m |}.
Definition set_rejections (v : list Error) (m : Model) : Model :=
  {| gpu := gpu m; pipeline := pipeline m;
     layerCallPauses := layerCallPauses m; data_model := data_model m;
     data_weights := data_weights m; data_metadata := data_metadata m;
     modelLayersMap := modelLayersMap m;
     layersWithResults := layersWithResults m; modelDAG := modelDAG m;
     inputTensors := inputTensors m; isRunning := isRunning m; heap := heap m;
     timers := timers m; rejections := v; calls := calls m |}.
Definition set_calls (v : list string) (m : Model) : Model :=
  {| gpu := gpu m; pipeline := pipeline m;
     layerCallPauses := layerCallPauses m; data_model := data_model m;
     data_weights := data_weights m; data_metadata := data_metadata m;
     modelLayersMap := modelLayersMap m;
     layersWithResults := layersWithResults m; modelDAG := modelDAG m;
     inputTensors := inputTensors m; isRunning := isRunning m; heap := heap m;
     timers := timers m; rejections := rejections m; calls := v |}.

(** [new Tensor(...)]: the object gets the next free address. *)
Definition alloc (t : Tensor) (m : Model) : nat * Model :=
  (length (heap m), set_heap (heap m ++ [t]) m).

(** The tensor object behind a reference that may be [undefined]; reading a
    property of [undefined] throws. *)
Definition deref (m : Model) (r : option nat) : completion Tensor :=
  match r ≫= (heap m !!.) with
  | Some t => Ok t
  | None => Throw TypeError
  end.

(** A branch of the traversal throws: its promise is rejected. *)
Definition reject (e : Error) (m : Model) : Model :=
  set_rejections (rejections m ++ [e]) m.

(** [this.modelDAG[k]] is updated in place; it throws when the node is
    missing. *)
Definition dag_update (k : string) (f : Node.t → Node.t)
    (dag : JS.object Node.t) : completion (JS.object Node.t) :=
  match JS.get dag k with
  | Some nd => Ok (JS.put dag k (f nd))
  | None => Throw TypeError
  end.

(** [array.forEach((x, index) => ...)] with a body that may throw. *)
Fixpoint forEach {A St} (f : nat → A → St → completion St) (a : list A)
    (index : nat) (s : St) : completion St :=
  match a with
  | [] => Ok s
  | x :: a' => s' ← f index x s; forEach f a' (S index) s'
  end.

Section engine.
Context `{Layers} {regexp : JS.RegExp}.

(** *** Weight binding (the weights part of [_createLayers]) *)

(** The predicate given to [find]: it makes the regular expression
    [^weightName], which throws when that is no pattern, and tells whether
    the entry belongs to the layer and its weight name matches the
    expression. *)
Definition weight_matches (layerName weightName : string)
    (meta : Meta.entry) : completion bool :=
  let weightRE := "^" +:+ weightName in
  if JS.RegExp_valid weightRE then
    Ok (bool_decide (Meta.layer_name meta = layerName)
        && JS.RegExp_test weightRE (Meta.weight_name meta))
  else Throw SyntaxError.

(** The metadata entries of a layer whose weight name the expression
    [^weightName] matches, in their order. *)
Definition matching (metadata : list Meta.entry)
    (layerName weightName : string) : list Meta.entry :=
  filter (λ meta, Meta.layer_name meta = layerName
                  ∧ JS.RegExp_test ("^" +:+ weightName)
                      (Meta.weight_name meta) = true) metadata.

(** The body of [weightNames.map(weightName => ...)]. *)
Definition bindWeight (metadata : list Meta.entry) (raw : JS.ArrayBuffer)
    (layerName weightName : string) : completion Tensor :=
  paramMetadata ← JS.findM (weight_matches layerName weightName) metadata;
  match paramMetadata with
  | None => Throw MissingWeightError
  | Some paramMetadata =>
      a ← JS.Float32Array_view raw (Meta.offset paramMetadata)
             (Meta.length paramMetadata);
      Ok (Tensor_new a (Meta.shape paramMetadata))
  end.

(** The names of the weights of a layer. *)
Definition weightNames (layerDef : Keras.layerDef)
    : completion (list string) :=
  let layerClass := Keras.class_name layerDef in
  let layerConfig := Keras.config layerDef in
  if decide (layerClass = "Bidirectional") then
    match Keras.layer layerConfig with
    | None => Throw TypeError
    | Some (wrappedLayerClass, forwardName) =>
        let backwardName := JS.replace "forward" "backward" forwardName in
        let forwardWeightNames :=
          (λ param, forwardName +:+ "_" +:+ param)
            <$> params wrappedLayerClass in
        let backwardWeightNames :=
          (λ param, backwardName +:+ "_" +:+ param)
            <$> params wrappedLayerClass in
        Ok (forwardWeightNames ++ backwardWeightNames)
    end
  else if decide (layerClass = "TimeDistributed") then
    match Keras.layer layerConfig with
    | None => Throw TypeError
    | Some (wrappedLayerClass, wrappedName) =>
        Ok ((λ param, wrappedName +:+ "_" +:+ param)
              <$> params wrappedLayerClass)
    end
  else
    Ok ((λ param, Keras.name layerConfig +:+ "_" +:+ param)
          <$> params layerClass).

(** *** Building the graph ([_createLayers]) *)

(** [layerConfig.batch_input_shape.slice(1)] *)
Definition inputShape (layerConfig : Keras.layerConfig)
    : completion (list nat) :=
  match Keras.batch_input_shape layerConfig with
  | Some s => Ok (tail s)
  | None => Throw TypeError
  end.

(** The first conditional of the loop body: the input node of a Sequential
    model, the input tensor of an InputLayer of a Model. *)
Definition createInput (modelClass : string) (index : nat)
    (layerDef : Keras.layerDef) (m : Model) : completion Model :=
  let layerClass := Keras.class_name layerDef in
  let layerConfig := Keras.config layerDef in
  if decide (modelClass = "Sequential" ∧ index = 0) then
    let inputName := "input" in
    inputShape ← inputShape layerConfig;
    let layer :=
      Layer_new "InputLayer" inputName
        (pipelineEnabled "InputLayer" false false) [] in
    let m1 :=
      set_modelLayersMap (<[inputName := layer]> (modelLayersMap m)) m in
    let m2 :=
      set_modelDAG
        (JS.put (modelDAG m1) inputName
           {| Node.layerClass := "InputLayer"; Node.name := inputName;
              Node.inbound := []; Node.outbound := [] |}) m1 in
    let '(a, m3) := alloc (Tensor_new JS.Float32Array_empty inputShape) m2 in
    Ok (set_inputTensors (JS.put (inputTensors m3) inputName a) m3)
  else if decide (modelClass = "Model" ∧ layerClass = "InputLayer") then
    inputShape ← inputShape layerConfig;
    let '(a, m1) := alloc (Tensor_new JS.Float32Array_empty inputShape) m in
    Ok (set_inputTensors
          (JS.put (inputTensors m1) (Keras.name layerConfig) a) m1)
  else Ok m.

(** The second conditional: the layer object.  The attributes handed to the
    constructor (the configuration with its keys in camelCase, [gpu],
    [pipeline]) stay inside the layer; their name is the layer's name. *)
Definition createLayer (gpu pipeline : bool) (layerDef : Keras.layerDef)
    : completion Layer :=
  let layerClass := Keras.class_name layerDef in
  let layerConfig := Keras.config layerDef in
  if decide (layerClass = "Bidirectional" ∨ layerClass = "TimeDistributed")
  then
    match Keras.layer layerConfig with
    | None => Throw TypeError
    | Some (wrappedLayerClass, _) =>
        if implemented wrappedLayerClass
        then Ok (Layer_new layerClass (Keras.name layerConfig)
                   (pipelineEnabled layerClass false false) [])
        else Throw TypeError
    end
  else Ok (Layer_new layerClass (Keras.name layerConfig)
             (pipelineEnabled layerClass gpu pipeline) []).

(** The last conditional: the edges of the new node. *)
Definition createEdges (modelClass : string)
    (modelConfig : list Keras.layerDef) (index : nat)
    (layerDef : Keras.layerDef) (dag : JS.object Node.t)
    : completion (JS.object Node.t) :=
  let layerConfig := Keras.config layerDef in
  if decide (modelClass = "Sequential") then
    if decide (index = 0) then
      let inputName := "input" in
      dag1 ← dag_update inputName
               (Node.push_outbound (Keras.name layerConfig)) dag;
      dag_update (Keras.name layerConfig) (Node.push_inbound inputName) dag1
    else
      match modelConfig !! (index - 1) with
      | None => Throw TypeError
      | Some prevLayerDef =>
          let prevLayerConfig := Keras.config prevLayerDef in
          dag1 ← dag_update (Keras.name layerConfig)
                   (Node.push_inbound (Keras.name prevLayerConfig)) dag;
          dag_update (Keras.name prevLayerConfig)
            (Node.push_outbound (Keras.name layerConfig)) dag1
      end
  else if decide (modelClass = "Model") then
    match Keras.inbound_nodes layerDef with
    | [] => Ok dag
    | nodes :: _ =>
        forEach (λ _ inboundLayerName dag0,
            dag1 ← dag_update (Keras.name layerConfig)
                     (Node.push_inbound inboundLayerName) dag0;
            dag_update inboundLayerName
              (Node.push_outbound (Keras.name layerConfig)) dag1)
          nodes 0 dag
    end
  else Ok dag.

(** The body of [modelConfig.forEach((layerDef, index) => ...)]. *)
Definition createLayers_body (modelClass : string)
    (modelConfig : list Keras.layerDef) (index : nat)
    (layerDef : Keras.layerDef) (m : Model) : completion Model :=
  let layerClass := Keras.class_name layerDef in
  let layerConfig := Keras.config layerDef in
  if negb (implemented layerClass)
  then Throw (UnknownLayerClassError layerClass)
  else
    m1 ← createInput modelClass index layerDef m;
    layer ← createLayer (gpu m) (pipeline m) layerDef;
    weightNames ← weightNames layerDef;
    weights ← mapM (bindWeight (data_metadata m) (data_weights m)
                      (Keras.name layerConfig)) weightNames;
    let layer :=
      Layer_new (layerClass) (name layer) (_pipelineEnabled layer) weights in
    let m2 :=
      set_modelLayersMap
        (<[Keras.name layerConfig := layer]> (modelLayersMap m1)) m1 in
    let dag :=
      JS.put (modelDAG m2) (Keras.name layerConfig)
        {| Node.layerClass := layerClass;
           Node.name := Keras.name layerConfig;
           Node.inbound := []; Node.outbound := [] |} in
    dag' ← createEdges modelClass modelConfig index layerDef dag;
    Ok (set_modelDAG dag' m2).

Definition _createLayers (m : Model) : completion Model :=
  let modelClass := Keras.model_class_name (data_model m) in
  let modelConfig :=
    if decide (modelClass = "Sequential")
    then Keras.model_config (data_model m)
    else if decide (modelClass = "Model")
    then Keras.model_config (data_model m)
    else [] in
  forEach (createLayers_body modelClass modelConfig) modelConfig 0 m.

(** The fields of a freshly constructed [Model] whose artifacts have
    arrived. *)
Definition Model_new (gpu pipeline layerCallPauses : bool)
    (model : Keras.model) (raw : JS.ArrayBuffer)
    (metadata : list Meta.entry) : Model :=
  {| gpu := gpu; pipeline := pipeline; layerCallPauses := layerCallPauses;
     data_model := model; data_weights := raw; data_metadata := metadata;
     modelLayersMap := ∅; layersWithResults := []; modelDAG := [];
     inputTensors := []; isRunning := false;
     heap := []; timers := []; rejections := []; calls := [] |}.

End engine.

Section run.
Context `{Layers}.

(** *** Calling a layer on the results of its inbound layers *)

(** [currentLayer.call(...)] on the tensors at the given addresses; the
    tensor it returns is a new object. *)
Definition invoke (currentLayer : Layer) (inputs : list nat) (m : Model)
    : Model * completion nat :=
  match mapM (heap m !!.) inputs with
  | None => (m, Throw TypeError)
  | Some xs =>
      let m1 := set_calls (calls m ++ [name currentLayer]) m in
      match call (layerClass currentLayer) (name currentLayer)
              (weights currentLayer) xs with
      | Throw e => (m1, Throw e)
      | Ok y => let '(r, m2) := alloc y m1 in (m2, Ok r)
      end
  end.

(** The tensor [_regularLayerCall] hands to [currentLayer.call]: the
    conditional on [inboundLayerResult] of the source.  [r] is the address
    of [inboundLayer.result] and [x] the tensor there. *)
Definition regularLayerInput (currentLayer inboundLayer : Layer)
    (copyBeforeCall : bool) (r : nat) (x : Tensor) (m : Model)
    : nat * Model :=
  if negb (_fromPipeline x) || negb (_pipelineEnabled currentLayer) then
    if _fromPipeline x then
      alloc (transferFromPipeline (layerClass inboundLayer)
               (name inboundLayer) x) m
    else if copyBeforeCall then
      alloc (Tensor_new (data x) (shape x)) m
    else (r, m)
  else if copyBeforeCall then
    alloc (Tensor_weblas_copy x) m
  else (r, m).

Definition _regularLayerCall (currentLayer : Layer)
    (inboundLayer : option Layer) (copyBeforeCall : bool) (m : Model)
    : Model * completion nat :=
  match inboundLayer with
  | None => (m, Throw TypeError)
  | Some inboundLayer =>
      match result inboundLayer with
      | None => (m, Throw TypeError)
      | Some r =>
          match heap m !! r with
          | None => (m, Throw TypeError)
          | Some x =>
              let '(a, m1) :=
                regularLayerInput currentLayer inboundLayer
                  copyBeforeCall r x m in
              invoke currentLayer [a] m1
          end
      end
  end.

(** The tensors [_mergeLayerCall] hands over: one step of
    [inputs.map((x, i) => ...)] in either branch of the source. *)
Definition mergeLayerInput (convert copyBeforeCall : bool)
    (acc : list nat * Model) (input : Layer * (nat * Tensor))
    : list nat * Model :=
  let '(inputs, m) := acc in
  let '(inboundLayer, (r, x)) := input in
  let '(a, m') :=
    if convert then
      if _fromPipeline x then
        alloc (transferFromPipeline (layerClass inboundLayer)
                 (name inboundLayer) x) m
      else if copyBeforeCall then
        alloc (Tensor_new (data x) (shape x)) m
      else (r, m)
    else if copyBeforeCall then
      alloc (Tensor_weblas_copy x) m
    else (r, m) in
  (inputs ++ [a], m').

Definition _mergeLayerCall (currentLayer : Layer)
    (inboundLayers : list Layer) (copyBeforeCall : bool) (m : Model)
    : Model * completion nat :=
  match mapM (λ layer : Layer,
                r ← result layer; x ← heap m !! r; Some (r, x))
          inboundLayers with
  | None => (m, Throw TypeError)
  | Some inputs =>
      let canRunInPipeline :=
        JS.every inputs (λ rx : nat * Tensor, _fromPipeline rx.2) in
      let convert :=
        negb canRunInPipeline || negb (_pipelineEnabled currentLayer) in
      let '(inputs', m1) :=
        foldl (mergeLayerInput convert copyBeforeCall) ([], m)
          (zip inboundLayers inputs) in
      invoke currentLayer inputs' m1
  end.

(** *** The scheduler ([_traverseDAG]) *)

(** [numSiblingNodes >= 1] for the node with the given [inbound] array. *)
Definition copyBeforeCall_of (dag : JS.object Node.t)
    (inbound : list string) : option bool :=
  outs ← mapM (λ n, Node.outbound <$> JS.get dag n) inbound;
  let numSiblingNodes :=
    foldl (λ num outbound, num + length outbound) 0 outs in
  Some (1 <=? numSiblingNodes).

(** The block guarded by [layerClass !== 'InputLayer'] in the branch for a
    single node, up to the push on [layersWithResults].  The boolean tells
    whether the function goes on (to the pause and to the outbound nodes) or
    has returned or thrown. *)
Definition computeNode (node : string) (nd : Node.t) (m : Model)
    : Model * bool :=
  match modelLayersMap m !! node with
  | None => (reject TypeError m, false)
  | Some currentLayer =>
      if visited currentLayer then (m, false)
      else
        match mapM (modelLayersMap m !!.) (Node.inbound nd) with
        | None => (reject TypeError m, false)
        | Some inboundLayers =>
            if negb (JS.every inboundLayers hasResult) then (m, false)
            else
              match copyBeforeCall_of (modelDAG m) (Node.inbound nd) with
              | None => (reject TypeError m, false)
              | Some copyBeforeCall =>
                  let '(m1, r) :=
                    if decide (Node.layerClass nd = "Merge")
                    then _mergeLayerCall currentLayer inboundLayers
                           copyBeforeCall m
                    else _regularLayerCall currentLayer
                           (head inboundLayers) copyBeforeCall m in
                  match r with
                  | Throw e => (reject e m1, false)
                  | Ok a =>
                      let m2 :=
                        set_modelLayersMap
                          (<[node := Layer_done a currentLayer]>
                             (modelLayersMap m1)) m1 in
                      (set_layersWithResults
                         (layersWithResults m2 ++ [name currentLayer]) m2,
                       true)
                  end
              end
        end
  end.

(** [_traverseDAG(nodes)].  The function is asynchronous: a call runs up to
    its first suspension before its caller goes on, and the only suspension
    that lets other code run is [await Promise.delay(0)], which parks the
    rest of the branch (the traversal of [outbound]) behind the branches
    already parked.  [fuel] bounds the depth of the recursion; [None] means
    it ran out. *)
Fixpoint _traverseDAG (fuel : nat) (nodes : list string) (m : Model)
    : option Model :=
  match fuel with
  | 0 => None
  | S fuel' =>
      match nodes with
      | [] => Some m
      | [node] =>
          match JS.get (modelDAG m) node with
          | None => Some (reject TypeError m)
          | Some nd =>
              if decide (Node.layerClass nd ≠ "InputLayer") then
                let '(m1, go) := computeNode node nd m in
                if go then
                  if layerCallPauses m1
                  then Some (set_timers (timers m1 ++ [Node.outbound nd]) m1)
                  else _traverseDAG fuel' (Node.outbound nd) m1
                else Some m1
              else _traverseDAG fuel' (Node.outbound nd) m
          end
      | _ =>
          foldl (λ acc node, acc ≫= _traverseDAG fuel' [node])
            (Some m) nodes
      end
  end.

(** The event loop runs the parked branches, oldest first, until none is
    left. *)
Fixpoint runTimers (fuel steps : nat) (m : Model) : option Model :=
  match timers m with
  | [] => Some m
  | outbound :: rest =>
      match steps with
      | 0 => None
      | S steps' =>
          _traverseDAG fuel outbound (set_timers rest m)
            ≫= runTimers fuel steps'
      end
  end.

(** *** [predict] *)

(** How the promise returned by [predict] settles.  A rejection of the
    traversal carries the reasons of all branches that threw: the promise is
    rejected with the one that reaches it first. *)
Inductive outcome :=
  | Resolved (outputData : option (JS.object JS.Float32Array))
  | Rejected (reasons : list Error).

Definition inputNames_of (m : Model) : list string :=
  JS.sort (JS.keys (inputTensors m)).

(** The two checks on [inputData]. *)
Definition checkInputNames (inputData : JS.object JS.value) (m : Model)
    : bool :=
  JS.isEqual (JS.sort (JS.keys inputData)) (inputNames_of m).

Definition checkInputValues (inputData : JS.object JS.value) (m : Model)
    : bool :=
  JS.every (inputNames_of m)
    (λ inputName, JS.instanceof_Float32Array (JS.get inputData inputName)).

(** "reset hasResult and visited flags in all layers"; a new invocation has
    called and rejected nothing yet. *)
Definition resetLayers (m : Model) : Model :=
  set_calls [] (set_rejections []
    (set_modelLayersMap (Layer_reset <$> modelLayersMap m)
       (set_layersWithResults [] m))).

(** The body of "load data to input tensors". *)
Definition loadInput (inputData : JS.object JS.value) (inputName : string)
    (m : Model) : Model * completion () :=
  let inputLayer := modelLayersMap m !! inputName in
  match JS.get (inputTensors m) inputName ≫= (λ a, (a,.) <$> heap m !! a),
        JS.get inputData inputName with
  | Some (a, t), Some (JS.VFloat32Array d) =>
      let t' := replaceTensorData t d in
      let m1 := set_heap (<[a := t']> (heap m)) m in
      match inputLayer with
      | None => (m1, Throw TypeError)
      | Some inputLayer =>
          match call (layerClass inputLayer) (name inputLayer)
                  (weights inputLayer) [t'] with
          | Throw e => (m1, Throw e)
          | Ok y =>
              let '(r, m2) := alloc y m1 in
              (set_modelLayersMap
                 (<[inputName := Layer_done r inputLayer]>
                    (modelLayersMap m2)) m2, Ok ())
          end
      end
  | _, _ => (m, Throw TypeError)
  end.

Fixpoint loadInputs (inputData : JS.object JS.value)
    (inputNames : list string) (m : Model) : Model * completion () :=
  match inputNames with
  | [] => (m, Ok ())
  | inputName :: rest =>
      match loadInput inputData inputName m with
      | (m', Ok _) => loadInputs inputData rest m'
      | thrown => thrown
      end
  end.

(** "outputs are layers with no outbound nodes" *)
Definition isOutput (node : Node.t) : bool :=
  bool_decide (Node.outbound node = []).

Definition resultData (m : Model) (layerName : string)
    : completion JS.Float32Array :=
  l ← from_option Ok (Throw TypeError) (modelLayersMap m !! layerName);
  t ← deref m (result l);
  Ok (data t).

Definition collectOutputs (m : Model) : Model * outcome :=
  let modelClass := Keras.model_class_name (data_model m) in
  if decide (modelClass = "Sequential") then
    match JS.find (JS.values (modelDAG m)) isOutput with
    | None => (m, Rejected [TypeError])
    | Some outputLayer =>
        match resultData m (Node.name outputLayer) with
        | Throw e => (m, Rejected [e])
        | Ok d => (set_isRunning false m, Resolved (Some [("output", d)]))
        end
    end
  else if decide (modelClass = "Model") then
    let outputLayers := filter (λ nd, isOutput nd) (JS.values (modelDAG m)) in
    match forEach (λ _ (layer : Node.t) outputData,
              d ← resultData m (Node.name layer);
              Ok (JS.put outputData (Node.name layer) d))
            outputLayers 0 [] with
    | Throw e => (m, Rejected [e])
    | Ok outputData => (set_isRunning false m, Resolved (Some outputData))
    end
  else (m, Resolved None).

Definition predict (fuel : nat) (inputData : JS.object JS.value)
    (m : Model) : option (Model * outcome) :=
  let m := set_isRunning true m in
  let inputNames := inputNames_of m in
  if negb (checkInputNames inputData m) then
    Some (set_isRunning false m,
          Rejected [InvalidInputError (WrongNames inputNames)])
  else if negb (checkInputValues inputData m) then
    Some (set_isRunning false m,
          Rejected [InvalidInputError NotFloat32Array])
  else
    let m := resetLayers m in
    match loadInputs inputData inputNames m with
    | (m, Throw e) => Some (reject e m, Rejected [e])
    | (m, Ok _) =>
        m ← _traverseDAG fuel inputNames m;
        m ← runTimers fuel fuel m;
        match rejections m with
        | [] => Some (collectOutputs m)
        | reasons => Some (m, Rejected reasons)
        end
    end.

End run.

(** What calling a layer changes in the state: tensors are allocated and
    calls are logged. *)
Definition extend (h : list Tensor) (c : list string) (m : Model) : Model :=
  set_calls (calls m ++ c) (set_heap (heap m ++ h) m).

(** The two flags of every layer agree. *)
Definition flags_agree (m : Model) : Prop :=
  ∀ n l, modelLayersMap m !! n = Some l → hasResult l = visited l.

(** The flags of [m'] are those of [m] but for flags that went from false to
    true. *)
Definition flags_grow (m m' : Model) : Prop :=
  ∀ n l, modelLayersMap m !! n = Some l →
    ∃ l', modelLayersMap m' !! n = Some l'
          ∧ (hasResult l = true → hasResult l' = true)
          ∧ (visited l = true → visited l' = true).

(** What a layer is, without the state the engine keeps on it. *)
Definition Layer_static (l : Layer) : Layer :=
  Layer_new (layerClass l) (name l) (_pipelineEnabled l) (weights l).

(** What a run never changes, and what it only lets grow. *)
Record same_graph (m m' : Model) : Prop := {
  sg_dag : modelDAG m' = modelDAG m;
  sg_inputs : inputTensors m' = inputTensors m;
  sg_model : data_model m' = data_model m;
  sg_pauses : layerCallPauses m' = layerCallPauses m;
  sg_running : isRunning m' = isRunning m;
  sg_names :
    ∀ n, name <$> modelLayersMap m' !! n = name <$> modelLayersMap m !! n;
  sg_static :
    ∀ n, Layer_static <$> modelLayersMap m' !! n
         = Layer_static <$> modelLayersMap m !! n;
  sg_size : size (modelLayersMap m') = size (modelLayersMap m);
  sg_heap : length (heap m) ≤ length (heap m');
  sg_log : length (layersWithResults m) ≤ length (layersWithResults m');
  sg_rejections : rejections m `prefix_of` rejections m'
}.

(** Layers are filed under their name. *)
Definition names_ok (m : Model) : Prop :=
  ∀ n l, modelLayersMap m !! n = Some l → name l = n.

(** The node has its result. *)
Definition computed (m : Model) (n : string) : Prop :=
  hasResult <$> modelLayersMap m !! n = Some true.

(** [layersWithResults] names computed layers, each once, and as long as no
    branch has thrown it lists the calls made. *)
Definition log_ok (m : Model) : Prop :=
  NoDup (layersWithResults m)
  ∧ (∀ n, n ∈ layersWithResults m → computed m n)
  ∧ (rejections m = [] → calls m = layersWithResults m).

(** A layer with a result was computed by the traversal or is the layer of
    an input. *)
Definition results_logged (m : Model) : Prop :=
  ∀ n, computed m n →
    n ∈ layersWithResults m ∨ n ∈ JS.keys (inputTensors m).

(** The result of a layer that has one is an allocated tensor. *)
Definition results_ok (m : Model) : Prop :=
  ∀ n l, modelLayersMap m !! n = Some l → hasResult l = true →
    ∃ a, result l = Some a ∧ a < length (heap m).

Definition run_ok (m : Model) : Prop :=
  flags_agree m ∧ names_ok m ∧ log_ok m.

(** ** Well-formed graphs and the states of a run *)

(** The inbound and outbound arrays of a node, empty when there is no such
    node. *)
Definition inbound_of (m : Model) (n : string) : list string :=
  default [] (Node.inbound <$> JS.get (modelDAG m) n).
Definition outbound_of (m : Model) (n : string) : list string :=
  default [] (Node.outbound <$> JS.get (modelDAG m) n).

(** What [_createLayers] leaves behind for a node [n] when the description is
    a graph of layers: a layer of that name; an input tensor exactly for the
    input nodes, which are the nodes without inbound edge; edges recorded at
    both their ends; inbound nodes created before the node ([seen]). *)
Definition node_ok (m : Model) (seen : list string) (n : string)
    (nd : Node.t) : Prop :=
  Node.name nd = n
  ∧ name <$> modelLayersMap m !! n = Some n
  ∧ (Node.layerClass nd = "InputLayer" ↔ n ∈ JS.keys (inputTensors m))
  ∧ (Node.layerClass nd = "InputLayer" ↔ Node.inbound nd = [])
  ∧ Forall (λ k, k ∈ seen ∧ n ∈ outbound_of m k) (Node.inbound nd)
  ∧ Forall (λ k, n ∈ inbound_of m k) (Node.outbound nd).

Fixpoint dag_ok (m : Model) (seen : list string) (dag : JS.object Node.t)
    : Prop :=
  match dag with
  | [] => True
  | (n, nd) :: rest => node_ok m seen n nd ∧ dag_ok m (n :: seen) rest
  end.

(** A valid DAG: node names are distinct, every node is well formed, layers
    are filed under their name, every input tensor belongs to a node and is an
    allocated object, and no branch of an earlier call is parked. *)
Definition valid_dag (m : Model) : Prop :=
  NoDup (JS.keys (modelDAG m))
  ∧ dag_ok m [] (modelDAG m)
  ∧ map_Forall (λ n l, name l = n) (modelLayersMap m)
  ∧ Forall (λ ka : string * nat,
              ka.1 ∈ JS.keys (modelDAG m) ∧ ka.2 < length (heap m))
      (inputTensors m)
  ∧ timers m = [].

Global Instance node_ok_dec m seen n nd : Decision (node_ok m seen n nd).
Proof. unfold node_ok. apply _. Defined.
Global Instance dag_ok_dec m seen dag : Decision (dag_ok m seen dag).
Proof.
  revert seen. induction dag as [|[n nd] dag IH]; intros seen; simpl; apply _.
Defined.
Global Instance valid_dag_dec m : Decision (valid_dag m).
Proof. unfold valid_dag. apply _. Defined.

(** The nodes [_traverseDAG] computes: all but the input nodes. *)
Definition computable (m : Model) (n : string) : Prop :=
  ∃ nd, JS.get (modelDAG m) n = Some nd ∧ Node.layerClass nd ≠ "InputLayer".

(** The recursion depth that suffices for a model. *)
Definition enough_fuel (m : Model) : nat := 2 * size (modelLayersMap m) + 4.

(** What the scheduler relies on in a valid DAG: the input nodes are the
    nodes without inbound edge, every node has its layer, and every edge is
    recorded at both its ends. *)
Definition edges_ok (m : Model) : Prop :=
  ∀ n nd, JS.get (modelDAG m) n = Some nd →
    (Node.layerClass nd = "InputLayer" ↔ Node.inbound nd = [])
    ∧ is_Some (modelLayersMap m !! n)
    ∧ (∀ k, k ∈ Node.inbound nd →
         n ∈ outbound_of m k ∧ is_Some (modelLayersMap m !! k))
    ∧ (∀ k, k ∈ Node.outbound nd → n ∈ inbound_of m k).

(** A node waits for an inbound node. *)
Definition blocked (m : Model) (n : string) : Prop :=
  ∃ k, k ∈ inbound_of m n ∧ ¬ computed m k.

(** The node is an input node. *)
Definition is_input (m : Model) (n : string) : Prop :=
  ∃ nd, JS.get (modelDAG m) n = Some nd ∧ Node.layerClass nd = "InputLayer".

(** Every node [n] fed by a computed node [k] is computed, waits for another
    inbound node, or is still to be visited: by a call in progress
    ([pending]) or by a parked branch; or [k] is an input node that a call in
    progress has still to pass. *)
Definition closed (m : Model) (pending : list string) : Prop :=
  ∀ k n, computed m k → n ∈ outbound_of m k →
    computed m n ∨ blocked m n ∨ n ∈ pending ∨ n ∈ concat (timers m)
    ∨ (k ∈ pending ∧ is_input m k).

(** The number of layers the traversal has not computed yet. *)
Definition todo (m : Model) : nat :=
  size (modelLayersMap m) - length (layersWithResults m).

(** No more branches are parked between [m] and [m'] than layers were
    computed. *)
Definition parked_le (m m' : Model) : Prop :=
  length (timers m') + length (layersWithResults m)
  ≤ length (timers m) + length (layersWithResults m').

(** The nodes of the list that exist are computable. *)
Definition noninput (m : Model) (nodes : list string) : Prop :=
  ∀ n nd, n ∈ nodes → JS.get (modelDAG m) n = Some nd →
    Node.layerClass nd ≠ "InputLayer".

Section steps.
Context `{Layers}.

(** The state changes of a run of [predict] after the reset, one at a
    time: an input is loaded, a node is visited, a branch is parked at the
    pause or resumed after it, a branch throws on a missing node. *)
Inductive sched_step (inputData : JS.object JS.value) : relation Model :=
  | step_load inputName m :
      sched_step inputData m (loadInput inputData inputName m).1
  | step_node node nd m :
      JS.get (modelDAG m) node = Some nd →
      sched_step inputData m (computeNode node nd m).1
  | step_park outbound m :
      sched_step inputData m (set_timers (timers m ++ [outbound]) m)
  | step_resume outbound rest m :
      timers m = outbound :: rest →
      sched_step inputData m (set_timers rest m)
  | step_throw m :
      sched_step inputData m (reject TypeError m).

(** The ways in which [computeNode] ends. *)
Inductive computeNode_spec (node : string) (nd : Node.t) (m : Model)
    : Model * bool → Prop :=
  | computeNode_visited currentLayer :
      modelLayersMap m !! node = Some currentLayer →
      visited currentLayer = true →
      computeNode_spec node nd m (m, false)
  | computeNode_waiting inboundLayers :
      mapM (modelLayersMap m !!.) (Node.inbound nd) = Some inboundLayers →
      ¬ Forall (λ l, hasResult l = true) inboundLayers →
      computeNode_spec node nd m (m, false)
  | computeNode_throw e h c :
      computeNode_spec node nd m (reject e (extend h c m), false)
  | computeNode_done currentLayer inboundLayers a h :
      modelLayersMap m !! node = Some currentLayer →
      visited currentLayer = false →
      mapM (modelLayersMap m !!.) (Node.inbound nd) = Some inboundLayers →
      Forall (λ l, hasResult l = true) inboundLayers →
      a < length (heap m ++ h) →
      computeNode_spec node nd m
        (set_layersWithResults (layersWithResults m ++ [name currentLayer])
           (set_modelLayersMap
              (<[node := Layer_done a currentLayer]> (modelLayersMap m))
              (extend h [name currentLayer] m)), true).

(** The state in which the traversal of a call starts, when the checks on
    the input have passed. *)
Definition afterReset (m : Model) : Model :=
  resetLayers (set_isRunning true m).

End steps.

(** The graph has at most one node without outbound edge: what the chain
    built from a Sequential description looks like. *)
Definition single_output (m : Model) : Prop :=
  length (filter (λ nd, isOutput nd) (JS.values (modelDAG m))) ≤ 1.


(** ** Two runs side by side *)

(** Two tensors that differ at most in their data. *)
Definition same_meta (t t' : Tensor) : Prop :=
  shape t = shape t' ∧ _fromPipeline t = _fromPipeline t'
  ∧ _actualShape t = _actualShape t' ∧ weblasTensor t = weblasTensor t'.

(** Two references, each into its heap, to equal tensors. *)
Definition same_tensor (hA hB : list Tensor) (a b : nat) : Prop :=
  ∃ t, hA !! a = Some t ∧ hB !! b = Some t.

(** Two layer objects in the same state: the same layer, the same flags, and
    when they have a result, equal result tensors. *)
Definition layer_sim (hA hB : list Tensor) (lA lB : Layer) : Prop :=
  Layer_static lA = Layer_static lB
  ∧ hasResult lA = hasResult lB
  ∧ visited lA = visited lB
  ∧ (hasResult lA = true →
       ∃ a b, result lA = Some a ∧ result lB = Some b
              ∧ same_tensor hA hB a b).

(** Two states of two runs that cannot be told apart by the engine: they
    agree on everything but the addresses of the tensors and the content of
    tensors that no layer with a result refers to. *)
Record sim (sA sB : Model) : Prop := {
  sim_dag : modelDAG sB = modelDAG sA;
  sim_inputs : inputTensors sB = inputTensors sA;
  sim_model : data_model sB = data_model sA;
  sim_pauses : layerCallPauses sB = layerCallPauses sA;
  sim_running : isRunning sB = isRunning sA;
  sim_log : layersWithResults sB = layersWithResults sA;
  sim_timers : timers sB = timers sA;
  sim_rejections : rejections sB = rejections sA;
  sim_calls : calls sB = calls sA;
  sim_layers :
    ∀ n, option_Forall2 (layer_sim (heap sA) (heap sB))
           (modelLayersMap sA !! n) (modelLayersMap sB !! n)
}.

(** An inbound layer with its result, in the two runs. *)
Definition ready_sim (hA hB : list Tensor) (lA lB : Layer) : Prop :=
  Layer_static lA = Layer_static lB
  ∧ ∃ a b, result lA = Some a ∧ result lB = Some b ∧ same_tensor hA hB a b.

(** The same call of a layer in the two runs: the same calls are logged,
    and either both throw the same error or both return equal tensors. *)
Definition call_sim (currentName : string) (sA sB : Model)
    (oA oB : Model * completion nat) : Prop :=
  ∃ hA hB c,
    oA.1 = extend hA c sA ∧ oB.1 = extend hB c sB
    ∧ match oA.2, oB.2 with
      | Ok a, Ok b =>
          c = [currentName]
          ∧ same_tensor (heap sA ++ hA) (heap sB ++ hB) a b
      | Throw e, Throw e' => e = e'
      | _, _ => False
      end.

(** The tensors of [m] are still there in [s], with other data at most. *)
Definition heap_meta (m s : Model) : Prop :=
  ∀ a t, heap m !! a = Some t → ∃ t', heap s !! a = Some t' ∧ same_meta t t'.

(** The input tensors of the two states are allocated below the given
    heap sizes and differ at most in their data, and the results of the
    layers are allocated above. *)
Definition inputs_sim (nA nB : nat) (sA sB : Model) : Prop :=
  (∀ k a, JS.get (inputTensors sA) k = Some a →
     a < nA ∧ a < nB
     ∧ ∃ tA tB, heap sA !! a = Some tA ∧ heap sB !! a = Some tB
                ∧ same_meta tA tB)
  ∧ nA ≤ length (heap sA) ∧ nB ≤ length (heap sB)
  ∧ (∀ n l a, modelLayersMap sA !! n = Some l → result l = Some a →
       hasResult l = true → nA ≤ a)
  ∧ (∀ n l b, modelLayersMap sB !! n = Some l → result l = Some b →
       hasResult l = true → nB ≤ b).

(** ** Concrete models, used to run the definitions *)

Module Example.

(** A small layer library: [Dense] has a kernel and a bias, every layer
    returns the data of its first input, and the layer named ["broken"]
    throws. *)
Definition layers : Layers :=
  {| implemented cls :=
       bool_decide (cls ∈ ["InputLayer"; "Dense"; "Activation"; "Merge"]);
     params cls := if decide (cls = "Dense") then ["W"; "b"] else [];
     pipelineEnabled _ _ _ := false;
     call cls name weights inputs :=
       if decide (name = "broken") then Throw (LayerError "shape mismatch")
       else match inputs with
            | x :: _ => Ok (Tensor_new (data x) (shape x))
            | [] => Throw TypeError
            end;
     transferFromPipeline _ _ x := Tensor_new (data x) (shape x) |}.

Definition layerDef (cls name : string) (inbound : list (list string))
    : Keras.layerDef :=
  {| Keras.class_name := cls;
     Keras.config := {| Keras.name := name;
                        Keras.batch_input_shape := Some [0; 2];
                        Keras.layer := None |};
     Keras.inbound_nodes := inbound |}.

(** Two floats. *)
Definition twoFloats : JS.Float32Array :=
  {| JS.buffer := [Byte.x00; Byte.x00; Byte.x80; Byte.x3f;
                   Byte.x00; Byte.x00; Byte.x00; Byte.x40];
     JS.byteOffset := 0; JS.length := 2 |}.

(** Sequential: input -> act_1 -> act_2. *)
Definition sequential : Keras.model :=
  {| Keras.model_class_name := "Sequential";
     Keras.model_config :=
       [layerDef "Activation" "act_1" []; layerDef "Activation" "act_2" []] |}.

(** Sequential with a single layer. *)
Definition single : Keras.model :=
  {| Keras.model_class_name := "Sequential";
     Keras.model_config := [layerDef "Activation" "act_1" []] |}.

(** Model: in_1 feeds [left] and [right], which feed the Merge layer
    [sum]. *)
Definition diamond (right : string) : Keras.model :=
  {| Keras.model_class_name := "Model";
     Keras.model_config :=
       [layerDef "InputLayer" "in_1" [];
        layerDef "Activation" "left" [["in_1"]];
        layerDef "Activation" right [["in_1"]];
        layerDef "Merge" "sum" [["left"; right]]] |}.

(** The patterns of the examples are of the form [^w] for a word [w] of
    characters without a meaning in patterns.  This engine knows these
    patterns only and refuses every other source; on them every runtime
    agrees with it. *)
Definition literal_valid (source : string) : bool :=
  match source with
  | EmptyString => false
  | String c w => bool_decide (String c EmptyString = "^") && JS.literal w
  end.

Definition literal_test (source s : string) : bool :=
  match source with
  | EmptyString => false
  | String _ w => String.prefix w s
  end.

Lemma literal_engine w s :
  JS.literal w = true →
  literal_valid ("^" +:+ w) = true
  ∧ literal_test ("^" +:+ w) s = String.prefix w s.
Proof.
  intros Hw. split; [|reflexivity].
  apply andb_true_intro. split; [reflexivity|exact Hw].
Qed.

Definition regexp : JS.RegExp :=
  {| JS.RegExp_valid := literal_valid;
     JS.RegExp_test := literal_test;
     JS.RegExp_literal := literal_engine |}.

Definition build (pauses : bool) (model : Keras.model) : completion Model :=
  _createLayers (H := layers) (regexp := regexp)
    (Model_new false false pauses model [] []).

Definition built (pauses : bool) (model : Keras.model) : Model :=
  match build pauses model with
  | Ok m => m
  | Throw _ => Model_new false false pauses model [] []
  end.

Definition inputData (inputName : string) : JS.object JS.value :=
  [(inputName, JS.VFloat32Array twoFloats)].

End Example.

(** ** The events of the three requests ([_dataRequest])

    After the constructor has sent the requests, the browser calls the
    handlers that [_dataRequest] installed: [onload], [onprogress] and
    [onerror], in the order in which things happen. *)

(** The [ProgressEvent] given to [xhr.onprogress]. *)
Module ProgressEvent.
Record t := {
  lengthComputable : bool;
  loaded : nat;
  total : nat
}.
End ProgressEvent.

Module Xhr.
Import Loader.

(** [Math.round(100 * e.loaded / e.total)]: the quotient rounded to the
    nearest integer, halves upwards.  (The source computes it on doubles,
    which gives this integer for byte counts below 2^45; a computable length
    is not zero.) *)
Definition percentComplete (e : ProgressEvent.t) : nat :=
  (200 * ProgressEvent.loaded e + ProgressEvent.total e)
    / (2 * ProgressEvent.total e).

(** [xhr.onprogress] of the request for [type]. *)
Definition onprogress (type : string) (e : ProgressEvent.t) (s : state)
    : state :=
  if ProgressEvent.lengthComputable e then
    {| xhrs := xhrs s;
       xhrProgress := JS.put (xhrProgress s) type (percentComplete e);
       loaded := loaded s; aborted := aborted s; console := console s;
       all := all s; built := built s; _ready := _ready s |}
  else s.

(** What the browser reports on the request of a data type. *)
Inductive event :=
  | Load (type : string)
  | Progress (type : string) (e : ProgressEvent.t)
  | Failure (type : string) (e : Error).

Definition type_of (ev : event) : string :=
  match ev with
  | Load type | Progress type _ | Failure type _ => type
  end.

Definition handle (createLayers : completion unit) (s : state) (ev : event)
    : state :=
  match ev with
  | Load type => onload createLayers type s
  | Progress type e => onprogress type e s
  | Failure type e => onerror type e s
  end.

(** The state of a new [Model] after the given events, oldest first. *)
Definition run (createLayers : completion unit) (evs : list event) : state :=
  foldl (handle createLayers) _initialize evs.

(** The event is one a browser sends: it is about one of the three
    requests, and a progress event with a computable length has a total that
    is not zero and has not loaded more than that. *)
Definition wellformed (ev : event) : Prop :=
  type_of ev ∈ dataTypes
  ∧ match ev with
    | Progress _ e =>
        ProgressEvent.lengthComputable e = true →
        0 < ProgressEvent.total e
        ∧ ProgressEvent.loaded e ≤ ProgressEvent.total e
    | _ => True
    end.

End Xhr.

(** ** Descriptions and the graph under construction *)

Definition layerName (layerDef : Keras.layerDef) : string :=
  Keras.name (Keras.config layerDef).

Definition names_of (modelConfig : list Keras.layerDef) : list string :=
  layerName <$> modelConfig.









(** ** The order of the computations *)

(** Every entry of [layersWithResults] is a node that the traversal
    computes, and the nodes that feed it are input nodes or entries before
    it. *)
Definition log_ordered (m : Model) : Prop :=
  ∀ l1 n l2, layersWithResults m = l1 ++ n :: l2 →
    (∃ nd, JS.get (modelDAG m) n = Some nd
           ∧ (Node.layerClass nd = "Merge" ∨ Node.inbound nd ≠ []))
    ∧ ∀ k, k ∈ inbound_of m n → k ∈ l1 ∨ k ∈ JS.keys (inputTensors m).

(** ** What the layers do during a run *)

Section layer_calls.
Context `{Layers}.

(** The error is one that a layer of the model throws when it is called on
    some inputs. *)
Definition thrown (m : Model) (e : Error) : Prop :=
  ∃ n l xs, modelLayersMap m !! n = Some l ∧ xs ≠ []
    ∧ call (layerClass l) (name l) (weights l) xs = Throw e.

(** The layer of the node returns a tensor when it is called on some
    inputs. *)
Definition returned (m : Model) (n : string) : Prop :=
  ∃ l xs y, modelLayersMap m !! n = Some l ∧ xs ≠ []
    ∧ call (layerClass l) (name l) (weights l) xs = Ok y.

(** No layer of the model throws, whatever it is called on. *)
Definition layers_return (m : Model) : Prop :=
  ∀ n l xs, modelLayersMap m !! n = Some l → xs ≠ [] →
    ∃ y, call (layerClass l) (name l) (weights l) xs = Ok y.


(** How a call of the layer has ended: as its [call] ends on some
    inputs. *)
Definition call_outcome (l : Layer) (r : completion nat) : Prop :=
  ∃ xs, xs ≠ []
    ∧ match r with
      | Ok _ => ∃ y, call (layerClass l) (name l) (weights l) xs = Ok y
      | Throw e => call (layerClass l) (name l) (weights l) xs = Throw e
      end.

(** The layers of [m'] are those of [m], in another state. *)
Definition same_layers (m m' : Model) : Prop :=
  ∀ n, Layer_static <$> modelLayersMap m' !! n
       = Layer_static <$> modelLayersMap m !! n.

(** In the state [m] of a run on the model [m0], every reason of a
    rejection was thrown by a layer, and every layer that has a result has
    returned from a call. *)
Definition calls_sound (m0 m : Model) : Prop :=
  same_layers m0 m
  ∧ Forall (thrown m0) (rejections m)
  ∧ ∀ n, computed m n → returned m0 n.

(** The names are names of nodes. *)
Definition known (m : Model) (nodes : list string) : Prop :=
  ∀ n, n ∈ nodes → is_Some (JS.get (modelDAG m) n).

(** What holds of the states of a traversal of a valid DAG. *)
Definition traversal_ok (m0 m : Model) : Prop :=
  edges_ok m ∧ run_ok m ∧ results_logged m ∧ results_ok m
  ∧ calls_sound m0 m ∧ known m (concat (timers m)).

End layer_calls.

(** ** The tensors handed to a Merge layer *)

(** How the tensor [t] at the address [a] that a Merge layer is handed
    stands to the result [x], at the address [r], of the inbound layer [l]:
    a host result keeps its data and shape; a result from the pipeline is
    what the inbound layer's [transferFromPipeline] makes of it when the
    results are converted, and keeps its shape and its handle otherwise; and
    without a copy, a result that need not be transferred is handed over
    itself. *)
Definition handed `{Layers} (convert copyBeforeCall : bool) (l : Layer)
    (r : nat) (x : Tensor) (a : nat) (t : Tensor) : Prop :=
  (_fromPipeline x = false → data t = data x ∧ shape t = shape x)
  ∧ (convert = true → _fromPipeline x = true →
     t = transferFromPipeline (layerClass l) (name l) x)
  ∧ (convert = false →
     shape t = shape x ∧ _actualShape t = _actualShape x
     ∧ weblasTensor t = weblasTensor x)
  ∧ (copyBeforeCall = false → convert = false ∨ _fromPipeline x = false →
     a = r ∧ t = x).

(** * Properties *)

(** ** Objects and sorted key arrays *)

Section object_facts.
Context {V : Type}.
Implicit Types (o : JS.object V) (k : string) (v : V).

Lemma get_assign_eq o k v : JS.get (JS.assign o k v) k = Some v.
Proof.
  induction o as [|[k' v'] o IH]; simpl.
  - by rewrite decide_True.
  - destruct (decide (k' = k)) as [->|Hne]; simpl.
    + by rewrite decide_True.
    + by rewrite decide_False.
Qed.

Lemma get_assign_ne o k k' v :
  k ≠ k' → JS.get (JS.assign o k v) k' = JS.get o k'.
Proof.
  intros Hne. induction o as [|[k0 v0] o IH]; simpl.
  - by rewrite decide_False.
  - destruct (decide (k0 = k)) as [->|Hne0]; simpl.
    + by rewrite !decide_False.
    + destruct (decide (k0 = k')); auto.
Qed.

(** A new array index goes in front of the first key that is no smaller
    array index. *)
Lemma insert_index_split o k i v :
  ∃ o1 o2, o = o1 ++ o2 ∧ JS.insert_index o k i v = o1 ++ (k, v) :: o2.
Proof.
  induction o as [|[k' v'] o (o1 & o2 & Ho & IH)]; simpl.
  - by exists [], [].
  - destruct (JS.arrayIndex k') as [j|].
    + destruct (j <? i)%N.
      * exists ((k', v') :: o1), o2. simpl. by rewrite <-Ho, IH.
      * by exists [], ((k', v') :: o).
    + by exists [], ((k', v') :: o).
Qed.

Lemma get_app_None o1 o2 k :
  JS.get o1 k = None → JS.get (o1 ++ o2) k = JS.get o2 k.
Proof.
  induction o1 as [|[k' v'] o1 IH]; simpl; [done|].
  destruct (decide (k' = k)); [done|auto].
Qed.

Lemma get_app_ne o1 o2 k k' v :
  k ≠ k' → JS.get (o1 ++ (k, v) :: o2) k' = JS.get (o1 ++ o2) k'.
Proof.
  intros Hne. induction o1 as [|[k0 v0] o1 IH]; simpl.
  - by rewrite decide_False.
  - destruct (decide (k0 = k')); auto.
Qed.

Lemma get_app_None_l o1 o2 k :
  JS.get (o1 ++ o2) k = None → JS.get o1 k = None.
Proof.
  induction o1 as [|[k' v'] o1 IH]; simpl; [done|].
  destruct (decide (k' = k)); [done|auto].
Qed.

Lemma put_assign o k v :
  JS.arrayIndex k = None ∨ is_Some (JS.get o k) →
  JS.put o k v = JS.assign o k v.
Proof.
  unfold JS.put. intros [->|[v' ->]]; [done|]. by destruct (JS.arrayIndex k).
Qed.

(** A property that is created goes somewhere among the others. *)
Lemma put_new_split o k v :
  JS.get o k = None →
  ∃ o1 o2, o = o1 ++ o2 ∧ JS.put o k v = o1 ++ (k, v) :: o2.
Proof.
  intros Hget. unfold JS.put. rewrite Hget.
  destruct (JS.arrayIndex k) as [i|]; [apply insert_index_split|].
  exists o, []. rewrite app_nil_r. split; [done|].
  clear -Hget. induction o as [|[k' v'] o IH]; simpl in *; [done|].
  destruct (decide (k' = k)); [done|]. f_equal. auto.
Qed.

Lemma get_put_eq o k v : JS.get (JS.put o k v) k = Some v.
Proof.
  destruct (JS.get o k) as [v'|] eqn:Hget.
  - rewrite put_assign by eauto. apply get_assign_eq.
  - destruct (put_new_split o k v Hget) as (o1 & o2 & -> & ->).
    rewrite get_app_None by by eapply get_app_None_l.
    simpl. by rewrite decide_True.
Qed.

Lemma get_put_ne o k k' v : k ≠ k' → JS.get (JS.put o k v) k' = JS.get o k'.
Proof.
  intros Hne. destruct (JS.get o k) as [v'|] eqn:Hget.
  - rewrite put_assign by eauto. by apply get_assign_ne.
  - destruct (put_new_split o k v Hget) as (o1 & o2 & -> & ->).
    by apply get_app_ne.
Qed.

Lemma get_Some_elem_of o k v : JS.get o k = Some v → (k, v) ∈ o.
Proof.
  induction o as [|[k' v'] o IH]; simpl; [done|].
  destruct (decide (k' = k)) as [->|Hne].
  - intros [= ->]. left.
  - intros Hg. right. auto.
Qed.

Lemma get_is_Some o k : is_Some (JS.get o k) ↔ k ∈ JS.keys o.
Proof.
  unfold JS.keys. induction o as [|[k' v'] o IH]; simpl.
  - split; [by intros [? ?]|by intros ?%elem_of_nil].
  - destruct (decide (k' = k)) as [->|Hne].
    + split; [intros _; left|eauto].
    + rewrite IH, elem_of_cons. split; [auto|]. intros [?|?]; [congruence|done].
Qed.

Lemma get_None o k : JS.get o k = None ↔ k ∉ JS.keys o.
Proof. rewrite <-get_is_Some, eq_None_not_Some. done. Qed.

Lemma elem_of_get o k v :
  NoDup (JS.keys o) → (k, v) ∈ o → JS.get o k = Some v.
Proof.
  unfold JS.keys. induction o as [|[k' v'] o IH]; simpl.
  - by intros _ ?%elem_of_nil.
  - intros [Hk Hnd]%NoDup_cons [[= -> ->]|Hin]%elem_of_cons.
    + by rewrite decide_True.
    + rewrite decide_False; [auto|].
      intros ->. apply Hk. apply list_elem_of_fmap. by exists (k, v).
Qed.


Lemma put_new_Permutation o k v :
  k ∉ JS.keys o → JS.put o k v ≡ₚ (k, v) :: o.
Proof.
  intros Hk%get_None.
  destruct (put_new_split o k v Hk) as (o1 & o2 & -> & ->).
  by rewrite Permutation_middle.
Qed.

Lemma keys_put_old o k v : k ∈ JS.keys o → JS.keys (JS.put o k v) = JS.keys o.
Proof.
  intros Hk. rewrite put_assign by (right; by apply get_is_Some).
  revert Hk. unfold JS.keys. induction o as [|[k' v'] o IH]; simpl.
  - by intros ?%elem_of_nil.
  - destruct (decide (k' = k)) as [->|Hne]; simpl; [done|].
    intros [?|Hin]%elem_of_cons; [congruence|]. f_equal. auto.
Qed.

Lemma keys_put_Permutation o k v :
  k ∉ JS.keys o → JS.keys (JS.put o k v) ≡ₚ k :: JS.keys o.
Proof.
  intros Hk. unfold JS.keys. by rewrite (put_new_Permutation o k v Hk).
Qed.
Lemma elem_of_keys_put_iff o k v x :
  x ∈ JS.keys (JS.put o k v) ↔ x ∈ JS.keys o ∨ x = k.
Proof.
  rewrite <-!get_is_Some. destruct (decide (k = x)) as [->|Hne].
  - rewrite get_put_eq. split; [by right|eauto].
  - rewrite get_put_ne by done. split; [by left|]. by intros [?|?].
Qed.

Lemma elem_of_keys_put o k k' v :
  k' ∈ JS.keys o → k' ∈ JS.keys (JS.put o k v).
Proof. rewrite elem_of_keys_put_iff. by left. Qed.

Lemma NoDup_keys_put o k v :
  NoDup (JS.keys o) → NoDup (JS.keys (JS.put o k v)).
Proof.
  intros Hnd. destruct (decide (k ∈ JS.keys o)) as [Hk|Hk].
  - by rewrite keys_put_old.
  - rewrite keys_put_Permutation by done. by apply NoDup_cons.
Qed.


End object_facts.

(** Sorting two arrays gives equal arrays exactly when one is a rearrangement
    of the other. *)
Lemma sort_eq_iff (a b : list string) : JS.sort a = JS.sort b ↔ a ≡ₚ b.
Proof.
  unfold JS.sort. split.
  - intros Heq. rewrite <-(merge_sort_Permutation String.le a), Heq.
    apply merge_sort_Permutation.
  - intros Hp. apply (Sorted_unique String.le).
    + apply (Sorted_merge_sort _).
    + apply (Sorted_merge_sort _).
    + by rewrite !merge_sort_Permutation.
Qed.

Lemma sort_singleton (k : string) : JS.sort [k] = [k].
Proof. reflexivity. Qed.

(** ** Loading *)

Section loader_facts.
Import Loader.

Lemma interrupt_one_aborted s type x :
  x ∈ aborted s → x ∈ aborted (_interrupt_one s type).
Proof.
  unfold _interrupt_one. destruct (JS.get (xhrs s) type) as [[?|]|]; simpl;
    auto. intros ?. apply elem_of_app. auto.
Qed.

Lemma interrupt_one_null s type type' :
  JS.get (xhrs s) type' = Some None →
  JS.get (xhrs (_interrupt_one s type)) type' = Some None.
Proof.
  unfold _interrupt_one. intros Hnull.
  destruct (JS.get (xhrs s) type) as [[x|]|] eqn:Hget; simpl; auto.
  destruct (decide (type = type')) as [->|Hne].
  - apply get_put_eq.
  - by rewrite get_put_ne.
Qed.

Lemma interrupt_one_hit s type x :
  in_flight s type x →
  x ∈ aborted (_interrupt_one s type)
  ∧ JS.get (xhrs (_interrupt_one s type)) type = Some None.
Proof.
  unfold in_flight, _interrupt_one. intros ->. simpl. split.
  - apply elem_of_app. right. left.
  - apply get_put_eq.
Qed.

Lemma interrupt_one_other s type type' x :
  type ≠ type' → in_flight s type' x → in_flight (_interrupt_one s type) type' x.
Proof.
  unfold in_flight, _interrupt_one. intros Hne Hget.
  destruct (JS.get (xhrs s) type) as [[?|]|]; simpl; auto.
  by rewrite get_put_ne.
Qed.

Lemma interrupt_console s : console (_interrupt s) = console s.
Proof.
  unfold _interrupt. simpl. unfold _interrupt_one.
  repeat (match goal with
          | |- context [JS.get ?o ?k] => destruct (JS.get o k) as [[?|]|]
          end; simpl); reflexivity.
Qed.

Lemma interrupt_all s : all (_interrupt s) = all s.
Proof.
  unfold _interrupt. simpl. unfold _interrupt_one.
  repeat (match goal with
          | |- context [JS.get ?o ?k] => destruct (JS.get o k) as [[?|]|]
          end; simpl); reflexivity.
Qed.

(** [_interrupt] aborts the requests for the model and for the weights. *)
Lemma interrupt_aborts s type x :
  type ∈ ["model"; "weights"] → in_flight s type x →
  x ∈ aborted (_interrupt s) ∧ JS.get (xhrs (_interrupt s)) type = Some None.
Proof.
  intros Hty Hfl. unfold _interrupt. simpl.
  apply elem_of_cons in Hty as [->|Hty].
  - destruct (interrupt_one_hit _ _ _ Hfl) as [Ha Hn]. split.
    + by do 2 apply interrupt_one_aborted.
    + by do 2 apply interrupt_one_null.
  - apply list_elem_of_singleton in Hty as ->.
    apply (interrupt_one_other _ "model") in Hfl; [|done].
    destruct (interrupt_one_hit _ _ _ Hfl) as [Ha Hn]. split.
    + by apply interrupt_one_aborted.
    + by apply interrupt_one_null.
Qed.

(** C2, as the code has it: when the fetch of an artifact that has not
    arrived fails while the others are awaited, the error is logged, the
    requests for the model and for the weights that are in flight are aborted
    and forgotten, and the promise of [ready()] is fulfilled: it does not
    fail and does not carry the error. *)
Theorem load_failure_is_logged_and_swallowed (s : state) (type : string)
    (e : Error) :
  all s = Pending → type ∉ loaded s →
  let s' := onerror type e s in
  (ready s' = Fulfilled
   ∧ all s' = Rejected e
   ∧ e ∈ console s'
   ∧ ∀ type' x, type' ∈ ["model"; "weights"] → in_flight s type' x →
       x ∈ aborted s' ∧ JS.get (xhrs s') type' = Some None).
Proof.
  intros Hall Hnew. unfold onerror, ready. rewrite decide_False by done.
  rewrite Hall. unfold on_catch. simpl.
  split; [done|]. split; [by rewrite interrupt_all|]. split.
  - rewrite interrupt_console. simpl. apply elem_of_app. right. left.
  - intros type' x Hty Hfl. by apply interrupt_aborts.
Qed.

Lemma load_failure_is_logged_and_swallowed_witness :
  all _initialize = Pending
  ∧ ¬ ("weights" ∈ loaded _initialize)
  ∧ ready (onerror "weights" (ArtifactLoadError "weights") _initialize)
    = Fulfilled.
Proof.
  split; [reflexivity|]. split; [apply not_elem_of_nil|].
  apply (load_failure_is_logged_and_swallowed _initialize "weights"
           (ArtifactLoadError "weights")).
  - reflexivity.
  - apply not_elem_of_nil.
Defined.

(** C2 as stated fails: the model cannot be fetched while the two other
    requests are in flight; the request for the metadata is not aborted, and
    the promise of [ready()] is fulfilled instead of failing with the
    error. *)
Lemma load_failure_does_not_fail_ready :
  let e := ArtifactLoadError "model" in
  let s' := onerror "model" e _initialize in
  (in_flight _initialize "metadata" 2
   ∧ ¬ (2 ∈ aborted s')
   ∧ in_flight s' "metadata" 2
   ∧ ready s' = Fulfilled
   ∧ ready s' ≠ Rejected e).
Proof.
  simpl. unfold in_flight. repeat split; [|done].
  vm_compute. intros Hin. repeat (apply elem_of_cons in Hin as [Hin|Hin]; [done|]).
  by apply elem_of_nil in Hin.
Qed.

End loader_facts.

(** ** Weight binding *)

Section binder_facts.
Context {regexp : JS.RegExp}.

Lemma find_filter_head {A} (P : A → Prop) `{∀ x, Decision (P x)}
    (l : list A) :
  List.find (λ x, bool_decide (P x)) l = head (filter P l).
Proof.
  induction l as [|x l IH]; simpl; [done|].
  rewrite filter_cons. destruct (decide (P x)) as [Hp|Hp].
  - by rewrite (bool_decide_eq_true_2 _ Hp).
  - by rewrite (bool_decide_eq_false_2 _ Hp).
Qed.

(** [find] with a predicate that does not throw. *)
Lemma findM_Ok {A} (p : A → completion bool) (q : A → bool) (l : list A) :
  (∀ x, x ∈ l → p x = Ok (q x)) → JS.findM p l = Ok (List.find q l).
Proof.
  induction l as [|x l IH]; intros Hp; simpl; [done|].
  rewrite (Hp x) by left. destruct (q x); [done|].
  apply IH. intros y Hy. apply Hp. by right.
Qed.

Lemma view_ok raw off len :
  off mod 4 = 0 → off + 4 * len ≤ length raw →
  JS.Float32Array_view raw off len
  = Ok {| JS.buffer := raw; JS.byteOffset := off; JS.length := len |}.
Proof.
  intros Hal Hin. unfold JS.Float32Array_view.
  rewrite Hal. change (0 =? 0) with true. cbv [negb].
  by rewrite (proj2 (Nat.ltb_ge _ _) Hin).
Qed.

(** Binding when [^weightName] is a pattern: the first matching entry is
    looked up. *)
Lemma bindWeight_valid metadata raw layerName weightName :
  JS.RegExp_valid ("^" +:+ weightName) = true →
  bindWeight metadata raw layerName weightName
  = match head (matching metadata layerName weightName) with
    | None => Throw MissingWeightError
    | Some paramMetadata =>
        a ← JS.Float32Array_view raw (Meta.offset paramMetadata)
               (Meta.length paramMetadata);
        Ok (Tensor_new a (Meta.shape paramMetadata))
    end.
Proof.
  intros Hvalid. unfold bindWeight, matching.
  rewrite (findM_Ok _
    (λ meta, bool_decide (Meta.layer_name meta = layerName
                          ∧ JS.RegExp_test ("^" +:+ weightName)
                              (Meta.weight_name meta) = true))).
  - by rewrite find_filter_head.
  - intros meta _. unfold weight_matches. cbv zeta. rewrite Hvalid.
    f_equal. rewrite bool_decide_and. f_equal.
    by destruct (JS.RegExp_test _ _).
Qed.

(** Binding when [^weightName] is no pattern: making the expression throws
    for the first entry that is looked at. *)
Lemma bindWeight_invalid metadata raw layerName weightName :
  JS.RegExp_valid ("^" +:+ weightName) = false →
  bindWeight metadata raw layerName weightName
  = if decide (metadata = []) then Throw MissingWeightError
    else Throw SyntaxError.
Proof.
  intros Hvalid. unfold bindWeight.
  destruct metadata as [|meta metadata]; simpl; [done|].
  unfold weight_matches. cbv zeta. by rewrite Hvalid.
Qed.

(** For a name without a character that has a meaning in patterns, the
    entries that match are those whose weight name starts with the name. *)
Lemma matching_literal metadata layerName weightName :
  JS.literal weightName = true →
  matching metadata layerName weightName
  = filter (λ meta, Meta.layer_name meta = layerName
                    ∧ String.prefix weightName (Meta.weight_name meta)
                      = true) metadata.
Proof.
  intros Hlit. unfold matching. apply list_filter_iff. intros meta.
  by destruct (JS.RegExp_literal weightName (Meta.weight_name meta) Hlit)
    as [_ ->].
Qed.

(** A weight that was bound is the window that the first matching entry
    describes. *)
Lemma bindWeight_Ok metadata raw layerName weightName w :
  bindWeight metadata raw layerName weightName = Ok w →
  JS.RegExp_valid ("^" +:+ weightName) = true
  ∧ ∃ meta,
      head (matching metadata layerName weightName) = Some meta
      ∧ w = Tensor_new {| JS.buffer := raw;
                          JS.byteOffset := Meta.offset meta;
                          JS.length := Meta.length meta |} (Meta.shape meta)
      ∧ Meta.offset meta mod 4 = 0
      ∧ Meta.offset meta + 4 * Meta.length meta ≤ length raw.
Proof.
  destruct (JS.RegExp_valid ("^" +:+ weightName)) eqn:Hvalid.
  2:{ rewrite bindWeight_invalid by done. by case_decide. }
  rewrite bindWeight_valid by done. intros Hbind. split; [done|].
  destruct (head (matching metadata layerName weightName)) as [meta|];
    [|done].
  revert Hbind. unfold JS.Float32Array_view.
  destruct (Meta.offset meta mod 4 =? 0) eqn:Hal; cbn [negb];
    [|by intros [=]].
  destruct (length raw <? Meta.offset meta + 4 * Meta.length meta) eqn:Hin;
    [by intros [=]|].
  intros [= <-]. exists meta. split; [done|]. split; [done|].
  apply Nat.eqb_eq in Hal. apply Nat.ltb_ge in Hin. done.
Qed.

(** C3, as the code has it.  When [^weightName] is a pattern, binding a
    weight slot fails with MissingWeightError exactly when no metadata entry
    of the layer matches it; otherwise the first matching entry, in the
    order of the metadata, is taken, also when several match, and it yields a
    tensor of the entry's shape whose buffer is the window of [length]
    elements on the shared raw buffer that starts at byte [offset], provided
    the runtime accepts that window (the offset is a multiple of four and the
    window ends inside the buffer).  For a name without a character that has
    a meaning in patterns, [^weightName] is a pattern and the matching
    entries are those whose weight name starts with the name.  When
    [^weightName] is no pattern and there is metadata, binding fails with a
    SyntaxError. *)
Theorem bindWeight_takes_first_match (metadata : list Meta.entry)
    (raw : JS.ArrayBuffer) (layerName weightName : string) :
  (JS.RegExp_valid ("^" +:+ weightName) = true →
   (bindWeight metadata raw layerName weightName = Throw MissingWeightError
    ↔ length (matching metadata layerName weightName) = 0)
   ∧ ∀ meta,
       head (matching metadata layerName weightName) = Some meta →
       Meta.offset meta mod 4 = 0 →
       Meta.offset meta + 4 * Meta.length meta ≤ length raw →
       ∃ t, bindWeight metadata raw layerName weightName = Ok t
            ∧ data t = {| JS.buffer := raw;
                          JS.byteOffset := Meta.offset meta;
                          JS.length := Meta.length meta |}
            ∧ shape t = Meta.shape meta
            ∧ JS.bytes (data t)
              = take (4 * Meta.length meta) (drop (Meta.offset meta) raw))
  ∧ (JS.literal weightName = true →
     JS.RegExp_valid ("^" +:+ weightName) = true
     ∧ matching metadata layerName weightName
       = filter (λ meta, Meta.layer_name meta = layerName
                         ∧ String.prefix weightName (Meta.weight_name meta)
                           = true) metadata)
  ∧ (JS.RegExp_valid ("^" +:+ weightName) = false → metadata ≠ [] →
     bindWeight metadata raw layerName weightName = Throw SyntaxError).
Proof.
  split_and!.
  - intros Hvalid. rewrite bindWeight_valid by done.
    destruct (matching metadata layerName weightName) as [|meta0 rest];
      simpl.
    + split; [done|]. by intros meta [=].
    + split.
      * split; [|done]. unfold JS.Float32Array_view.
        repeat case_match; simpl; done.
      * intros meta [= ->] Hal Hin. rewrite view_ok by done. simpl.
        eexists. split; [done|]. done.
  - intros Hlit. split; [|by apply matching_literal].
    by destruct (JS.RegExp_literal weightName "" Hlit).
  - intros Hvalid Hne. rewrite bindWeight_invalid by done.
    by rewrite decide_False.
Qed.

End binder_facts.

Lemma bindWeight_takes_first_match_witness :
  let meta := {| Meta.layer_name := "dense_1"; Meta.weight_name := "dense_1_W";
                 Meta.offset := 4; Meta.length := 1; Meta.shape := [1] |} in
  JS.literal "dense_1_W" = true
  ∧ ∃ t, bindWeight (regexp := Example.regexp) [meta]
           (JS.buffer Example.twoFloats) "dense_1" "dense_1_W" = Ok t
         ∧ JS.bytes (data t) = [Byte.x00; Byte.x00; Byte.x00; Byte.x40].
Proof.
  intros meta. split; [reflexivity|].
  destruct (bindWeight_takes_first_match (regexp := Example.regexp) [meta]
              (JS.buffer Example.twoFloats) "dense_1" "dense_1_W")
    as (Hfirst & Hlit & _).
  destruct (Hlit eq_refl) as [Hvalid Hmatching].
  destruct (Hfirst Hvalid) as [_ Hbind].
  destruct (Hbind meta) as (t & Ht & _ & _ & Hbytes);
    [by rewrite Hmatching|reflexivity|simpl; lia|].
  exists t. split; [exact Ht|exact Hbytes].
Defined.

(** C3 as stated fails: two entries of the layer match the slot
    [dense_1_W], and binding does not fail; it takes the first. *)
Lemma bindWeight_ambiguous_succeeds :
  let first := {| Meta.layer_name := "dense_1"; Meta.weight_name := "dense_1_W";
                  Meta.offset := 0; Meta.length := 1; Meta.shape := [1] |} in
  let second := {| Meta.layer_name := "dense_1";
                   Meta.weight_name := "dense_1_W_copy";
                   Meta.offset := 4; Meta.length := 1; Meta.shape := [1] |} in
  let raw := JS.buffer Example.twoFloats in
  (JS.literal "dense_1_W" = true
   ∧ length (matching (regexp := Example.regexp) [first; second]
               "dense_1" "dense_1_W") = 2
   ∧ bindWeight (regexp := Example.regexp) [first; second] raw
       "dense_1" "dense_1_W"
     = Ok (Tensor_new {| JS.buffer := raw; JS.byteOffset := 0;
                         JS.length := 1 |} [1])
   ∧ bindWeight (regexp := Example.regexp) [first; second] raw
       "dense_1" "dense_1_W"
     ≠ Throw MissingWeightError).
Proof.
  simpl. split; [reflexivity|]. split; [reflexivity|].
  split; [reflexivity|discriminate].
Qed.

(** ** Calling a layer: what changes in the state *)

Lemma extend_nil m : extend [] [] m = m.
Proof. destruct m. unfold extend. simpl. by rewrite !app_nil_r. Qed.

Lemma extend_extend h1 c1 h2 c2 m :
  extend h2 c2 (extend h1 c1 m) = extend (h1 ++ h2) (c1 ++ c2) m.
Proof. unfold extend. simpl. by rewrite !app_assoc. Qed.

Lemma alloc_extend t m : alloc t m = (length (heap m), extend [t] [] m).
Proof. unfold alloc, extend. destruct m. simpl. by rewrite app_nil_r. Qed.

Section call_facts.
Context `{Layers}.

Lemma invoke_frame currentLayer inputs m :
  ∃ h c, (invoke currentLayer inputs m).1 = extend h c m
    ∧ match (invoke currentLayer inputs m).2 with
      | Ok r => c = [name currentLayer] ∧ r < length (heap m ++ h)
      | Throw _ => True
      end.
Proof.
  unfold invoke. destruct (mapM _ inputs) as [xs|]; simpl.
  - destruct (call _ _ _ xs) as [y|e]; simpl.
    + exists [y], [name currentLayer]. split; [done|]. split; [done|].
      rewrite length_app. simpl. lia.
    + exists [], [name currentLayer]. split; [|done].
      unfold extend. simpl. destruct m; simpl. by rewrite app_nil_r.
  - exists [], []. by rewrite extend_nil.
Qed.

Lemma regularLayerInput_frame currentLayer inboundLayer copy r x m :
  r < length (heap m) →
  ∃ h, (regularLayerInput currentLayer inboundLayer copy r x m).2
       = extend h [] m
     ∧ (regularLayerInput currentLayer inboundLayer copy r x m).1
       < length (heap m ++ h).
Proof.
  intros Hr. unfold regularLayerInput.
  repeat case_match; rewrite ?alloc_extend; simpl;
    try (eexists [_]; split; [done|rewrite length_app; simpl; lia]);
    (exists []; rewrite extend_nil, app_nil_r; done).
Qed.

Lemma regularLayerCall_frame currentLayer inboundLayer copy m :
  ∃ h c, (_regularLayerCall currentLayer inboundLayer copy m).1
         = extend h c m
    ∧ match (_regularLayerCall currentLayer inboundLayer copy m).2 with
      | Ok r => c = [name currentLayer] ∧ r < length (heap m ++ h)
      | Throw _ => True
      end.
Proof.
  unfold _regularLayerCall.
  destruct inboundLayer as [inboundLayer|];
    [|exists [], []; by rewrite extend_nil].
  destruct (result inboundLayer) as [r|];
    [|exists [], []; by rewrite extend_nil].
  destruct (heap m !! r) as [x|] eqn:Hx;
    [|exists [], []; by rewrite extend_nil].
  apply lookup_lt_Some in Hx.
  destruct (regularLayerInput_frame currentLayer inboundLayer copy r x m Hx)
    as (h1 & Hm1 & Ha).
  destruct (regularLayerInput _ _ _ _ _ _) as [a m1]. simpl in *. subst m1.
  destruct (invoke_frame currentLayer [a] (extend h1 [] m))
    as (h2 & c & Hm2 & Hr).
  exists (h1 ++ h2), c. rewrite Hm2, extend_extend. split; [done|].
  destruct (invoke _ _ _).2; [|done].
  destruct Hr as [-> Hr]. split; [done|].
  unfold extend in Hr. simpl in Hr. by rewrite app_assoc.
Qed.

Lemma mergeLayerInput_frame convert copy inputs acc m0 :
  ∃ h, (foldl (mergeLayerInput convert copy) (acc, m0) inputs).2
       = extend h [] m0.
Proof.
  revert acc m0. induction inputs as [|[l [r x]] inputs IH]; intros acc m0.
  - exists []. simpl. by rewrite extend_nil.
  - simpl.
    assert (∃ h1 a, (if convert
                     then if _fromPipeline x
                          then alloc (transferFromPipeline (layerClass l)
                                        (name l) x) m0
                          else if copy
                               then alloc (Tensor_new (data x) (shape x)) m0
                               else (r, m0)
                     else if copy then alloc (Tensor_weblas_copy x) m0
                          else (r, m0)) = (a, extend h1 [] m0))
      as (h1 & a & ->).
    { repeat case_match; rewrite ?alloc_extend; eauto;
        exists [], r; by rewrite extend_nil. }
    destruct (IH (acc ++ [a]) (extend h1 [] m0)) as (h2 & ->).
    exists (h1 ++ h2). by rewrite extend_extend.
Qed.

Lemma mergeLayerCall_frame currentLayer inboundLayers copy m :
  ∃ h c, (_mergeLayerCall currentLayer inboundLayers copy m).1
         = extend h c m
    ∧ match (_mergeLayerCall currentLayer inboundLayers copy m).2 with
      | Ok r => c = [name currentLayer] ∧ r < length (heap m ++ h)
      | Throw _ => True
      end.
Proof.
  unfold _mergeLayerCall.
  destruct (mapM _ inboundLayers) as [inputs|];
    [|exists [], []; by rewrite extend_nil].
  match goal with
  | |- context [foldl (mergeLayerInput ?cv copy) ([], m) ?z] =>
      destruct (mergeLayerInput_frame cv copy z [] m) as (h1 & Hm1);
      destruct (foldl (mergeLayerInput cv copy) ([], m) z) as [inputs' m1]
  end.
  simpl in Hm1. subst m1.
  destruct (invoke_frame currentLayer inputs' (extend h1 [] m))
    as (h2 & c & Hm2 & Hr).
  exists (h1 ++ h2), c. rewrite Hm2, extend_extend. split; [done|].
  destruct (invoke _ _ _).2; [|done].
  destruct Hr as [-> Hr]. split; [done|].
  unfold extend in Hr. simpl in Hr. by rewrite app_assoc.
Qed.

Local Ltac throw_case m :=
  replace (reject TypeError m) with (reject TypeError (extend [] [] m))
    by (by rewrite extend_nil);
  constructor.

Lemma computeNode_cases node nd m :
  computeNode_spec node nd m (computeNode node nd m).
Proof.
  unfold computeNode.
  destruct (modelLayersMap m !! node) as [currentLayer|] eqn:Hcur;
    [|throw_case m].
  destruct (visited currentLayer) eqn:Hvis;
    [by eapply computeNode_visited|].
  destruct (mapM _ (Node.inbound nd)) as [inboundLayers|] eqn:Hin;
    [|throw_case m].
  destruct (JS.every inboundLayers hasResult) eqn:Hall; simpl.
  2:{ eapply computeNode_waiting; [done|]. intros HF.
      unfold JS.every in Hall. apply not_true_iff_false in Hall.
      apply Hall, Is_true_true, forallb_True.
      eapply Forall_impl; [exact HF|]. intros l Hl. by apply Is_true_true. }
  destruct (copyBeforeCall_of _ _) as [copy|];
    [|throw_case m].
  assert (∃ h c, (if decide (Node.layerClass nd = "Merge")
                  then _mergeLayerCall currentLayer inboundLayers copy m
                  else _regularLayerCall currentLayer (head inboundLayers)
                         copy m).1 = extend h c m
            ∧ match (if decide (Node.layerClass nd = "Merge")
                     then _mergeLayerCall currentLayer inboundLayers copy m
                     else _regularLayerCall currentLayer
                            (head inboundLayers) copy m).2 with
              | Ok r => c = [name currentLayer] ∧ r < length (heap m ++ h)
              | Throw _ => True
              end) as (h & c & Hm1 & Hr).
  { destruct (decide _);
      [apply mergeLayerCall_frame|apply regularLayerCall_frame]. }
  destruct (if decide (Node.layerClass nd = "Merge") then _ else _)
    as [m1 [a|e]]; simpl in *; subst m1.
  - destruct Hr as [-> Ha].
    assert (Forall (λ l, hasResult l = true) inboundLayers) as HF.
    { unfold JS.every in Hall. apply Is_true_true, forallb_True in Hall.
      eapply Forall_impl; [exact Hall|]. intros l Hl. by apply Is_true_true. }
    exact (computeNode_done node nd m currentLayer inboundLayers a h
             Hcur Hvis Hin HF Ha).
  - constructor.
Qed.

End call_facts.

(** ** The scheduler: what every step preserves *)

Lemma foldl_mbind_None {A B} (f : B → A → option A) (l : list B) :
  foldl (λ acc b, acc ≫= f b) None l = None.
Proof. by induction l. Qed.

Lemma foldl_mbind_inv {A B} (f : B → A → option A) (R : relation A)
    `{!Reflexive R, !Transitive R} (l : list B) (a a' : A) :
  (∀ b x y, f b x = Some y → R x y) →
  foldl (λ acc b, acc ≫= f b) (Some a) l = Some a' → R a a'.
Proof.
  intros Hf. revert a. induction l as [|b l IH]; intros a; simpl.
  - by intros [= ->].
  - destruct (f b a) as [a1|] eqn:Hb; simpl.
    + intros Hl. etrans; [by eapply Hf|by apply IH].
    + by rewrite foldl_mbind_None.
Qed.

Global Instance same_graph_refl : Reflexive same_graph.
Proof. intros m. by constructor. Qed.
Global Instance same_graph_trans : Transitive same_graph.
Proof.
  intros m1 m2 m3 [] []. constructor; try congruence; by etrans.
Qed.

Global Instance flags_grow_refl : Reflexive flags_grow.
Proof. intros m n l Hl. by exists l. Qed.
Global Instance flags_grow_trans : Transitive flags_grow.
Proof.
  intros m1 m2 m3 H12 H23 n l Hl.
  destruct (H12 n l Hl) as (l2 & Hl2 & ? & ?).
  destruct (H23 n l2 Hl2) as (l3 & Hl3 & ? & ?).
  exists l3. auto.
Qed.

Lemma computed_grow m m' n : flags_grow m m' → computed m n → computed m' n.
Proof.
  unfold computed. intros Hg Hc.
  destruct (modelLayersMap m !! n) as [l|] eqn:Hl; [|done].
  destruct (Hg n l Hl) as (l' & -> & Hh & _). simpl in *.
  f_equal. apply Hh. by injection Hc.
Qed.

Section scheduler_facts.
Context `{Layers}.
Implicit Types (m : Model) (inputData : JS.object JS.value).

(** How [loadInput] ends: it throws, possibly after replacing the data of
    the input tensor, or it sets the result and the flags of the input
    layer. *)
Lemma loadInput_cases inputData inputName m :
  ∃ hp, length (heap m) ≤ length hp
    ∧ ((loadInput inputData inputName m).1 = set_heap hp m
       ∨ ∃ inputLayer r,
           modelLayersMap m !! inputName = Some inputLayer
           ∧ inputName ∈ JS.keys (inputTensors m)
           ∧ r < length hp
           ∧ (loadInput inputData inputName m).1
             = set_modelLayersMap
                 (<[inputName := Layer_done r inputLayer]>
                    (modelLayersMap m)) (set_heap hp m)).
Proof.
  unfold loadInput.
  destruct (JS.get (inputTensors m) inputName) as [a0|] eqn:Ha0; simpl;
    [|exists (heap m); split; [done|left; by destruct m]].
  assert (inputName ∈ JS.keys (inputTensors m)) as Hkey
    by (apply get_is_Some; eauto).
  destruct ((a0,.) <$> heap m !! a0) as [[a t]|];
    [|exists (heap m); split; [done|left; by destruct m]].
  destruct (JS.get inputData inputName) as [[d| |]|];
    try (exists (heap m); split; [done|left; by destruct m]).
  destruct (modelLayersMap m !! inputName) as [inputLayer|];
    [|eexists; split; [|left; done]; by rewrite length_insert].
  destruct (call _ _ _ _) as [y|e];
    [|eexists; split; [|left; done]; by rewrite length_insert].
  simpl. eexists. split; [|right; exists inputLayer; eexists;
    split; [done|split; [done|split; [|done]]]].
  - rewrite length_app, length_insert. lia.
  - rewrite length_app, length_insert. simpl. lia.
Qed.

Lemma step_same_graph inputData m m' :
  sched_step inputData m m' → same_graph m m'.
Proof.
  intros Hstep. destruct Hstep as [inputName m|node nd m Hnd| | |].
  - destruct (loadInput_cases inputData inputName m)
      as (hp & Hlen & [->|(l & r & Hl & Hkey & Hr & ->)]);
      constructor; simpl; try done.
    + intros n. destruct (decide (inputName = n)) as [->|Hne].
      * by rewrite lookup_insert_eq, Hl.
      * by rewrite lookup_insert_ne.
    + intros n. destruct (decide (inputName = n)) as [->|Hne].
      * by rewrite lookup_insert_eq, Hl.
      * by rewrite lookup_insert_ne.
    + by apply map_size_insert_Some.
  - destruct (computeNode_cases node nd m) as [| |e h c|cur ins a h Hcur];
      simpl; [done|done| |].
    + constructor; simpl; try done.
      * rewrite length_app. lia.
      * by apply prefix_app_r.
    + constructor; simpl; try done.
      * intros n. destruct (decide (node = n)) as [->|Hne].
        -- by rewrite lookup_insert_eq, Hcur.
        -- by rewrite lookup_insert_ne.
      * intros n. destruct (decide (node = n)) as [->|Hne].
        -- by rewrite lookup_insert_eq, Hcur.
        -- by rewrite lookup_insert_ne.
      * by apply map_size_insert_Some.
      * rewrite length_app. lia.
      * rewrite length_app. lia.
  - by constructor.
  - by constructor.
  - constructor; simpl; try done. by apply prefix_app_r.
Qed.

Lemma step_flags_grow inputData m m' :
  sched_step inputData m m' → flags_grow m m'.
Proof.
  intros Hstep. destruct Hstep as [inputName m|node nd m Hnd| | |];
    try (intros n l0 Hl0; by exists l0).
  - destruct (loadInput_cases inputData inputName m)
      as (hp & Hlen & [->|(l & r & Hl & Hkey & Hr & ->)]);
      [intros n l0 Hl0; by exists l0|].
    intros n l0 Hl0. simpl.
    destruct (decide (inputName = n)) as [->|Hne].
    + rewrite lookup_insert_eq. eexists. split; [done|]. done.
    + rewrite lookup_insert_ne by done. by exists l0.
  - destruct (computeNode_cases node nd m) as [| |e h c|cur ins a h Hcur];
      simpl; [done|done|intros n l0 Hl0; by exists l0|].
    intros n l0 Hl0. simpl.
    destruct (decide (node = n)) as [->|Hne].
    + rewrite lookup_insert_eq. eexists. split; [done|]. done.
    + rewrite lookup_insert_ne by done. by exists l0.
Qed.

Lemma step_run_ok inputData m m' :
  sched_step inputData m m' → run_ok m → run_ok m'.
Proof.
  intros Hstep (Hflags & Hnames & Hnd & Hlog & Hcalls).
  destruct Hstep as [inputName m|node nd m Hnd'| | |];
    try (by repeat split).
  - destruct (loadInput_cases inputData inputName m)
      as (hp & Hlen & [->|(l & r & Hl & Hkey & Hr & ->)]);
      [by repeat split|].
    repeat split; simpl; try done.
    + intros n l0; simpl. destruct (decide (inputName = n)) as [->|Hne].
      * rewrite lookup_insert_eq. by intros [= <-].
      * rewrite lookup_insert_ne by done. apply Hflags.
    + intros n l0; simpl. destruct (decide (inputName = n)) as [->|Hne].
      * rewrite lookup_insert_eq. intros [= <-]. simpl. by apply Hnames.
      * rewrite lookup_insert_ne by done. apply Hnames.
    + intros n Hn. unfold computed. simpl.
      destruct (decide (inputName = n)) as [->|Hne].
      * by rewrite lookup_insert_eq.
      * rewrite lookup_insert_ne by done. by apply Hlog.
  - destruct (computeNode_cases node nd m)
      as [| |e h c|cur ins a h Hcur Hvis _ _ _]; simpl.
    + by repeat split.
    + by repeat split.
    + repeat split; simpl; try done.
      intros Hnil. by apply app_nil in Hnil as [_ [=]].
    + assert (name cur = node) as Hname by by apply Hnames.
      rewrite Hname. repeat split; simpl.
      * intros n l0; simpl. destruct (decide (node = n)) as [->|Hne].
        -- rewrite lookup_insert_eq. by intros [= <-].
        -- rewrite lookup_insert_ne by done. apply Hflags.
      * intros n l0; simpl. destruct (decide (node = n)) as [->|Hne].
        -- rewrite lookup_insert_eq. by intros [= <-].
        -- rewrite lookup_insert_ne by done. apply Hnames.
      * apply NoDup_app. split; [done|]. split; [|apply NoDup_singleton].
        intros n Hn ->%list_elem_of_singleton.
        apply Hlog in Hn. unfold computed in Hn. rewrite Hcur in Hn.
        simpl in Hn. injection Hn as Hn.
        rewrite (Hflags _ _ Hcur) in Hn. congruence.
      * intros n [Hn| ->%list_elem_of_singleton]%elem_of_app;
          unfold computed; simpl.
        -- destruct (decide (node = n)) as [->|Hne].
           ++ by rewrite lookup_insert_eq.
           ++ rewrite lookup_insert_ne by done. by apply Hlog.
        -- by rewrite lookup_insert_eq.
      * intros Hrej. by rewrite Hcalls.
  - repeat split; simpl; try done.
    intros Hnil. by apply app_nil in Hnil as [_ [=]].
Qed.

(** Every run of [_traverseDAG] and of the event loop is a sequence of
    steps. *)
Lemma traverseDAG_steps inputData fuel nodes m m' :
  _traverseDAG fuel nodes m = Some m' → rtc (sched_step inputData) m m'.
Proof.
  revert nodes m m'. induction fuel as [|fuel IH]; intros nodes m m';
    [done|].
  destruct nodes as [|node [|node' nodes]].
  - simpl. by intros [= ->].
  - simpl. destruct (JS.get (modelDAG m) node) as [nd|] eqn:Hnd.
    + destruct (decide _).
      * pose proof (step_node inputData node nd m Hnd) as Hstep.
        destruct (computeNode node nd m) as [m1 go]. simpl in Hstep.
        destruct go.
        -- destruct (layerCallPauses m1).
           ++ intros [= <-]. eapply rtc_l; [exact Hstep|].
              apply rtc_once. constructor.
           ++ intros Hrec. eapply rtc_l; [exact Hstep|]. by eapply IH.
        -- intros [= <-]. by apply rtc_once.
      * apply IH.
    + intros [= <-]. apply rtc_once. constructor.
  - intros Hfold.
    eapply (foldl_mbind_inv (λ node, _traverseDAG fuel [node])
              (rtc (sched_step inputData))); [|exact Hfold].
    intros b x y. apply IH.
Qed.

Lemma runTimers_steps inputData fuel steps m m' :
  runTimers fuel steps m = Some m' → rtc (sched_step inputData) m m'.
Proof.
  revert m. induction steps as [|steps IH]; intros m; simpl.
  - destruct (timers m); [by intros [= ->]|done].
  - destruct (timers m) as [|outbound rest] eqn:Ht; [by intros [= ->]|].
    destruct (_traverseDAG fuel outbound _) as [m1|] eqn:Htr; [|done].
    simpl. intros Hrun.
    eapply rtc_l; [by apply (step_resume _ outbound rest)|].
    etrans; [by eapply traverseDAG_steps|by apply IH].
Qed.

Lemma loadInputs_steps inputData inputNames m :
  rtc (sched_step inputData) m (loadInputs inputData inputNames m).1.
Proof.
  revert m. induction inputNames as [|inputName rest IH]; intros m; simpl;
    [done|].
  pose proof (step_load inputData inputName m) as Hstep.
  destruct (loadInput inputData inputName m) as [m1 [[]|e]]; simpl in *.
  - eapply rtc_l; [exact Hstep|apply IH].
  - by apply rtc_once.
Qed.

(** What holds along a run. *)
Lemma steps_same_graph inputData m m' :
  rtc (sched_step inputData) m m' → same_graph m m'.
Proof.
  induction 1 as [|m1 m2 m3 Hstep _ IH]; [done|].
  etrans; [by eapply step_same_graph|done].
Qed.

Lemma steps_flags_grow inputData m m' :
  rtc (sched_step inputData) m m' → flags_grow m m'.
Proof.
  induction 1 as [|m1 m2 m3 Hstep _ IH]; [done|].
  etrans; [by eapply step_flags_grow|done].
Qed.

Lemma steps_run_ok inputData m m' :
  rtc (sched_step inputData) m m' → run_ok m → run_ok m'.
Proof.
  induction 1 as [|m1 m2 m3 Hstep _ IH]; [done|].
  intros Hok. apply IH. by eapply step_run_ok.
Qed.

End scheduler_facts.

(** ** Valid graphs *)

Lemma inbound_of_eq m m' n :
  modelDAG m' = modelDAG m → inbound_of m' n = inbound_of m n.
Proof. unfold inbound_of. by intros ->. Qed.

Lemma outbound_of_eq m m' n :
  modelDAG m' = modelDAG m → outbound_of m' n = outbound_of m n.
Proof. unfold outbound_of. by intros ->. Qed.

Lemma inbound_of_get m n nd :
  JS.get (modelDAG m) n = Some nd → inbound_of m n = Node.inbound nd.
Proof. unfold inbound_of. by intros ->. Qed.

Lemma outbound_of_get m n nd :
  JS.get (modelDAG m) n = Some nd → outbound_of m n = Node.outbound nd.
Proof. unfold outbound_of. by intros ->. Qed.

Lemma elem_of_inbound_of m n k :
  k ∈ inbound_of m n →
  ∃ nd, JS.get (modelDAG m) n = Some nd ∧ k ∈ Node.inbound nd.
Proof.
  unfold inbound_of. destruct (JS.get (modelDAG m) n) as [nd|]; simpl.
  - eauto.
  - by intros ?%elem_of_nil.
Qed.

Lemma elem_of_outbound_of m n k :
  k ∈ outbound_of m n →
  ∃ nd, JS.get (modelDAG m) n = Some nd ∧ k ∈ Node.outbound nd.
Proof.
  unfold outbound_of. destruct (JS.get (modelDAG m) n) as [nd|]; simpl.
  - eauto.
  - by intros ?%elem_of_nil.
Qed.

Lemma dag_ok_elem m seen dag n nd :
  dag_ok m seen dag → (n, nd) ∈ dag → ∃ seen', node_ok m seen' n nd.
Proof.
  revert seen. induction dag as [|[n0 nd0] dag IH]; intros seen; simpl.
  - by intros _ ?%elem_of_nil.
  - intros [Hok Hrest] [[= -> ->]|Hin]%elem_of_cons; eauto.
Qed.

Lemma valid_dag_node m n nd :
  valid_dag m → JS.get (modelDAG m) n = Some nd → ∃ seen, node_ok m seen n nd.
Proof.
  intros (_ & Hok & _) Hget. eapply dag_ok_elem; [exact Hok|].
  by apply get_Some_elem_of.
Qed.

Lemma valid_dag_edges m : valid_dag m → edges_ok m.
Proof.
  intros Hvalid n nd Hget.
  destruct (valid_dag_node m n nd Hvalid Hget)
    as (seen & _ & Hlayer & _ & Hin & Hinb & Hout).
  split; [done|]. split.
  { destruct (modelLayersMap m !! n); [done|discriminate]. }
  split.
  - intros k Hk. rewrite Forall_forall in Hinb.
    destruct (Hinb k Hk) as [_ Hnk]. split; [done|].
    apply elem_of_outbound_of in Hnk as (kd & Hkd & _).
    destruct (valid_dag_node m k kd Hvalid Hkd) as (_ & _ & Hl & _).
    destruct (modelLayersMap m !! k); [done|discriminate].
  - intros k Hk. rewrite Forall_forall in Hout. by apply Hout.
Qed.

Lemma edges_ok_same_graph m m' : same_graph m m' → edges_ok m → edges_ok m'.
Proof.
  intros [Hdag _ _ _ _ Hnames _ _ _ _ _] Hok n nd Hget.
  rewrite Hdag in Hget. destruct (Hok n nd Hget) as (Hin & Hl & Hinb & Hout).
  assert (∀ k, is_Some (modelLayersMap m !! k) →
               is_Some (modelLayersMap m' !! k)) as Hsome.
  { intros k [l Hk]. specialize (Hnames k). rewrite Hk in Hnames.
    destruct (modelLayersMap m' !! k); [done|discriminate]. }
  split; [done|]. split; [auto|]. split.
  - intros k Hk. destruct (Hinb k Hk). rewrite (outbound_of_eq m m') by done.
    auto.
  - intros k Hk. rewrite (inbound_of_eq m m') by done. auto.
Qed.

(** A node that is fed by some node is not an input node. *)
Lemma fed_not_input m k n nd :
  edges_ok m → n ∈ outbound_of m k → JS.get (modelDAG m) n = Some nd →
  Node.layerClass nd ≠ "InputLayer".
Proof.
  intros Hok Hn Hget Hcls.
  apply elem_of_outbound_of in Hn as (kd & Hkd & Hn).
  destruct (Hok k kd Hkd) as (_ & _ & _ & Hout).
  apply Hout in Hn. rewrite (inbound_of_get m n nd Hget) in Hn.
  destruct (Hok n nd Hget) as (Hin & _). apply Hin in Hcls.
  rewrite Hcls in Hn. by apply elem_of_nil in Hn.
Qed.

(** ** The scheduler leaves no node behind *)

Section closure_facts.
Context `{Layers}.

Lemma computed_insert m m1 node cur a x :
  modelLayersMap m !! node = Some cur →
  modelLayersMap m1 = <[node := Layer_done a cur]> (modelLayersMap m) →
  computed m1 x ↔ x = node ∨ computed m x.
Proof.
  intros Hcur Hm1. unfold computed. rewrite Hm1.
  destruct (decide (node = x)) as [->|Hne].
  - rewrite lookup_insert_eq. simpl. split; auto.
  - rewrite lookup_insert_ne by done. split; [auto|].
    intros [->|?]; done.
Qed.

(** A computable node that was visited and found computed or waiting need
    not be visited by this call. *)
Lemma closed_drop m node pend :
  ¬ is_input m node →
  computed m node ∨ blocked m node →
  closed m (node :: pend) → closed m pend.
Proof.
  intros Hnot Hnode Hcl k n Hk Hn.
  destruct (Hcl k n Hk Hn) as [?|[?|[Hin|[?|[Hin ?]]]]].
  - auto.
  - auto.
  - apply elem_of_cons in Hin as [->|?]; auto.
    destruct Hnode; auto.
  - auto 6.
  - apply elem_of_cons in Hin as [->|?]; [done|]. auto 6.
Qed.

(** The node is computed and its outbound nodes are to be visited:
    by this call or by the branch parked for them. *)
Lemma closed_done m m1 node cur a pend pend' :
  edges_ok m → ¬ is_input m node →
  modelLayersMap m !! node = Some cur →
  modelLayersMap m1 = <[node := Layer_done a cur]> (modelLayersMap m) →
  modelDAG m1 = modelDAG m →
  (∀ x, x ∈ pend → x ∈ pend') →
  (∀ x, x ∈ concat (timers m) → x ∈ concat (timers m1)) →
  (∀ x, x ∈ outbound_of m node → x ∈ pend' ∨ x ∈ concat (timers m1)) →
  closed m (node :: pend) → closed m1 pend'.
Proof.
  intros Hok Hnot Hcur Hm1 Hdag Hpend Htimers Hout Hcl k n Hk Hn.
  rewrite (outbound_of_eq m m1) in Hn by done.
  apply (computed_insert m m1 node cur a k Hcur Hm1) in Hk.
  rewrite (computed_insert m m1 node cur a n Hcur Hm1).
  destruct Hk as [->|Hk].
  { destruct (Hout n Hn); auto. }
  destruct (Hcl k n Hk Hn)
    as [Hc|[(j & Hj & Hnj)|[Hin|[Ht|[Hin Hinp]]]]].
  - auto.
  - destruct (decide (j = node)) as [->|Hne].
    + apply elem_of_inbound_of in Hj as (nd' & Hnd' & Hj).
      destruct (Hok n nd' Hnd') as (_ & _ & Hinb & _).
      destruct (Hinb node Hj) as [Hnode _]. destruct (Hout n Hnode); auto.
    + right. left. exists j. rewrite (inbound_of_eq m m1) by done.
      split; [done|].
      rewrite (computed_insert m m1 node cur a j Hcur Hm1).
      intros [?|?]; done.
  - apply elem_of_cons in Hin as [->|?]; auto.
  - auto 6.
  - apply elem_of_cons in Hin as [->|?]; [done|].
    do 4 right. split; [auto|]. unfold is_input. by rewrite Hdag.
Qed.

(** An input node is passed: its outbound nodes are to be visited. *)
Lemma closed_input m node nd pend :
  edges_ok m → JS.get (modelDAG m) node = Some nd →
  Node.layerClass nd = "InputLayer" →
  closed m (node :: pend) → closed m (Node.outbound nd ++ pend).
Proof.
  intros Hok Hnd Hcls Hcl k n Hk Hn.
  destruct (Hcl k n Hk Hn) as [?|[?|[Hin|[?|[Hin Hinp]]]]].
  - auto.
  - auto.
  - apply elem_of_cons in Hin as [->|Hin].
    + by destruct (fed_not_input m k node nd Hok Hn Hnd).
    + right. right. left. apply elem_of_app. by right.
  - auto 6.
  - apply elem_of_cons in Hin as [->|Hin].
    + right. right. left. apply elem_of_app. left.
      by rewrite <-(outbound_of_get m node nd Hnd).
    + do 4 right. split; [|done]. apply elem_of_app. by right.
Qed.

Lemma waiting_blocked m node nd inboundLayers :
  JS.get (modelDAG m) node = Some nd →
  mapM (modelLayersMap m !!.) (Node.inbound nd) = Some inboundLayers →
  ¬ Forall (λ l, hasResult l = true) inboundLayers →
  blocked m node.
Proof.
  intros Hnd Hin HF. apply mapM_Some in Hin.
  apply not_Forall_Exists in HF; [|apply _].
  apply Exists_exists in HF as (l & Hl & Hres).
  apply list_elem_of_lookup in Hl as [i Hi].
  destruct (Forall2_lookup_r _ _ _ _ _ Hin Hi) as (k & Hk & Hkl).
  exists k. rewrite (inbound_of_get m node nd Hnd). split.
  - by eapply list_elem_of_lookup_2.
  - unfold computed. rewrite Hkl. simpl. by intros [= ?].
Qed.

Lemma rejections_nil inputData m m' :
  rtc (sched_step inputData) m m' → rejections m' = [] → rejections m = [].
Proof.
  intros Hsteps Hnil. apply steps_same_graph, sg_rejections in Hsteps.
  rewrite Hnil in Hsteps. by apply prefix_nil_inv.
Qed.

Lemma traverseDAG_closed fuel nodes m m' pend :
  edges_ok m → run_ok m →
  _traverseDAG fuel nodes m = Some m' → rejections m' = [] →
  closed m (nodes ++ pend) → closed m' pend.
Proof.
  revert nodes m m' pend.
  induction fuel as [|fuel IH]; intros nodes m m' pend Hok Hrun; [done|].
  destruct nodes as [|node [|node' nodes]].
  - simpl. by intros [= ->].
  - simpl. destruct (JS.get (modelDAG m) node) as [nd|] eqn:Hnd.
    2:{ intros [= <-]. simpl. intros Hnil.
        by apply app_nil in Hnil as [_ [=]]. }
    destruct (decide _) as [Hcls|Hcls].
    + pose proof (step_node [] node nd m Hnd) as Hstep.
      assert (¬ is_input m node) as Hnot.
      { intros (nd' & Hnd' & Hcls'). congruence. }
      destruct (computeNode_cases node nd m)
        as [cur Hcur Hvis|ins Hins HF|e h c|cur ins a h Hcur Hvis Hins HF Ha].
      * intros [= <-] _. apply closed_drop; [done|]. left.
        destruct Hrun as (Hflags & _). unfold computed.
        rewrite Hcur. simpl. by rewrite (Hflags _ _ Hcur), Hvis.
      * intros [= <-] _. apply closed_drop; [done|]. right.
        by eapply waiting_blocked.
      * intros [= <-]. simpl. intros Hnil.
        by apply app_nil in Hnil as [_ [=]].
      * simpl in Hstep.
        match type of Hstep with
        | sched_step _ _ ?x => set (m1 := x) in *
        end.
        change (layerCallPauses m1) with (layerCallPauses m).
        destruct (layerCallPauses m).
        -- intros [= <-] _ Hcl.
           eapply (closed_done m _ node cur a pend pend);
             [done|done|done|done|done|done| | |exact Hcl].
           ++ intros x Hx. simpl. rewrite concat_app.
              apply elem_of_app. by left.
           ++ intros x Hx. right. simpl. rewrite concat_app.
              apply elem_of_app. right. simpl. rewrite app_nil_r.
              by rewrite <-(outbound_of_get m node nd Hnd).
        -- intros Hrec Hnil Hcl.
           eapply (IH _ m1); [| |exact Hrec|done|].
           ++ eapply edges_ok_same_graph; [|done].
              by eapply step_same_graph.
           ++ by eapply step_run_ok.
           ++ eapply (closed_done m m1 node cur a pend);
                [done|done|done|done|done| |done| |exact Hcl].
              ** intros x Hx. apply elem_of_app. by right.
              ** intros x Hx. left. apply elem_of_app. left.
                 by rewrite <-(outbound_of_get m node nd Hnd).
    + intros Hrec Hnil Hcl. apply dec_stable in Hcls.
      eapply (IH _ m); [done|done|exact Hrec|done|].
      by apply (closed_input m node nd pend).
  - change (_traverseDAG (S fuel) (node :: node' :: nodes) m)
      with (foldl (λ acc node, acc ≫= _traverseDAG fuel [node]) (Some m)
              (node :: node' :: nodes)).
    generalize (node :: node' :: nodes). clear node node' nodes.
    intros nodes. revert m Hok Hrun.
    induction nodes as [|node nodes IHn]; intros m Hok Hrun; simpl.
    + by intros [= ->].
    + destruct (_traverseDAG fuel [node] m) as [m1|] eqn:Hm1; simpl;
        [|by rewrite foldl_mbind_None].
      intros Hfold Hnil Hcl.
      pose proof (traverseDAG_steps [] _ _ _ _ Hm1) as Hsteps1.
      assert (rtc (sched_step []) m1 m') as Hsteps2.
      { eapply (foldl_mbind_inv (λ node, _traverseDAG fuel [node])
                  (rtc (sched_step []))); [|exact Hfold].
        intros b x y. apply traverseDAG_steps. }
      eapply (IHn m1); [| |done|done|].
      * eapply edges_ok_same_graph; [|done]. by eapply steps_same_graph.
      * by eapply steps_run_ok.
      * eapply (IH [node] m m1 (nodes ++ pend)); [done|done|done| |done].
        by eapply rejections_nil.
Qed.

End closure_facts.

(** ** The scheduler terminates *)

Section termination_facts.
Context `{Layers}.

Lemma log_length m : run_ok m → length (layersWithResults m) ≤ size (modelLayersMap m).
Proof.
  intros (_ & _ & Hnd & Hlog & _).
  rewrite <-length_map_to_list, <-(length_fmap fst).
  apply submseteq_length, NoDup_submseteq; [done|].
  intros n Hn. apply Hlog in Hn. unfold computed in Hn.
  destruct (modelLayersMap m !! n) as [l|] eqn:Hl; [|done].
  apply list_elem_of_fmap. exists (n, l). split; [done|].
  by apply elem_of_map_to_list.
Qed.

Lemma log_length_unvisited m node cur :
  run_ok m → modelLayersMap m !! node = Some cur → visited cur = false →
  length (layersWithResults m) < size (modelLayersMap m).
Proof.
  intros (Hflags & _ & Hnd & Hlog & _) Hcur Hvis.
  rewrite <-length_map_to_list, <-(length_fmap fst).
  change (length (node :: layersWithResults m)
          ≤ length ((map_to_list (modelLayersMap m)).*1)).
  apply submseteq_length, NoDup_submseteq.
  - apply NoDup_cons. split; [|done]. intros Hn. apply Hlog in Hn.
    unfold computed in Hn. rewrite Hcur in Hn. simpl in Hn.
    rewrite (Hflags _ _ Hcur), Hvis in Hn. done.
  - intros n [->|Hn]%elem_of_cons.
    + apply list_elem_of_fmap. exists (node, cur). split; [done|].
      by apply elem_of_map_to_list.
    + apply Hlog in Hn. unfold computed in Hn.
      destruct (modelLayersMap m !! n) as [l|] eqn:Hl; [|done].
      apply list_elem_of_fmap. exists (n, l). split; [done|].
      by apply elem_of_map_to_list.
Qed.

Global Instance parked_le_refl : Reflexive parked_le.
Proof. intros m. unfold parked_le. lia. Qed.

Lemma parked_le_trans m1 m2 m3 :
  parked_le m1 m2 → parked_le m2 m3 → parked_le m1 m3.
Proof. unfold parked_le. lia. Qed.

Lemma todo_steps inputData m m' :
  rtc (sched_step inputData) m m' → todo m' ≤ todo m.
Proof.
  intros Hsteps%steps_same_graph. unfold todo.
  rewrite (sg_size _ _ Hsteps). pose proof (sg_log _ _ Hsteps). lia.
Qed.

Lemma noninput_steps inputData m m' nodes :
  rtc (sched_step inputData) m m' → noninput m nodes → noninput m' nodes.
Proof.
  intros Hsteps%steps_same_graph Hnon n nd Hn.
  rewrite (sg_dag _ _ Hsteps). by apply Hnon.
Qed.

(** Visiting the nodes of an array one after the other, when each visit
    ends. *)
Lemma foldl_traverseDAG_total fuel t dag nodes m :
  (∀ node m, node ∈ nodes → modelDAG m = dag →
     edges_ok m → run_ok m → todo m ≤ t →
     ∃ m', _traverseDAG fuel [node] m = Some m' ∧ parked_le m m') →
  modelDAG m = dag → edges_ok m → run_ok m → todo m ≤ t →
  ∃ m', foldl (λ acc node, acc ≫= _traverseDAG fuel [node]) (Some m) nodes
        = Some m' ∧ parked_le m m'.
Proof.
  revert m.
  induction nodes as [|node nodes IH]; intros m Hone Hdag Hok Hrun Ht.
  - exists m. by split.
  - destruct (Hone node m) as (m1 & Hm1 & Hp1); [left|done..|].
    pose proof (traverseDAG_steps [] _ _ _ _ Hm1) as Hsteps.
    destruct (IH m1) as (m' & Hm' & Hp').
    + intros node0 m0 Hin. apply Hone. by right.
    + by rewrite (sg_dag _ _ (steps_same_graph _ _ _ Hsteps)).
    + eapply edges_ok_same_graph; [|done]. by eapply steps_same_graph.
    + by eapply steps_run_ok.
    + pose proof (todo_steps _ _ _ Hsteps). lia.
    + exists m'. simpl. rewrite Hm1. simpl. split; [done|].
      by eapply parked_le_trans.
Qed.

(** Computable nodes: the recursion is as deep as twice the number of
    layers still to compute. *)
Lemma traverseDAG_total fuel nodes m :
  edges_ok m → run_ok m → noninput m nodes →
  2 * todo m + (if decide (length nodes ≤ 1) then 1 else 2) ≤ fuel →
  ∃ m', _traverseDAG fuel nodes m = Some m' ∧ parked_le m m'.
Proof.
  revert nodes m.
  induction fuel as [|fuel IH]; intros nodes m Hok Hrun Hnon Hfuel.
  { case_decide; lia. }
  destruct nodes as [|node [|node' nodes]].
  - exists m. by split.
  - simpl. destruct (JS.get (modelDAG m) node) as [nd|] eqn:Hnd.
    2:{ eexists. split; [done|]. unfold parked_le. simpl. lia. }
    rewrite decide_True by (eapply Hnon; [left|done]).
    pose proof (step_node [] node nd m Hnd) as Hstep.
    destruct (computeNode_cases node nd m)
      as [cur Hcur Hvis|ins Hins HF|e h c|cur ins a h Hcur Hvis Hins HF Ha].
    + exists m. by split.
    + exists m. by split.
    + eexists. split; [done|]. unfold parked_le. simpl. lia.
    + simpl in Hstep.
      match type of Hstep with
      | sched_step _ _ ?x => set (m1 := x) in *
      end.
      change (layerCallPauses m1) with (layerCallPauses m).
      destruct (layerCallPauses m).
      * eexists. split; [done|]. unfold parked_le. simpl.
        rewrite !length_app. simpl. lia.
      * pose proof (log_length_unvisited m node cur Hrun Hcur Hvis) as Hlt.
        assert (todo m1 + 1 = todo m) as Htodo.
        { unfold todo. simpl. rewrite length_app. simpl.
          rewrite map_size_insert_Some by done. lia. }
        destruct (IH (Node.outbound nd) m1) as (m' & Hm' & Hp').
        -- eapply edges_ok_same_graph; [|done]. by eapply step_same_graph.
        -- by eapply step_run_ok.
        -- intros n nd' Hn Hget.
           eapply (fed_not_input m node n nd'); [done| |done].
           by rewrite (outbound_of_get m node nd Hnd).
        -- case_decide; case_decide; simpl in *; lia.
        -- exists m'. split; [done|]. revert Hp'. unfold parked_le. simpl.
           rewrite length_app. simpl. lia.
  - change (_traverseDAG (S fuel) (node :: node' :: nodes) m)
      with (foldl (λ acc node, acc ≫= _traverseDAG fuel [node]) (Some m)
              (node :: node' :: nodes)).
    rewrite decide_False in Hfuel by (simpl; lia).
    eapply (foldl_traverseDAG_total fuel (todo m) (modelDAG m));
      [|done..].
    intros node0 m0 Hin Hdag Hok0 Hrun0 Htodo.
    apply IH; [done|done| |simpl; lia].
    intros n nd Hn%list_elem_of_singleton Hget. subst n.
    rewrite Hdag in Hget. by eapply Hnon.
Qed.

End termination_facts.

(** ** The whole run: event loop, loading, reset *)

Section run_facts.
Context `{Layers}.
Implicit Types (m : Model) (inputData : JS.object JS.value).

Lemma step_results inputData m m' :
  sched_step inputData m m' → run_ok m →
  (results_logged m → results_logged m')
  ∧ (results_ok m → results_ok m').
Proof.
  intros Hstep (Hflags & Hnames & _).
  destruct Hstep as [inputName m|node nd m Hnd'| | |];
    try (split; intros ?; done).
  - destruct (loadInput_cases inputData inputName m)
      as (hp & Hlen & [->|(l & r & Hl & Hkey & Hr & ->)]).
    + split; [done|]. intros Hres n l Hl Hh. simpl in *.
      destruct (Hres n l Hl Hh) as (a & ? & ?). exists a. split; [done|lia].
    + split.
      * intros Hlog n. unfold computed. simpl.
        destruct (decide (inputName = n)) as [->|Hne]; [auto|].
        rewrite lookup_insert_ne by done. apply Hlog.
      * intros Hres n l0. simpl.
        destruct (decide (inputName = n)) as [->|Hne].
        -- rewrite lookup_insert_eq. intros [= <-] _. simpl. eauto.
        -- rewrite lookup_insert_ne by done. intros Hl0 Hh.
           destruct (Hres n l0 Hl0 Hh) as (a & ? & ?).
           exists a. split; [done|lia].
  - destruct (computeNode_cases node nd m)
      as [| |e h c|cur ins a h Hcur Hvis _ _ Ha]; simpl.
    + by split.
    + by split.
    + split; [done|]. intros Hres n l Hl Hh. simpl in *.
      destruct (Hres n l Hl Hh) as (a & ? & ?). exists a. split; [done|].
      rewrite length_app. lia.
    + assert (name cur = node) as Hname by by apply Hnames.
      rewrite Hname. split.
      * intros Hlog n. unfold computed. simpl.
        destruct (decide (node = n)) as [->|Hne].
        -- intros _. left. apply elem_of_app. right. left.
        -- rewrite lookup_insert_ne by done. intros Hn.
           destruct (Hlog n Hn); [|auto]. left. apply elem_of_app. auto.
      * intros Hres n l0. simpl.
        destruct (decide (node = n)) as [->|Hne].
        -- rewrite lookup_insert_eq. intros [= <-] _. simpl. eauto.
        -- rewrite lookup_insert_ne by done. intros Hl0 Hh.
           destruct (Hres n l0 Hl0 Hh) as (a0 & ? & ?).
           exists a0. split; [done|]. rewrite length_app. lia.
Qed.

Lemma steps_results inputData m m' :
  rtc (sched_step inputData) m m' → run_ok m →
  results_logged m → results_ok m →
  results_logged m' ∧ results_ok m'.
Proof.
  induction 1 as [|m1 m2 m3 Hstep _ IH]; [done|].
  intros Hrun Hlog Hres.
  destruct (step_results _ _ _ Hstep Hrun) as [Hl Hr].
  apply IH; [by eapply step_run_ok|auto..].
Qed.

(** The event loop leaves no node behind either, and empties the queue. *)
Lemma runTimers_closed fuel steps m m' :
  edges_ok m → run_ok m →
  runTimers fuel steps m = Some m' → rejections m' = [] →
  closed m [] → closed m' [] ∧ timers m' = [].
Proof.
  revert m. induction steps as [|steps IH]; intros m Hok Hrun; simpl.
  - destruct (timers m) eqn:Ht; [|done]. intros [= <-]. by split.
  - destruct (timers m) as [|outbound rest] eqn:Ht;
      [intros [= <-]; by split|].
    pose proof (step_resume [] outbound rest m Ht) as Hstep.
    destruct (_traverseDAG fuel outbound _) as [m1|] eqn:Htr; [|done].
    simpl. intros Hrun' Hnil Hcl.
    pose proof (traverseDAG_steps [] _ _ _ _ Htr) as Hsteps.
    pose proof (runTimers_steps [] _ _ _ _ Hrun') as Hsteps'.
    apply (IH m1); [| |done|done|].
    + eapply edges_ok_same_graph; [|done].
      etrans; [by eapply step_same_graph|by eapply steps_same_graph].
    + eapply steps_run_ok; [done|]. by eapply step_run_ok.
    + eapply (traverseDAG_closed fuel outbound _ m1 []); [| |done| |].
      * eapply edges_ok_same_graph; [|done]. by eapply step_same_graph.
      * by eapply step_run_ok.
      * by eapply rejections_nil.
      * intros k n Hk Hn.
        destruct (Hcl k n Hk Hn) as [?|[?|[Hin|[Hin|[Hin _]]]]].
        -- auto.
        -- auto.
        -- by apply elem_of_nil in Hin.
        -- rewrite Ht in Hin. simpl in Hin.
           apply elem_of_app in Hin as [?|?].
           ++ right. right. left. by rewrite app_nil_r.
           ++ auto 6.
        -- by apply elem_of_nil in Hin.
Qed.

(** Any node, with three more units of fuel. *)
Lemma traverseDAG_total_one fuel node m :
  edges_ok m → run_ok m → 2 * todo m + 3 ≤ fuel →
  ∃ m', _traverseDAG fuel [node] m = Some m' ∧ parked_le m m'.
Proof.
  intros Hok Hrun Hfuel.
  destruct (JS.get (modelDAG m) node) as [nd|] eqn:Hnd.
  - destruct (decide (Node.layerClass nd = "InputLayer")) as [Hcls|Hcls].
    + destruct fuel as [|fuel]; [lia|]. simpl. rewrite Hnd.
      rewrite decide_False by (by intros ?).
      apply traverseDAG_total; [done|done| |case_decide; lia].
      intros n nd' Hn Hget.
      eapply (fed_not_input m node n nd'); [done| |done].
      by rewrite (outbound_of_get m node nd Hnd).
    + apply traverseDAG_total; [done|done| |simpl; lia].
      intros n nd' ->%list_elem_of_singleton Hget. congruence.
  - apply traverseDAG_total; [done|done| |simpl; lia].
    intros n nd' ->%list_elem_of_singleton Hget. congruence.
Qed.

Lemma traverseDAG_total_any fuel nodes m :
  edges_ok m → run_ok m → 2 * todo m + 4 ≤ fuel →
  ∃ m', _traverseDAG fuel nodes m = Some m' ∧ parked_le m m'.
Proof.
  intros Hok Hrun Hfuel.
  destruct nodes as [|node [|node' nodes]].
  - destruct fuel; [lia|]. exists m. by split.
  - apply traverseDAG_total_one; [done|done|lia].
  - destruct fuel as [|fuel]; [lia|].
    change (_traverseDAG (S fuel) (node :: node' :: nodes) m)
      with (foldl (λ acc node, acc ≫= _traverseDAG fuel [node]) (Some m)
              (node :: node' :: nodes)).
    eapply (foldl_traverseDAG_total fuel (todo m) (modelDAG m));
      [|done..].
    intros node0 m0 _ _ Hok0 Hrun0 Htodo.
    apply traverseDAG_total_one; [done|done|lia].
Qed.

Lemma runTimers_total fuel steps m :
  edges_ok m → run_ok m → 2 * todo m + 4 ≤ fuel →
  length (timers m) + todo m ≤ steps →
  ∃ m', runTimers fuel steps m = Some m'.
Proof.
  revert m. induction steps as [|steps IH]; intros m Hok Hrun Hfuel Hsteps;
    simpl.
  - destruct (timers m); [eauto|simpl in Hsteps; lia].
  - destruct (timers m) as [|outbound rest] eqn:Ht; [eauto|].
    pose proof (step_resume [] outbound rest m Ht) as Hstep.
    set (m0 := set_timers rest m) in *.
    assert (edges_ok m0) as Hok0.
    { eapply edges_ok_same_graph; [|done]. by eapply step_same_graph. }
    assert (run_ok m0) as Hrun0 by by eapply step_run_ok.
    destruct (traverseDAG_total_any fuel outbound m0) as (m1 & Hm1 & Hp);
      [done|done|done|].
    rewrite Hm1. simpl.
    pose proof (traverseDAG_steps [] _ _ _ _ Hm1) as Hsteps1.
    apply IH.
    + eapply edges_ok_same_graph; [|done]. by eapply steps_same_graph.
    + by eapply steps_run_ok.
    + pose proof (todo_steps _ _ _ Hsteps1). unfold todo in *.
      simpl in *. lia.
    + assert (run_ok m1) as Hrun1 by by eapply steps_run_ok.
      pose proof (log_length m1 Hrun1) as Hlen1.
      pose proof (sg_size _ _ (steps_same_graph _ _ _ Hsteps1)) as Hsize.
      unfold parked_le in Hp. unfold todo in *. simpl in *. lia.
Qed.

End run_facts.

(** ** [predict]: from the reset to the end of the traversal *)

Section predict_facts.
Context `{Layers}.
Implicit Types (m : Model) (inputData : JS.object JS.value).

Lemma node_ok_reset m seen n nd :
  node_ok m seen n nd → node_ok (afterReset m) seen n nd.
Proof.
  intros (Hname & Hl & Hin & Hinb & Hi & Ho). unfold node_ok.
  split_and!; try done.
  simpl. rewrite lookup_fmap. by destruct (modelLayersMap m !! n).
Qed.

Lemma dag_ok_reset m seen dag : dag_ok m seen dag → dag_ok (afterReset m) seen dag.
Proof.
  revert seen. induction dag as [|[n nd] dag IH]; intros seen; simpl;
    [done|].
  intros [Hn Hrest]. split; [by apply node_ok_reset|by apply IH].
Qed.

Lemma valid_dag_reset m : valid_dag m → valid_dag (afterReset m).
Proof.
  intros (Hnd & Hok & Hnames & Hinp & Ht). unfold valid_dag.
  split_and!; try done.
  - by apply dag_ok_reset.
  - simpl. intros n l. rewrite lookup_fmap.
    destruct (modelLayersMap m !! n) as [l0|] eqn:Hl0; [|done].
    intros [= <-]. simpl. by apply (Hnames n l0).
Qed.

Lemma run_ok_reset m : valid_dag m → run_ok (afterReset m).
Proof.
  intros (_ & _ & Hnames & _). split_and!.
  - intros n l. simpl. rewrite lookup_fmap.
    destruct (modelLayersMap m !! n); [|done]. by intros [= <-].
  - intros n l. simpl. rewrite lookup_fmap.
    destruct (modelLayersMap m !! n) as [l0|] eqn:Hl0; [|done].
    intros [= <-]. simpl. by apply (Hnames n l0).
  - split_and!.
    + simpl. apply NoDup_nil_2.
    + simpl. by intros n ?%elem_of_nil.
    + done.
Qed.

Lemma not_computed_reset m n : ¬ computed (afterReset m) n.
Proof.
  unfold computed. simpl. rewrite lookup_fmap.
  by destruct (modelLayersMap m !! n).
Qed.

(** Loading touches the heap and the input layers only. *)
Lemma loadInput_frame inputData inputName m :
  let m' := (loadInput inputData inputName m).1 in
  layersWithResults m' = layersWithResults m
  ∧ rejections m' = rejections m
  ∧ timers m' = timers m
  ∧ calls m' = calls m.
Proof.
  destruct (loadInput_cases inputData inputName m)
    as (hp & _ & [Hm1|(l & r & _ & _ & _ & Hm1)]); simpl; by rewrite Hm1.
Qed.

Lemma loadInputs_frame inputData inputNames m :
  let m' := (loadInputs inputData inputNames m).1 in
  layersWithResults m' = layersWithResults m
  ∧ rejections m' = rejections m
  ∧ timers m' = timers m
  ∧ calls m' = calls m.
Proof.
  revert m. induction inputNames as [|inputName rest IH]; intros m; simpl;
    [done|].
  pose proof (loadInput_frame inputData inputName m) as Hone.
  destruct (loadInput inputData inputName m) as [m1 [[]|e]];
    simpl in *; [|done].
  destruct (IH m1) as (-> & -> & -> & ->). done.
Qed.

Lemma loadInput_Ok_computed inputData inputName m m' :
  loadInput inputData inputName m = (m', Ok ()) → computed m' inputName.
Proof.
  unfold loadInput, computed.
  destruct (JS.get (inputTensors m) inputName ≫= _) as [[a t]|]; [|done].
  destruct (JS.get inputData inputName) as [[d| |]|]; try done.
  destruct (modelLayersMap m !! inputName) as [inputLayer|]; [|done].
  destruct (call _ _ _ _) as [y|e]; [|done].
  simpl. intros [= <-]. simpl. by rewrite lookup_insert_eq.
Qed.

Lemma loadInputs_Ok_computed inputData inputNames m m' :
  loadInputs inputData inputNames m = (m', Ok ()) →
  ∀ n, n ∈ inputNames → computed m' n.
Proof.
  revert m. induction inputNames as [|inputName rest IH]; intros m; simpl.
  - intros _ n ?%elem_of_nil. done.
  - destruct (loadInput inputData inputName m) as [m1 [[]|e]] eqn:Hm1;
      [|done].
    intros Hrest n [->|Hn]%elem_of_cons; [|by eapply IH].
    apply (computed_grow m1).
    + apply (steps_flags_grow inputData).
      replace m' with (loadInputs inputData rest m1).1 by by rewrite Hrest.
      apply loadInputs_steps.
    + by eapply loadInput_Ok_computed.
Qed.

(** In a valid DAG, when the closure is reached and every input has its
    result, every node has its result. *)
Lemma dag_all_computed m m' seen dag :
  same_graph m m' → dag_ok m seen dag →
  (∀ n nd, (n, nd) ∈ dag → JS.get (modelDAG m) n = Some nd) →
  (∀ k, k ∈ seen → computed m' k) →
  closed m' [] → timers m' = [] →
  (∀ n, n ∈ JS.keys (inputTensors m) → computed m' n) →
  ∀ n nd, (n, nd) ∈ dag → computed m' n.
Proof.
  intros Hsame Hdag Hget Hseen Hcl Ht Hinputs. revert seen Hdag Hget Hseen.
  induction dag as [|[n0 nd0] dag IH]; intros seen Hdag Hget Hseen n nd.
  { by intros ?%elem_of_nil. }
  destruct Hdag as [(Hname & Hl & Hin & Hinb & Hi & Ho) Hrest].
  assert (computed m' n0) as Hn0.
  { destruct (decide (Node.layerClass nd0 = "InputLayer")) as [Hcls|Hcls].
    { apply Hinputs. by apply Hin. }
    destruct (Node.inbound nd0) as [|k0 ks] eqn:Hks.
    { destruct Hcls. by apply Hinb. }
    rewrite Forall_forall in Hi.
    assert (JS.get (modelDAG m') n0 = Some nd0) as Hget0.
    { rewrite (sg_dag _ _ Hsame). apply Hget. left. }
    destruct (Hi k0) as [Hk0 Hout]; [left|].
    rewrite <-(outbound_of_eq m m') in Hout by apply Hsame.
    destruct (Hcl k0 n0 (Hseen k0 Hk0) Hout)
      as [?|[(j & Hj & Hnj)|[Hx|[Hx|[Hx _]]]]]; [done| | | |].
    - rewrite (inbound_of_get m' n0 nd0 Hget0), Hks in Hj.
      destruct Hnj. apply Hseen. by apply Hi.
    - by apply elem_of_nil in Hx.
    - rewrite Ht in Hx. by apply elem_of_nil in Hx.
    - by apply elem_of_nil in Hx. }
  intros [[= -> ->]|Hin']%elem_of_cons; [done|].
  eapply (IH (n0 :: seen)); [done| | |done].
  - intros n1 nd1 Hin1. apply Hget. by right.
  - intros k [->|Hk]%elem_of_cons; auto.
Qed.

Lemma filter_eq_none (n : string) (l : list string) :
  n ∉ l → filter (n =.) l = [].
Proof.
  induction l as [|x l IH]; [done|].
  intros [Hne Hn]%not_elem_of_cons.
  rewrite filter_cons, decide_False by done. auto.
Qed.

Lemma filter_eq_once (n : string) (l : list string) :
  NoDup l → n ∈ l → length (filter (n =.) l) = 1.
Proof.
  induction l as [|x l IH]; [by intros _ ?%elem_of_nil|].
  intros [Hx Hnd]%NoDup_cons [->|Hn]%elem_of_cons.
  - rewrite filter_cons, decide_True by done. simpl.
    by rewrite filter_eq_none.
  - rewrite filter_cons, decide_False by (intros ->; done). auto.
Qed.

End predict_facts.

Section traversal_facts.
Context `{Layers}.
Implicit Types (m : Model) (inputData : JS.object JS.value).

Lemma runTimers_empty fuel steps m m' :
  runTimers fuel steps m = Some m' → timers m' = [].
Proof.
  revert m. induction steps as [|steps IH]; intros m; simpl.
  - destruct (timers m) eqn:Ht; [|done]. by intros [= <-].
  - destruct (timers m) eqn:Ht; [by intros [= <-]|].
    destruct (_traverseDAG _ _ _); [|done]. simpl. apply IH.
Qed.

Lemma elem_of_inputNames m n :
  n ∈ inputNames_of m ↔ n ∈ JS.keys (inputTensors m).
Proof.
  unfold inputNames_of, JS.sort. by rewrite merge_sort_Permutation.
Qed.

Lemma valid_dag_input m n :
  valid_dag m → n ∈ JS.keys (inputTensors m) → is_input m n.
Proof.
  intros Hvalid Hn. pose proof Hvalid as (_ & _ & _ & Hinp & _).
  apply list_elem_of_fmap in Hn as ([n' a] & -> & Hin).
  rewrite Forall_forall in Hinp. destruct (Hinp _ Hin) as [Hkey _].
  simpl in *. apply get_is_Some in Hkey as [nd Hnd].
  exists nd. split; [done|].
  destruct (valid_dag_node m n' nd Hvalid Hnd) as (seen & _ & _ & Hc & _).
  apply Hc. apply list_elem_of_fmap. by exists (n', a).
Qed.

(** The traversal of a call on a valid DAG, once the inputs are loaded:
    it ends, the event loop ends, and unless a branch has thrown every node
    has its result. *)
Lemma traversal_run fuel inputData m m2 :
  valid_dag m → enough_fuel m ≤ fuel →
  loadInputs inputData (inputNames_of (afterReset m)) (afterReset m)
  = (m2, Ok ()) →
  ∃ m3 m4,
    _traverseDAG fuel (inputNames_of (afterReset m)) m2 = Some m3
    ∧ runTimers fuel fuel m3 = Some m4
    ∧ rtc (sched_step inputData) (afterReset m) m4
    ∧ run_ok m4 ∧ results_logged m4 ∧ results_ok m4 ∧ timers m4 = []
    ∧ (rejections m4 = [] →
         ∀ n nd, JS.get (modelDAG m) n = Some nd → computed m4 n).
Proof.
  intros Hvalid Hfuel Hload. set (m1 := afterReset m) in *.
  pose proof (valid_dag_reset m Hvalid) as Hvalid1. fold m1 in Hvalid1.
  pose proof (valid_dag_edges m1 Hvalid1) as Hok1.
  pose proof (run_ok_reset m Hvalid) as Hrun1. fold m1 in Hrun1.
  assert (rtc (sched_step inputData) m1 m2) as Hsteps12.
  { replace m2 with (loadInputs inputData (inputNames_of m1) m1).1
      by by rewrite Hload.
    apply loadInputs_steps. }
  pose proof (steps_same_graph _ _ _ Hsteps12) as Hsame12.
  pose proof (edges_ok_same_graph _ _ Hsame12 Hok1) as Hok2.
  pose proof (steps_run_ok _ _ _ Hsteps12 Hrun1) as Hrun2.
  assert (results_logged m1) as Hlog1.
  { intros n Hn. by destruct (not_computed_reset m n). }
  assert (results_ok m1) as Hres1.
  { intros n l. unfold m1. simpl. rewrite lookup_fmap.
    destruct (modelLayersMap m !! n); [|done]. by intros [= <-]. }
  destruct (steps_results _ _ _ Hsteps12 Hrun1 Hlog1 Hres1)
    as [Hlog2 Hres2].
  destruct (loadInputs_frame inputData (inputNames_of m1) m1)
    as (Hlwr2 & Hrej2 & Ht2 & _).
  rewrite Hload in Hlwr2, Hrej2, Ht2. simpl in Hlwr2, Hrej2, Ht2.
  assert (size (modelLayersMap m2) = size (modelLayersMap m)) as Hsize2.
  { rewrite (sg_size _ _ Hsame12). unfold m1. simpl.
    apply map_size_fmap. }
  assert (2 * todo m2 + 4 ≤ fuel) as Hfuel2.
  { unfold enough_fuel in Hfuel. unfold todo. lia. }
  destruct (traverseDAG_total_any fuel (inputNames_of m1) m2)
    as (m3 & Hm3 & Hp3); [done..|].
  pose proof (traverseDAG_steps inputData _ _ _ _ Hm3) as Hsteps23.
  pose proof (steps_same_graph _ _ _ Hsteps23) as Hsame23.
  pose proof (edges_ok_same_graph _ _ Hsame23 Hok2) as Hok3.
  pose proof (steps_run_ok _ _ _ Hsteps23 Hrun2) as Hrun3.
  destruct (runTimers_total fuel fuel m3) as (m4 & Hm4); [done|done| |  |].
  { pose proof (todo_steps _ _ _ Hsteps23). lia. }
  { pose proof (log_length m3 Hrun3) as Hlen3.
    pose proof (sg_size _ _ Hsame23) as Hsize3.
    destruct Hvalid as (_ & _ & _ & _ & Ht).
    unfold parked_le in Hp3. rewrite Hlwr2, Ht2 in Hp3.
    unfold m1 in Hp3. simpl in Hp3. rewrite Ht in Hp3. simpl in Hp3.
    unfold enough_fuel in Hfuel. unfold todo. lia. }
  pose proof (runTimers_steps inputData _ _ _ _ Hm4) as Hsteps34.
  pose proof (steps_run_ok _ _ _ Hsteps34 Hrun3) as Hrun4.
  assert (rtc (sched_step inputData) m1 m4) as Hsteps14.
  { etrans; [exact Hsteps12|]. etrans; [exact Hsteps23|exact Hsteps34]. }
  destruct (steps_results _ _ _ Hsteps14 Hrun1 Hlog1 Hres1)
    as [Hlog4 Hres4].
  exists m3, m4. split_and!; try done.
  { by eapply runTimers_empty. }
  intros Hnil n nd Hget.
  assert (closed m2 (inputNames_of m1 ++ [])) as Hcl2.
  { intros k n' Hk Hn'. do 4 right.
    destruct (Hlog2 k Hk) as [Hin|Hin].
    { rewrite Hlwr2 in Hin. unfold m1 in Hin. simpl in Hin.
      by apply elem_of_nil in Hin. }
    rewrite (sg_inputs _ _ Hsame12) in Hin. split.
    - rewrite app_nil_r. by apply elem_of_inputNames.
    - destruct (valid_dag_input m1 k Hvalid1 Hin) as (kd & Hkd & Hcls).
      exists kd. by rewrite (sg_dag _ _ Hsame12). }
  assert (rejections m3 = []) as Hnil3 by by eapply rejections_nil.
  pose proof (traverseDAG_closed fuel _ m2 m3 [] Hok2 Hrun2 Hm3 Hnil3 Hcl2)
    as Hcl3.
  destruct (runTimers_closed fuel fuel m3 m4 Hok3 Hrun3 Hm4 Hnil Hcl3)
    as [Hcl4 Ht4].
  pose proof (steps_same_graph _ _ _ Hsteps14) as Hsame14.
  pose proof Hvalid1 as (Hnd1 & Hdag1 & _).
  eapply (dag_all_computed m1 m4 [] (modelDAG m1)); try done.
  - intros n' nd' Hin. by apply elem_of_get.
  - by intros k ?%elem_of_nil.
  - intros n' Hn'. apply (computed_grow m2).
    + etrans; by eapply steps_flags_grow.
    + eapply loadInputs_Ok_computed; [exact Hload|].
      by apply elem_of_inputNames.
  - by apply get_Some_elem_of.
Qed.

End traversal_facts.

(** ** [predict], once the checks have passed *)

Section predict_claims.
Context `{Layers}.
Implicit Types (m : Model) (inputData : JS.object JS.value).

(** [predict] when both checks on the input pass. *)
Lemma predict_checked fuel inputData m :
  checkInputNames inputData m = true → checkInputValues inputData m = true →
  predict fuel inputData m
  = match loadInputs inputData (inputNames_of (afterReset m))
            (afterReset m) with
    | (m2, Throw e) => Some (reject e m2, Rejected [e])
    | (m2, Ok _) =>
        m3 ← _traverseDAG fuel (inputNames_of (afterReset m)) m2;
        m4 ← runTimers fuel fuel m3;
        match rejections m4 with
        | [] => Some (collectOutputs m4)
        | reasons => Some (m4, Rejected reasons)
        end
    end.
Proof.
  intros Hnames Hvalues. unfold predict.
  change (checkInputNames inputData (set_isRunning true m))
    with (checkInputNames inputData m).
  change (checkInputValues inputData (set_isRunning true m))
    with (checkInputValues inputData m).
  rewrite Hnames, Hvalues. reflexivity.
Qed.

Lemma collectOutputs_state m :
  (collectOutputs m).1 = m ∨ (collectOutputs m).1 = set_isRunning false m.
Proof. unfold collectOutputs. repeat case_match; simpl; auto. Qed.

End predict_claims.

(** The diamond [in_1 -> left, broken -> sum]: the layer [broken] throws,
    and [predict] is rejected with its error while [isRunning] stays true. *)
Example broken_layer_run :
  ∃ m',
    predict (H := Example.layers) 12 (Example.inputData "in_1")
      (Example.built true (Example.diamond "broken"))
    = Some (m', Rejected [LayerError "shape mismatch"])
    ∧ isRunning m' = true
    ∧ calls m' = ["left"; "broken"].
Proof. eexists. split; [vm_compute; reflexivity|]. split; reflexivity. Qed.

(** ** The output of [predict] *)

Section output_facts.
Context `{Layers}.
Implicit Types (m : Model) (inputData : JS.object JS.value).

(** The inbound nodes of a node were created before it. *)
Lemma dag_ok_before m seen dag k kd j :
  dag_ok m seen dag → (k, kd) ∈ dag → j ∈ Node.inbound kd →
  j ∈ seen ∨ ∃ l1 l2, dag = l1 ++ (k, kd) :: l2 ∧ j ∈ JS.keys l1.
Proof.
  revert seen. induction dag as [|[n0 nd0] dag IH]; intros seen; simpl.
  { by intros _ ?%elem_of_nil. }
  intros [(_ & _ & _ & _ & Hi & _) Hrest] [[= -> ->]|Hin]%elem_of_cons Hj.
  - left. rewrite Forall_forall in Hi. by apply Hi.
  - destruct (IH (n0 :: seen) Hrest Hin Hj)
      as [[->|?]%elem_of_cons|(l1 & l2 & -> & Hl1)]; [|by left|].
    + right. apply list_elem_of_split in Hin as (l1 & l2 & ->).
      exists ((n0, nd0) :: l1), l2. split; [done|]. left.
    + right. exists ((n0, nd0) :: l1), l2. split; [done|]. by right.
Qed.

(** The node created last feeds no node. *)
Lemma valid_dag_last_output m n nd :
  valid_dag m → last (modelDAG m) = Some (n, nd) → Node.outbound nd = [].
Proof.
  intros Hvalid Hlast. pose proof Hvalid as (Hnd & Hdag & _).
  destruct (Node.outbound nd) as [|k ks] eqn:Hout; [done|]. exfalso.
  assert (JS.get (modelDAG m) n = Some nd) as Hget.
  { apply elem_of_get; [done|]. by eapply last_Some_elem_of. }
  destruct (valid_dag_edges m Hvalid n nd Hget) as (_ & _ & _ & Hf).
  destruct (elem_of_inbound_of m k n) as (kd & Hkd & Hn).
  { apply Hf. rewrite Hout. left. }
  destruct (dag_ok_before m [] (modelDAG m) k kd n Hdag)
    as [?%elem_of_nil|(l1 & l2 & Heq & Hl1)];
    [by apply get_Some_elem_of|done|done|].
  rewrite Heq in Hlast, Hnd. rewrite last_app_cons in Hlast.
  apply last_Some_elem_of in Hlast.
  unfold JS.keys in Hnd, Hl1. rewrite fmap_app in Hnd.
  apply NoDup_app in Hnd as (_ & Hdisj & _).
  apply (Hdisj n Hl1). apply list_elem_of_fmap. by exists (n, nd).
Qed.

Lemma valid_dag_has_output m :
  valid_dag m → modelDAG m ≠ [] →
  is_Some (JS.find (JS.values (modelDAG m)) isOutput).
Proof.
  intros Hvalid Hne. apply last_is_Some in Hne as [[n nd] Hlast].
  pose proof (valid_dag_last_output m n nd Hvalid Hlast) as Hout.
  unfold JS.find. destruct (List.find isOutput _) eqn:Hfind; [done|].
  exfalso. pose proof (find_none _ _ Hfind nd) as Hnone.
  unfold isOutput in Hnone. rewrite Hout in Hnone.
  rewrite bool_decide_eq_false in Hnone. apply Hnone; [|done].
  apply list_elem_of_In, list_elem_of_fmap. exists (n, nd). split; [done|].
  by eapply last_Some_elem_of.
Qed.

(** The data of the result of a computed node can be read. *)
Lemma resultData_computed m n :
  results_ok m → computed m n → ∃ d, resultData m n = Ok d.
Proof.
  intros Hres Hn. unfold computed in Hn. unfold resultData.
  destruct (modelLayersMap m !! n) as [l|] eqn:Hl; [|done].
  simpl in *. injection Hn as Hn.
  destruct (Hres n l Hl Hn) as (a & -> & Ha).
  apply lookup_lt_is_Some in Ha as [t Ht]. unfold deref. simpl.
  rewrite Ht. simpl. eauto.
Qed.

Lemma forEach_resultData m nodes index acc :
  (∀ nd, nd ∈ nodes → ∃ d, resultData m (Node.name nd) = Ok d) →
  ∃ outputData,
    forEach (λ _ (layer : Node.t) outputData,
        d ← resultData m (Node.name layer);
        Ok (JS.put outputData (Node.name layer) d))
      nodes index acc = Ok outputData.
Proof.
  revert index acc. induction nodes as [|nd nodes IH]; intros index acc Hall.
  - by exists acc.
  - simpl. destruct (Hall nd) as [d ->]; [left|]. simpl.
    apply IH. intros nd' Hnd'. apply Hall. by right.
Qed.

(** When every node of a valid, non-empty DAG has its result, the outputs
    can be collected. *)
Lemma collectOutputs_resolves m :
  valid_dag m → modelDAG m ≠ [] → results_ok m →
  (∀ n nd, JS.get (modelDAG m) n = Some nd → computed m n) →
  ∃ out, collectOutputs m = (set_isRunning false m, Resolved (Some out))
         ∨ (collectOutputs m = (m, Resolved None)
            ∧ Keras.model_class_name (data_model m) ≠ "Sequential"
            ∧ Keras.model_class_name (data_model m) ≠ "Model").
Proof.
  intros Hvalid Hne Hres Hall. pose proof Hvalid as (Hnd & _).
  assert (∀ nd, nd ∈ JS.values (modelDAG m) →
                ∃ d, resultData m (Node.name nd) = Ok d) as Hdata.
  { intros nd ([n nd'] & -> & Hin)%list_elem_of_fmap. simpl.
    pose proof (elem_of_get _ _ _ Hnd Hin) as Hget.
    destruct (valid_dag_node m n nd' Hvalid Hget) as (_ & -> & _).
    apply resultData_computed; [done|]. by eapply Hall. }
  unfold collectOutputs. case_decide as Hseq.
  - destruct (valid_dag_has_output m Hvalid Hne) as [nd Hfind].
    rewrite Hfind. unfold JS.find in Hfind.
    apply find_some in Hfind as [Hin%list_elem_of_In _].
    destruct (Hdata nd Hin) as [d ->]. eauto.
  - case_decide as Hmod.
    + destruct (forEach_resultData m
                  (filter (λ nd, isOutput nd) (JS.values (modelDAG m))) 0 [])
        as [out ->]; [|eauto].
      intros nd [_ Hin]%list_elem_of_filter. by apply Hdata.
    + exists []. right. done.
Qed.

End output_facts.

Section summary_facts.
Context `{Layers}.
Implicit Types (m : Model) (inputData : JS.object JS.value).

Lemma node_ok_same_graph m m' seen n nd :
  same_graph m m' → node_ok m seen n nd → node_ok m' seen n nd.
Proof.
  intros Hsame (Hname & Hl & Hin & Hinb & Hi & Ho). unfold node_ok.
  rewrite (sg_names _ _ Hsame), (sg_inputs _ _ Hsame).
  split_and!; try done.
  - eapply Forall_impl; [exact Hi|]. intros k [? ?].
    by rewrite (outbound_of_eq m m') by apply Hsame.
  - eapply Forall_impl; [exact Ho|]. intros k ?.
    by rewrite (inbound_of_eq m m') by apply Hsame.
Qed.

Lemma dag_ok_same_graph m m' seen dag :
  same_graph m m' → dag_ok m seen dag → dag_ok m' seen dag.
Proof.
  intros Hsame. revert seen.
  induction dag as [|[n nd] dag IH]; intros seen; simpl; [done|].
  intros [Hn Hrest]. split; [by eapply node_ok_same_graph|by apply IH].
Qed.

Lemma valid_dag_same_graph m m' :
  same_graph m m' → timers m' = [] → valid_dag m → valid_dag m'.
Proof.
  intros Hsame Ht (Hnd & Hdag & Hnames & Hinp & _). unfold valid_dag.
  rewrite (sg_dag _ _ Hsame), (sg_inputs _ _ Hsame). split_and!; try done.
  - by eapply dag_ok_same_graph.
  - intros n l Hl. pose proof (sg_names _ _ Hsame n) as Hn.
    rewrite Hl in Hn. simpl in Hn.
    destruct (modelLayersMap m !! n) as [l0|] eqn:Hl0; [|done].
    simpl in Hn. injection Hn as ->. by apply (Hnames n l0).
  - eapply Forall_impl; [exact Hinp|]. intros [k a] [? ?]. simpl in *.
    split; [done|]. pose proof (sg_heap _ _ Hsame). lia.
Qed.

(** What a call on a valid DAG with checked input comes to: it ends in a
    state that has the layers of a state [s] of the run, and if nothing threw
    every node is computed in [s] and the promise is resolved. *)
Lemma predict_summary fuel inputData m :
  valid_dag m →
  checkInputNames inputData m = true →
  checkInputValues inputData m = true →
  enough_fuel m ≤ fuel →
  ∃ m' o s, predict fuel inputData m = Some (m', o)
    ∧ rtc (sched_step inputData) (afterReset m) s
    ∧ modelLayersMap m' = modelLayersMap s
    ∧ (rejections m' = [] →
         run_ok s
         ∧ (∀ n nd, JS.get (modelDAG m) n = Some nd → computed s n)
         ∧ (modelDAG m ≠ [] → ∃ out, o = Resolved out)).
Proof.
  intros Hvalid Hnames Hvalues Hfuel.
  rewrite (predict_checked fuel inputData m Hnames Hvalues).
  destruct (loadInputs _ _ _) as [m2 [[]|e]] eqn:Hload.
  2:{ exists (reject e m2), (Rejected [e]), m2. split; [done|]. split.
      { replace m2 with (loadInputs inputData
                           (inputNames_of (afterReset m)) (afterReset m)).1
          by by rewrite Hload.
        apply loadInputs_steps. }
      split; [done|]. simpl. intros Hnil.
      by apply app_nil in Hnil as [_ [=]]. }
  destruct (traversal_run fuel inputData m m2 Hvalid Hfuel Hload)
    as (m3 & m4 & -> & Hm4 & Hsteps & Hrun & Hlog & Hres & Ht & Hall).
  simpl. rewrite Hm4. simpl.
  destruct (rejections m4) as [|e reasons] eqn:Hrej.
  2:{ exists m4, (Rejected (e :: reasons)), m4. split_and!; try done.
      by rewrite Hrej. }
  specialize (Hall eq_refl).
  exists (collectOutputs m4).1, (collectOutputs m4).2, m4.
  split; [by destruct (collectOutputs m4)|]. split; [done|]. split.
  { destruct (collectOutputs_state m4) as [->| ->]; done. }
  intros _. split; [done|]. split; [done|]. intros Hne.
  pose proof (steps_same_graph _ _ _ Hsteps) as Hsame.
  destruct (collectOutputs_resolves m4) as [out [->|[-> _]]]; simpl; eauto.
  - eapply valid_dag_same_graph; [exact Hsame|done|].
    by apply valid_dag_reset.
  - by rewrite (sg_dag _ _ Hsame).
  - intros n nd. rewrite (sg_dag _ _ Hsame). apply Hall.
Qed.

Lemma checkInputNames_iff inputData m :
  checkInputNames inputData m = true
  ↔ JS.keys inputData ≡ₚ JS.keys (inputTensors m).
Proof.
  unfold checkInputNames, JS.isEqual, inputNames_of.
  rewrite bool_decide_eq_true. apply sort_eq_iff.
Qed.

Lemma checkInputValues_false inputData m :
  checkInputValues inputData m = false
  ↔ ∃ n, n ∈ JS.keys (inputTensors m)
         ∧ JS.instanceof_Float32Array (JS.get inputData n) = false.
Proof.
  unfold checkInputValues, JS.every. split.
  - intros Hf. apply not_true_iff_false in Hf.
    destruct (decide (Exists (λ n, JS.instanceof_Float32Array
                                     (JS.get inputData n) = false)
                        (inputNames_of m))) as [Hex|Hnex].
    + apply Exists_exists in Hex as (n & Hn & Hv). exists n.
      split; [by apply elem_of_inputNames|done].
    + destruct Hf. apply Is_true_true, forallb_True, Forall_forall.
      intros n Hn. apply Is_true_true.
      destruct (JS.instanceof_Float32Array (JS.get inputData n)) eqn:Hv;
        [done|].
      destruct Hnex. apply Exists_exists. eauto.
  - intros (n & Hn & Hv). apply not_true_iff_false.
    intros Hall%Is_true_true%forallb_True. rewrite Forall_forall in Hall.
    apply elem_of_inputNames in Hn. apply Hall, Is_true_true in Hn.
    congruence.
Qed.

End summary_facts.

Section flag_claims.
Context `{Layers}.
Implicit Types (m : Model) (inputData : JS.object JS.value).

(** C5: when the names of the supplied inputs are not a rearrangement of the
    declared input names, or a value under a declared name is not a
    Float32Array, [predict] fails with InvalidInputError and leaves the state
    as it was but for [isRunning], which is false; a later call does what it
    would have done without the failed one, and a later correct call on a
    valid DAG is resolved unless something throws during it. *)
Theorem predict_rejects_invalid_input (fuel : nat)
    (inputData : JS.object JS.value) (m : Model) :
  ¬ (JS.keys inputData ≡ₚ JS.keys (inputTensors m))
  ∨ (∃ n, n ∈ JS.keys (inputTensors m)
          ∧ JS.instanceof_Float32Array (JS.get inputData n) = false) →
  ∃ fault,
    predict fuel inputData m
    = Some (set_isRunning false m, Rejected [InvalidInputError fault])
    ∧ (∀ fuel' inputData',
         predict fuel' inputData' (set_isRunning false m)
         = predict fuel' inputData' m)
    ∧ (∀ fuel' inputData',
         valid_dag m → modelDAG m ≠ [] →
         checkInputNames inputData' m = true →
         checkInputValues inputData' m = true →
         enough_fuel m ≤ fuel' →
         ∃ m' o,
           predict fuel' inputData' (set_isRunning false m) = Some (m', o)
           ∧ (rejections m' = [] → ∃ out, o = Resolved out)).
Proof.
  intros Hbad.
  assert (∃ fault, predict fuel inputData m
                   = Some (set_isRunning false m,
                           Rejected [InvalidInputError fault]))
    as [fault Hfail].
  { unfold predict.
    change (checkInputNames inputData (set_isRunning true m))
      with (checkInputNames inputData m).
    change (checkInputValues inputData (set_isRunning true m))
      with (checkInputValues inputData m).
    destruct (checkInputNames inputData m) eqn:Hnames; simpl; [|eauto].
    destruct (checkInputValues inputData m) eqn:Hvalues; simpl; [|eauto].
    destruct Hbad as [Hperm|Hvalue].
    - destruct Hperm. by apply checkInputNames_iff.
    - apply checkInputValues_false in Hvalue. congruence. }
  exists fault. split; [exact Hfail|]. split; [done|].
  intros fuel' inputData' Hvalid Hne Hnames Hvalues Hfuel.
  change (predict fuel' inputData' (set_isRunning false m))
    with (predict fuel' inputData' m).
  destruct (predict_summary fuel' inputData' m Hvalid Hnames Hvalues Hfuel)
    as (m' & o & s & Hp & _ & _ & Hok).
  exists m', o. split; [done|]. intros Hnil.
  destruct (Hok Hnil) as (_ & _ & Hres). auto.
Qed.

(** C8: during a call on a valid DAG, the two flags of every layer are false
    after the reset; they agree in every state of the run; a step leaves them
    or turns both from false to true, so that no later state of the run has
    either of them false again; and unless something threw, both are true for
    every node when the call ends. *)
Theorem flags_become_true_together_once (fuel : nat)
    (inputData : JS.object JS.value) (m : Model) :
  valid_dag m →
  checkInputNames inputData m = true →
  checkInputValues inputData m = true →
  enough_fuel m ≤ fuel →
  ∃ m' o s,
    predict fuel inputData m = Some (m', o)
    ∧ rtc (sched_step inputData) (afterReset m) s
    ∧ modelLayersMap m' = modelLayersMap s
    ∧ (∀ n l, modelLayersMap (afterReset m) !! n = Some l →
         hasResult l = false ∧ visited l = false)
    ∧ (∀ s1, rtc (sched_step inputData) (afterReset m) s1 →
         flags_agree s1
         ∧ (∀ s2, sched_step inputData s1 s2 →
              ∀ n l1, modelLayersMap s1 !! n = Some l1 →
                ∃ l2, modelLayersMap s2 !! n = Some l2
                  ∧ ((hasResult l2 = hasResult l1
                      ∧ visited l2 = visited l1)
                     ∨ (hasResult l1 = false ∧ visited l1 = false
                        ∧ hasResult l2 = true ∧ visited l2 = true)))
         ∧ (∀ s2, rtc (sched_step inputData) s1 s2 → flags_grow s1 s2))
    ∧ (rejections m' = [] →
         ∀ n nd, JS.get (modelDAG m) n = Some nd →
           ∃ l, modelLayersMap m' !! n = Some l
                ∧ hasResult l = true ∧ visited l = true).
Proof.
  intros Hvalid Hnames Hvalues Hfuel.
  destruct (predict_summary fuel inputData m Hvalid Hnames Hvalues Hfuel)
    as (m' & o & s & Hp & Hsteps & Hlayers & Hok).
  exists m', o, s. split_and!; try done.
  - intros n l. simpl. rewrite lookup_fmap.
    destruct (modelLayersMap m !! n); [|done]. by intros [= <-].
  - intros s1 Hs1.
    assert (run_ok s1) as Hrun1.
    { eapply steps_run_ok; [exact Hs1|]. by apply run_ok_reset. }
    split_and!.
    + apply Hrun1.
    + intros s2 Hstep n l1 Hl1.
      pose proof (step_run_ok _ _ _ Hstep Hrun1) as (Hflags2 & _).
      destruct Hrun1 as (Hflags1 & _).
      destruct (step_flags_grow _ _ _ Hstep n l1 Hl1) as (l2 & Hl2 & Hh & Hv).
      exists l2. split; [done|].
      pose proof (Hflags1 n l1 Hl1) as Ha1.
      pose proof (Hflags2 n l2 Hl2) as Ha2.
      destruct (hasResult l1) eqn:Hh1.
      * left. rewrite <-Ha2, <-Ha1. by rewrite Hh.
      * destruct (hasResult l2) eqn:Hh2.
        -- right. by rewrite <-Ha1, <-Ha2.
        -- left. by rewrite <-Ha1, <-Ha2.
    + intros s2. apply steps_flags_grow.
  - intros Hnil n nd Hget. destruct (Hok Hnil) as ((Hflags & _) & Hall & _).
    specialize (Hall n nd Hget). unfold computed in Hall. rewrite Hlayers.
    destruct (modelLayersMap s !! n) as [l|] eqn:Hl; [|done].
    simpl in Hall. injection Hall as Hall. exists l. split; [done|].
    split; [done|]. by rewrite <-(Hflags n l Hl).
Qed.

End flag_claims.

Lemma predict_rejects_invalid_input_witness :
  ∃ fault,
    predict (H := Example.layers) 12 (Example.inputData "in_2")
      (Example.built false (Example.diamond "right"))
    = Some (set_isRunning false (Example.built false (Example.diamond "right")),
            Rejected [InvalidInputError fault]).
Proof.
  destruct (predict_rejects_invalid_input (H := Example.layers) 12
              (Example.inputData "in_2")
              (Example.built false (Example.diamond "right")))
    as (fault & Hfail & _).
  - left. vm_compute. intros Hp%Permutation_singleton_inj. discriminate.
  - exists fault. exact Hfail.
Defined.

Lemma flags_become_true_together_once_witness :
  ∃ m' o,
    predict (H := Example.layers) 8 (Example.inputData "input")
      (Example.built true Example.single) = Some (m', o)
    ∧ (rejections m' = [] →
         ∀ n nd,
           JS.get (modelDAG (Example.built true Example.single)) n = Some nd →
           ∃ l, modelLayersMap m' !! n = Some l
                ∧ hasResult l = true ∧ visited l = true).
Proof.
  destruct (flags_become_true_together_once (H := Example.layers) 8
              (Example.inputData "input") (Example.built true Example.single))
    as (m' & o & s & Hp & _ & _ & _ & _ & Hend).
  - apply (bool_decide_unpack _). vm_compute. reflexivity.
  - vm_compute. reflexivity.
  - vm_compute. reflexivity.
  - vm_compute. lia.
  - exists m', o. split; [exact Hp|exact Hend].
Defined.

(** ** Building the graph of a Sequential model *)

Lemma forEach_invariant {A St} (P : nat → St → Prop)
    (f : nat → A → St → completion St) (a : list A) (index : nat) (s s' : St) :
  (∀ i x s s', P i s → f i x s = Ok s' → P (S i) s') →
  P index s → forEach f a index s = Ok s' → P (index + length a) s'.
Proof.
  intros Hf. revert index s. induction a as [|x a IH]; intros index s Hs; simpl.
  - intros [= <-]. by rewrite Nat.add_0_r.
  - destruct (f index x s) as [s1|] eqn:Hx; simpl; [|done].
    intros Hrest. replace (index + S (length a)) with (S index + length a)
      by lia.
    eapply IH; [|exact Hrest]. by eapply Hf.
Qed.

Lemma dag_update_keys k f (dag dag' : JS.object Node.t) :
  dag_update k f dag = Ok dag' → JS.keys dag' = JS.keys dag.
Proof.
  unfold dag_update. destruct (JS.get dag k) as [nd|] eqn:Hk; [|done].
  intros [= <-]. apply keys_put_old. apply get_is_Some. eauto.
Qed.

Section builder_facts.
Context `{Layers} {regexp : JS.RegExp}.

(** After the first layer of a Sequential model, the input tensors are the
    one of the synthesized input node, named [input], and that node is in the
    graph. *)
Lemma createLayers_body_sequential modelConfig index layerDef m m' :
  createLayers_body "Sequential" modelConfig index layerDef m = Ok m' →
  (index = 0 → inputTensors m = [] → JS.keys (inputTensors m') = ["input"])
  ∧ (0 < index → inputTensors m' = inputTensors m)
  ∧ (index = 0 ∨ "input" ∈ JS.keys (modelDAG m) →
       "input" ∈ JS.keys (modelDAG m')).
Proof.
  unfold createLayers_body.
  destruct (implemented _); simpl; [|done].
  destruct (createInput "Sequential" index layerDef m) as [m1|] eqn:Hinput;
    simpl; [|done].
  destruct (createLayer _ _ _) as [layer|]; simpl; [|done].
  destruct (weightNames _) as [names|]; simpl; [|done].
  destruct (mapM _ names) as [ws|]; simpl; [|done].
  destruct (createEdges _ _ _ _ _) as [dag'|] eqn:Hedges; simpl; [|done].
  intros [= <-]. simpl.
  assert (JS.keys dag'
          = JS.keys (JS.put (modelDAG m1) (Keras.name (Keras.config layerDef))
                       {| Node.layerClass := Keras.class_name layerDef;
                          Node.name := Keras.name (Keras.config layerDef);
                          Node.inbound := []; Node.outbound := [] |}))
    as Hkeys.
  { revert Hedges. unfold createEdges. simpl. case_decide.
    - destruct (dag_update "input" _ _) as [dag1|] eqn:H1; simpl; [|done].
      intros H2. apply dag_update_keys in H1, H2. congruence.
    - destruct (modelConfig !! (index - 1)) as [prev|]; [|done].
      destruct (dag_update _ _ _) as [dag1|] eqn:H1; simpl; [|done].
      intros H2. apply dag_update_keys in H1, H2. congruence. }
  revert Hinput. unfold createInput. case_decide as H0.
  - destruct H0 as [_ ->].
    destruct (inputShape _) as [sh|]; simpl; [|done].
    intros [= <-]. cbn [modelDAG inputTensors set_inputTensors set_heap
                          set_modelDAG set_modelLayersMap] in *.
    split_and!.
    + intros _ ->. done.
    + lia.
    + intros _. rewrite Hkeys. apply elem_of_keys_put.
      apply get_is_Some. rewrite get_put_eq. eauto.
  - rewrite decide_False by (intros [? _]; done).
    intros [= <-]. split_and!.
    + intros ->. destruct H0. done.
    + done.
    + intros [->|Hin]; [by destruct H0|].
      rewrite Hkeys. by apply elem_of_keys_put.
Qed.

(** C10: the model built from a Sequential description with at least one
    layer has exactly one input tensor, named [input], for the input node
    that was synthesized; so the check of the input names of [predict]
    accepts an object exactly when its keys are [input] alone. *)
Theorem sequential_input_is_named_input (gpu pipeline layerCallPauses : bool)
    (model : Keras.model) (raw : JS.ArrayBuffer) (metadata : list Meta.entry)
    (m : Model) :
  Keras.model_class_name model = "Sequential" →
  Keras.model_config model ≠ [] →
  _createLayers (Model_new gpu pipeline layerCallPauses model raw metadata)
  = Ok m →
  JS.keys (inputTensors m) = ["input"]
  ∧ "input" ∈ JS.keys (modelDAG m)
  ∧ ∀ inputData : JS.object JS.value,
      checkInputNames inputData m = true ↔ JS.keys inputData = ["input"].
Proof.
  intros Hclass Hne. unfold _createLayers. simpl. rewrite Hclass.
  rewrite decide_True by done.
  destruct (Keras.model_config model) as [|layerDef rest] eqn:Hconfig;
    [done|].
  simpl.
  destruct (createLayers_body "Sequential" (layerDef :: rest) 0 layerDef _)
    as [m1|] eqn:H1; simpl; [|done].
  destruct (createLayers_body_sequential _ _ _ _ _ H1) as (Hk1 & _ & Hd1).
  intros Hrest.
  pose proof (forEach_invariant
                (λ i s, 0 < i ∧ JS.keys (inputTensors s) = ["input"]
                        ∧ "input" ∈ JS.keys (modelDAG s))
                (createLayers_body "Sequential" (layerDef :: rest))
                rest 1 m1 m) as Hinv.
  destruct Hinv as (_ & Hkeys & Hdag); [| |exact Hrest|].
  - intros i x s s' (Hi & Hk & Hd) Hbody.
    destruct (createLayers_body_sequential _ _ _ _ _ Hbody)
      as (_ & Hsame & Hd').
    split; [lia|]. split; [by rewrite Hsame|auto].
  - split; [lia|]. split; [by apply Hk1|auto].
  - split; [done|]. split; [done|]. intros inputData.
    rewrite checkInputNames_iff, Hkeys. apply Permutation_singleton_r.
Qed.

End builder_facts.

Lemma sequential_input_is_named_input_witness :
  JS.keys (inputTensors (Example.built false Example.sequential)) = ["input"]
  ∧ checkInputNames (Example.inputData "input")
      (Example.built false Example.sequential) = true
  ∧ checkInputNames (Example.inputData "act_1")
      (Example.built false Example.sequential) = false.
Proof.
  destruct (sequential_input_is_named_input (H := Example.layers) (regexp := Example.regexp)
              false false false Example.sequential [] []
              (Example.built false Example.sequential))
    as (Hkeys & _ & Hcheck).
  - reflexivity.
  - vm_compute. discriminate.
  - vm_compute. reflexivity.
  - split; [exact Hkeys|]. split.
    + apply Hcheck. reflexivity.
    + apply not_true_iff_false. intros Hc%Hcheck. vm_compute in Hc.
      discriminate.
Defined.

(** ** The copy before the call *)

Lemma foldl_add_length_ge (outs : list (list string)) (acc : nat) :
  acc ≤ foldl (λ num outbound, num + length outbound) acc outs.
Proof.
  revert acc. induction outs as [|o outs IH]; intros acc; simpl; [done|].
  etrans; [|apply IH]. lia.
Qed.

(** In a graph whose edges are recorded at both ends, the sum that decides
    [copyBeforeCall] counts the consumer itself: it is at least one for every
    node with an inbound edge. *)
Lemma copyBeforeCall_always m n nd :
  edges_ok m → JS.get (modelDAG m) n = Some nd → Node.inbound nd ≠ [] →
  copyBeforeCall_of (modelDAG m) (Node.inbound nd) = Some true.
Proof.
  intros Hok Hget Hne. destruct (Hok n nd Hget) as (_ & _ & Hinb & _).
  unfold copyBeforeCall_of.
  destruct (mapM (λ k, Node.outbound <$> JS.get (modelDAG m) k)
              (Node.inbound nd)) as [outs|] eqn:Houts.
  - assert (1 ≤ foldl (λ num outbound, num + length outbound) 0 outs)
      as Hsum.
    { destruct (Node.inbound nd) as [|k ks] eqn:Hks; [done|].
      apply mapM_Some in Houts.
      apply Forall2_cons_inv_l in Houts as (o & outs' & Ho & _ & ->).
      simpl. etrans; [|apply foldl_add_length_ge].
      destruct (Hinb k) as [Hn _]; [left|].
      unfold outbound_of in Hn. destruct (JS.get (modelDAG m) k); [|done].
      simpl in *. injection Ho as <-.
      destruct (Node.outbound t); [by apply elem_of_nil in Hn|simpl; lia]. }
    simpl. destruct (foldl _ 0 outs); [lia|done].
  - exfalso. apply eq_None_not_Some in Houts. apply Houts.
    apply mapM_is_Some, Forall_forall. intros k Hk.
    destruct (Hinb k Hk) as [Hn _].
    apply elem_of_outbound_of in Hn as (kd & Hkd & _). simpl.
    by rewrite Hkd.
Qed.

(** A host tensor is never handed over as it is when [copyBeforeCall] is
    set: a new tensor object is made. *)
Lemma regularLayerInput_copies `{Layers} currentLayer inboundLayer r x m :
  _fromPipeline x = false → r < length (heap m) →
  regularLayerInput currentLayer inboundLayer true r x m
  = (length (heap m),
     set_heap (heap m ++ [Tensor_new (data x) (shape x)]) m)
  ∧ length (heap m) ≠ r.
Proof.
  intros Hhost Hr. unfold regularLayerInput. rewrite Hhost. simpl.
  split; [done|lia].
Qed.

(** C4, on the code: a Sequential model with one layer, [input -> act_1].
    The input node feeds no other consumer and its result is a host tensor,
    yet [copyBeforeCall] is true for [act_1] and the tensor handed to its
    [call] is a new object (the next free address), not the result of the
    producer. *)
Theorem single_consumer_is_handed_a_copy :
  let m :=
    (loadInputs (H := Example.layers) (Example.inputData "input") ["input"]
       (afterReset (Example.built false Example.single))).1 in
  outbound_of m "input" = ["act_1"]
  ∧ inbound_of m "act_1" = ["input"]
  ∧ copyBeforeCall_of (modelDAG m) (inbound_of m "act_1") = Some true
  ∧ ∃ currentLayer inboundLayer r x,
      modelLayersMap m !! "act_1" = Some currentLayer
      ∧ modelLayersMap m !! "input" = Some inboundLayer
      ∧ result inboundLayer = Some r
      ∧ heap m !! r = Some x
      ∧ _fromPipeline x = false
      ∧ (regularLayerInput (H := Example.layers) currentLayer inboundLayer
           true r x m).1 = length (heap m)
      ∧ (regularLayerInput (H := Example.layers) currentLayer inboundLayer
           true r x m).1 ≠ r.
Proof.
  simpl. split; [reflexivity|]. split; [reflexivity|].
  split; [reflexivity|].
  eexists _, _, _, _. split; [vm_compute; reflexivity|].
  split; [vm_compute; reflexivity|]. split; [reflexivity|].
  split; [reflexivity|]. split; [reflexivity|]. split; [reflexivity|].
  vm_compute. discriminate.
Qed.

(** ** What is thrown and what is computed *)

Section call_soundness.
Context `{Layers}.
Implicit Types (m : Model) (inputData : JS.object JS.value).

Lemma same_layers_lookup m0 m n l :
  same_layers m0 m → modelLayersMap m !! n = Some l →
  ∃ l0, modelLayersMap m0 !! n = Some l0
        ∧ layerClass l0 = layerClass l ∧ name l0 = name l
        ∧ weights l0 = weights l.
Proof.
  intros Hs Hl. specialize (Hs n). rewrite Hl in Hs. simpl in Hs.
  destruct (modelLayersMap m0 !! n) as [l0|]; [|done].
  exists l0. split; [done|]. by injection Hs as -> -> _ ->.
Qed.

Lemma same_layers_refl m : same_layers m m.
Proof. by intros n. Qed.

Lemma same_layers_trans m1 m2 m3 :
  same_layers m1 m2 → same_layers m2 m3 → same_layers m1 m3.
Proof. intros H12 H23 n. by rewrite H23, H12. Qed.

Lemma same_layers_reset m : same_layers m (afterReset m).
Proof.
  intros n. simpl. rewrite lookup_fmap.
  by destruct (modelLayersMap m !! n).
Qed.

Lemma call_outcome_thrown m0 m n l e :
  same_layers m0 m → modelLayersMap m !! n = Some l →
  call_outcome l (Throw e) → thrown m0 e.
Proof.
  intros Hs Hl (xs & Hxs & Hcall).
  destruct (same_layers_lookup m0 m n l Hs Hl) as (l0 & Hl0 & Hc & Hn & Hw).
  exists n, l0, xs. by rewrite Hc, Hn, Hw.
Qed.

Lemma call_outcome_returned m0 m n l a :
  same_layers m0 m → modelLayersMap m !! n = Some l →
  call_outcome l (Ok a) → returned m0 n.
Proof.
  intros Hs Hl (xs & Hxs & y & Hcall).
  destruct (same_layers_lookup m0 m n l Hs Hl) as (l0 & Hl0 & Hc & Hn & Hw).
  exists l0, xs, y. by rewrite Hc, Hn, Hw.
Qed.

(** A call on allocated tensors ends as the layer's [call] does. *)
Lemma invoke_sound currentLayer inputs m :
  inputs ≠ [] → Forall (λ a, a < length (heap m)) inputs →
  call_outcome currentLayer (invoke currentLayer inputs m).2.
Proof.
  intros Hne Hall. unfold invoke.
  destruct (mapM (heap m !!.) inputs) as [xs|] eqn:Hxs.
  - assert (xs ≠ []) as Hxne.
    { apply mapM_Some in Hxs. intros ->.
      by apply Forall2_nil_inv_r in Hxs. }
    exists xs. split; [done|].
    destruct (call _ _ _ xs) as [y|e] eqn:Hcall; simpl; eauto.
  - exfalso. apply eq_None_not_Some in Hxs. apply Hxs.
    apply mapM_is_Some. eapply Forall_impl; [exact Hall|].
    intros a Ha. by apply lookup_lt_is_Some_2.
Qed.

Lemma regularLayerCall_sound currentLayer inboundLayer copy r m :
  result inboundLayer = Some r → r < length (heap m) →
  call_outcome currentLayer
    (_regularLayerCall currentLayer (Some inboundLayer) copy m).2.
Proof.
  intros Hr Hlt. unfold _regularLayerCall. rewrite Hr.
  destruct (lookup_lt_is_Some_2 _ _ Hlt) as [x Hx]. rewrite Hx.
  destruct (regularLayerInput_frame currentLayer inboundLayer copy r x m Hlt)
    as (h & Hm1 & Ha).
  destruct (regularLayerInput _ _ _ _ _ _) as [a m1]. simpl in *. subst m1.
  apply invoke_sound; [done|]. by constructor.
Qed.

(** The tensors handed to a Merge layer are allocated, one for each
    inbound layer. *)
Lemma mergeLayerInput_bound convert copy
    (zs : list (Layer * (nat * Tensor))) acc m0 :
  Forall (λ a, a < length (heap m0)) acc →
  Forall (λ z, z.2.1 < length (heap m0)) zs →
  Forall (λ a, a < length
                     (heap (foldl (mergeLayerInput convert copy)
                              (acc, m0) zs).2))
    (foldl (mergeLayerInput convert copy) (acc, m0) zs).1
  ∧ length (foldl (mergeLayerInput convert copy) (acc, m0) zs).1
    = length acc + length zs
  ∧ length (heap m0)
    ≤ length (heap (foldl (mergeLayerInput convert copy) (acc, m0) zs).2).
Proof.
  revert acc m0. induction zs as [|[l [r x]] zs IH]; intros acc m0 Hacc Hzs.
  - simpl. split; [done|]. split; [lia|done].
  - apply Forall_cons in Hzs as [Hr Hzs]. simpl in Hr. simpl.
    assert (∃ a m', (if convert
                     then if _fromPipeline x
                          then alloc (transferFromPipeline (layerClass l)
                                        (name l) x) m0
                          else if copy
                               then alloc (Tensor_new (data x) (shape x)) m0
                               else (r, m0)
                     else if copy then alloc (Tensor_weblas_copy x) m0
                          else (r, m0)) = (a, m')
                    ∧ a < length (heap m')
                    ∧ length (heap m0) ≤ length (heap m'))
      as (a & m' & -> & Ha & Hle).
    { repeat case_match; unfold alloc; eexists _, _;
        (split; [done|]); simpl; rewrite ?length_app; simpl; lia. }
    destruct (IH (acc ++ [a]) m') as (Hall & Hlen & Hheap).
    + apply Forall_app. split; [|by constructor].
      eapply Forall_impl; [exact Hacc|]. simpl. lia.
    + eapply Forall_impl; [exact Hzs|]. simpl. lia.
    + split; [done|]. rewrite Hlen, length_app. simpl. split; lia.
Qed.

Lemma mergeLayerCall_sound currentLayer inboundLayers copy m :
  inboundLayers ≠ [] →
  Forall (λ l, ∃ a, result l = Some a ∧ a < length (heap m)) inboundLayers →
  call_outcome currentLayer
    (_mergeLayerCall currentLayer inboundLayers copy m).2.
Proof.
  intros Hne Hall. unfold _mergeLayerCall.
  destruct (mapM _ inboundLayers) as [inputs|] eqn:Hin.
  2:{ exfalso. apply eq_None_not_Some in Hin. apply Hin.
      apply mapM_is_Some. eapply Forall_impl; [exact Hall|].
      intros l (a & Hr & Ha). simpl. rewrite Hr. simpl.
      destruct (lookup_lt_is_Some_2 _ _ Ha) as [x ->]. simpl. eauto. }
  cbv zeta. apply mapM_Some in Hin.
  match goal with
  | |- context [foldl (mergeLayerInput ?cv copy) ([], m) ?z] =>
      destruct (mergeLayerInput_bound cv copy z [] m)
        as (Hb & Hlen & _);
      [done| |destruct (foldl (mergeLayerInput cv copy) ([], m) z)
                as [inputs' m1]]
  end.
  - apply Forall_forall. intros [l [r x]] Hz. simpl.
    apply elem_of_zip_with in Hz as (l' & rx & [= <- <-] & Hl & Hrx).
    apply list_elem_of_lookup_1 in Hrx as [i Hi].
    destruct (Forall2_lookup_r _ _ _ _ _ Hin Hi) as (l0 & _ & Hl0).
    destruct (result l0) as [r0|]; simpl in Hl0; [|done].
    destruct (heap m !! r0) as [x0|] eqn:Hx0; simpl in Hl0; [|done].
    injection Hl0 as <- <-. by eapply lookup_lt_Some.
  - simpl in *. apply invoke_sound; [|done].
    intros ->. simpl in Hlen. rewrite length_zip_with in Hlen.
    apply Forall2_length in Hin. destruct inboundLayers; [done|].
    rewrite <-Hin in Hlen. simpl in Hlen. lia.
Qed.

(** A visit of a node of a valid DAG throws only what the layer throws,
    and gives the node a result only when the layer has returned. *)
Lemma computeNode_sound m0 node nd m :
  edges_ok m → results_ok m →
  JS.get (modelDAG m) node = Some nd → Node.layerClass nd ≠ "InputLayer" →
  calls_sound m0 m → calls_sound m0 (computeNode node nd m).1.
Proof.
  intros Hok Hres Hget Hcls (Hs & Hrej & Hcomp).
  destruct (Hok node nd Hget) as (Hinput & [cur Hcur] & Hinb & _).
  assert (Node.inbound nd ≠ []) as Hne.
  { intros Hnil. apply Hcls. by apply Hinput. }
  unfold computeNode. rewrite Hcur.
  destruct (visited cur); [done|].
  destruct (mapM (modelLayersMap m !!.) (Node.inbound nd))
    as [inboundLayers|] eqn:Hin.
  2:{ exfalso. apply eq_None_not_Some in Hin. apply Hin.
      apply mapM_is_Some, Forall_forall. intros k Hk.
      by destruct (Hinb k Hk). }
  destruct (JS.every inboundLayers hasResult) eqn:Hall; simpl; [|done].
  rewrite (copyBeforeCall_always m node nd Hok Hget Hne).
  apply mapM_Some in Hin.
  assert (Forall (λ l, ∃ a, result l = Some a ∧ a < length (heap m))
            inboundLayers) as Hready.
  { apply Forall_forall. intros l Hl.
    apply list_elem_of_lookup_1 in Hl as [i Hi].
    destruct (Forall2_lookup_r _ _ _ _ _ Hin Hi) as (k & _ & Hk).
    apply (Hres k l Hk). unfold JS.every in Hall.
    rewrite forallb_forall in Hall. apply Hall, list_elem_of_In.
    by eapply list_elem_of_lookup_2. }
  assert (inboundLayers ≠ []) as Hne'.
  { intros ->. by apply Forall2_nil_inv_r in Hin. }
  assert (∃ m1 r h c,
            (if decide (Node.layerClass nd = "Merge")
             then _mergeLayerCall cur inboundLayers true m
             else _regularLayerCall cur (head inboundLayers) true m)
            = (m1, r)
            ∧ m1 = extend h c m ∧ call_outcome cur r)
    as (m1 & r & h & c & -> & -> & Hout).
  { case_decide.
    - destruct (mergeLayerCall_frame cur inboundLayers true m)
        as (h & c & Hf & _).
      pose proof (mergeLayerCall_sound cur inboundLayers true m Hne' Hready)
        as Hout.
      destruct (_mergeLayerCall cur inboundLayers true m) as [m1 r].
      simpl in *. by exists m1, r, h, c.
    - destruct inboundLayers as [|l0 ls]; [done|]. cbn [head].
      apply Forall_cons in Hready as [(a & Hr & Ha) _].
      destruct (regularLayerCall_frame cur (Some l0) true m)
        as (h & c & Hf & _).
      pose proof (regularLayerCall_sound cur l0 true a m Hr Ha) as Hout.
      destruct (_regularLayerCall cur (Some l0) true m) as [m1 r].
      simpl in *. by exists m1, r, h, c. }
  destruct r as [a|e]; simpl.
  - split_and!.
    + intros n. simpl. destruct (decide (node = n)) as [<-|Hnn].
      * rewrite lookup_insert_eq, <-Hs, Hcur. done.
      * rewrite lookup_insert_ne by done. apply Hs.
    + done.
    + intros n Hn.
      eapply (computed_insert (extend h c m) _ node cur a n) in Hn;
        [|done|done].
      destruct Hn as [->|Hn]; [|by apply Hcomp].
      by eapply call_outcome_returned.
  - split_and!.
    + done.
    + simpl. apply Forall_app. split; [done|]. constructor; [|done].
      by eapply call_outcome_thrown.
    + done.
Qed.

Lemma computeNode_ok m0 node nd m :
  JS.get (modelDAG m) node = Some nd → Node.layerClass nd ≠ "InputLayer" →
  traversal_ok m0 m →
  traversal_ok m0 (computeNode node nd m).1
  ∧ modelDAG (computeNode node nd m).1 = modelDAG m.
Proof.
  intros Hget Hcls (Hok & Hrun & Hlog & Hres & Hsound & Hknown).
  pose proof (step_node [] node nd m Hget) as Hstep.
  pose proof (step_same_graph _ _ _ Hstep) as Hsame.
  destruct (step_results _ _ _ Hstep Hrun) as [Hlog' Hres'].
  assert (timers (computeNode node nd m).1 = timers m) as Ht.
  { by destruct (computeNode_cases node nd m). }
  split; [|apply Hsame]. split_and!.
  - by eapply edges_ok_same_graph.
  - by eapply step_run_ok.
  - auto.
  - auto.
  - by apply computeNode_sound.
  - rewrite Ht. intros n Hn. unfold known in Hknown.
    rewrite (sg_dag _ _ Hsame). by apply Hknown.
Qed.

Lemma outbound_known m n nd :
  edges_ok m → JS.get (modelDAG m) n = Some nd → known m (Node.outbound nd).
Proof.
  intros Hok Hget k Hk. destruct (Hok n nd Hget) as (_ & _ & _ & Hout).
  destruct (elem_of_inbound_of m k n (Hout k Hk)) as (kd & -> & _). eauto.
Qed.

Lemma traversal_ok_park m0 m outbound :
  traversal_ok m0 m → known m outbound →
  traversal_ok m0 (set_timers (timers m ++ [outbound]) m).
Proof.
  intros (Hok & Hrun & Hlog & Hres & Hsound & Hknown) Hout.
  split_and!; try done.
  intros n. simpl. rewrite concat_app.
  intros [Hn|Hn]%elem_of_app; [by apply Hknown|].
  simpl in Hn. rewrite app_nil_r in Hn. by apply Hout.
Qed.

Lemma traversal_ok_resume m0 m outbound rest :
  timers m = outbound :: rest → traversal_ok m0 m →
  traversal_ok m0 (set_timers rest m) ∧ known m outbound.
Proof.
  intros Ht (Hok & Hrun & Hlog & Hres & Hsound & Hknown).
  rewrite Ht in Hknown. simpl in Hknown. split.
  - split_and!; try done. intros n Hn. apply Hknown, elem_of_app. by right.
  - intros n Hn. apply Hknown, elem_of_app. by left.
Qed.

(** The traversal of a valid DAG keeps what is thrown and what is computed
    tied to the layers. *)
Lemma traverseDAG_ok m0 fuel nodes m m' :
  traversal_ok m0 m → known m nodes →
  _traverseDAG fuel nodes m = Some m' → traversal_ok m0 m'.
Proof.
  revert nodes m m'.
  induction fuel as [|fuel IH]; intros nodes m m' Hinv Hnodes; [done|].
  destruct nodes as [|node [|node' nodes]].
  - simpl. by intros [= <-].
  - simpl. destruct (Hnodes node) as [nd Hnd]; [left|]. rewrite Hnd.
    assert (known m (Node.outbound nd)) as Hout.
    { apply (outbound_known m node nd); [apply Hinv|done]. }
    destruct (decide _) as [Hcls|Hcls].
    + destruct (computeNode_ok m0 node nd m Hnd Hcls Hinv) as (Hinv1 & Hdag1).
      destruct (computeNode node nd m) as [m1 go]. simpl in *.
      assert (known m1 (Node.outbound nd)) as Hout1.
      { intros k Hk. rewrite Hdag1. by apply Hout. }
      destruct go; [|by intros [= <-]].
      destruct (layerCallPauses m1).
      * intros [= <-]. by apply traversal_ok_park.
      * by apply IH.
    + by apply IH.
  - change (_traverseDAG (S fuel) (node :: node' :: nodes) m)
      with (foldl (λ acc node, acc ≫= _traverseDAG fuel [node]) (Some m)
              (node :: node' :: nodes)).
    revert Hnodes. generalize (node :: node' :: nodes).
    clear node node' nodes. intros nodes. revert m Hinv.
    induction nodes as [|node nodes IHn]; intros m Hinv Hnodes; simpl.
    + by intros [= <-].
    + destruct (_traverseDAG fuel [node] m) as [m1|] eqn:Hm1; simpl;
        [|by rewrite foldl_mbind_None].
      apply IHn.
      * eapply IH; [done| |exact Hm1].
        intros k ->%list_elem_of_singleton. apply Hnodes. left.
      * intros k Hk. pose proof (traverseDAG_steps [] _ _ _ _ Hm1) as Hsteps.
        rewrite (sg_dag _ _ (steps_same_graph _ _ _ Hsteps)).
        apply Hnodes. by right.
Qed.

Lemma runTimers_ok m0 fuel steps m m' :
  traversal_ok m0 m → runTimers fuel steps m = Some m' → traversal_ok m0 m'.
Proof.
  revert m. induction steps as [|steps IH]; intros m Hinv; simpl.
  - destruct (timers m); [by intros [= <-]|done].
  - destruct (timers m) as [|outbound rest] eqn:Ht; [by intros [= <-]|].
    destruct (_traverseDAG fuel outbound _) as [m1|] eqn:Htr; [|done]. simpl.
    apply IH.
    destruct (traversal_ok_resume m0 m outbound rest Ht Hinv) as [Hinv' Hout].
    eapply traverseDAG_ok; [exact Hinv'| |exact Htr]. exact Hout.
Qed.

(** Loading an input of a valid DAG throws only what the input layer
    throws. *)
Lemma loadInput_sound m0 inputData inputName m a d :
  JS.get (inputTensors m) inputName = Some a → a < length (heap m) →
  JS.get inputData inputName = Some (JS.VFloat32Array d) →
  is_Some (modelLayersMap m !! inputName) →
  calls_sound m0 m →
  match (loadInput inputData inputName m).2 with
  | Ok _ => calls_sound m0 (loadInput inputData inputName m).1
  | Throw e => thrown m0 e
  end.
Proof.
  intros Ha Hlt Hd [l Hl] (Hs & Hrej & Hcomp). unfold loadInput.
  rewrite Ha. simpl. destruct (lookup_lt_is_Some_2 _ _ Hlt) as [t Ht].
  rewrite Ht. simpl. rewrite Hd, Hl.
  destruct (same_layers_lookup m0 m inputName l Hs Hl)
    as (l0 & Hl0 & Hc & Hn & Hw).
  destruct (call _ _ _ _) as [y|e] eqn:Hcall; simpl.
  - split_and!.
    + intros n. simpl. destruct (decide (inputName = n)) as [<-|Hnn].
      * rewrite lookup_insert_eq, <-Hs, Hl. done.
      * rewrite lookup_insert_ne by done. apply Hs.
    + done.
    + intros n. unfold computed. simpl.
      destruct (decide (inputName = n)) as [<-|Hnn].
      * intros _. exists l0, [replaceTensorData t d], y.
        rewrite Hc, Hn, Hw. done.
      * rewrite lookup_insert_ne by done. apply Hcomp.
  - exists inputName, l0, [replaceTensorData t d]. by rewrite Hc, Hn, Hw.
Qed.

Lemma loadInputs_sound m0 inputData inputNames m :
  (∀ n, n ∈ inputNames →
     ∃ a d, JS.get (inputTensors m) n = Some a ∧ a < length (heap m)
            ∧ JS.get inputData n = Some (JS.VFloat32Array d)
            ∧ is_Some (modelLayersMap m !! n)) →
  calls_sound m0 m →
  match (loadInputs inputData inputNames m).2 with
  | Ok _ => calls_sound m0 (loadInputs inputData inputNames m).1
  | Throw e => thrown m0 e
  end.
Proof.
  revert m. induction inputNames as [|inputName rest IH];
    intros m Hall Hsound; simpl; [done|].
  destruct (Hall inputName) as (a & d & Ha & Hlt & Hd & Hl); [left|].
  pose proof (loadInput_sound m0 inputData inputName m a d Ha Hlt Hd Hl Hsound)
    as Hone.
  pose proof (step_same_graph _ _ _ (step_load inputData inputName m))
    as Hsame.
  destruct (loadInput inputData inputName m) as [m1 [[]|e]]; simpl in *;
    [|done].
  apply IH; [|done]. intros n Hn.
  destruct (Hall n) as (a' & d' & Ha' & Hlt' & Hd' & [l' Hl']); [by right|].
  exists a', d'. rewrite (sg_inputs _ _ Hsame). split; [done|].
  split; [pose proof (sg_heap _ _ Hsame); lia|]. split; [done|].
  pose proof (sg_names _ _ Hsame n) as Hnames. rewrite Hl' in Hnames.
  by destruct (modelLayersMap m1 !! n).
Qed.

Lemma thrown_not_return m e : layers_return m → ¬ thrown m e.
Proof.
  intros Hret (n & l & xs & Hl & Hxs & Hcall).
  destruct (Hret n l xs Hl Hxs) as [y Hy]. congruence.
Qed.


(** A call of [predict] on a valid DAG with input that passes the checks
    ends in one of two ways: rejected with what layers have thrown, and then
    [isRunning] is left true; or with every node computed by a layer that has
    returned, each computable node called once. *)
Lemma predict_sound fuel inputData m :
  valid_dag m →
  checkInputNames inputData m = true →
  checkInputValues inputData m = true →
  enough_fuel m ≤ fuel →
  ∃ m' o, predict fuel inputData m = Some (m', o)
    ∧ ((∃ reasons, o = Rejected reasons ∧ reasons ≠ []
          ∧ Forall (thrown m) reasons ∧ isRunning m' = true)
       ∨ ((∀ n, computed m' n → returned m n)
          ∧ ∀ n nd, JS.get (modelDAG m) n = Some nd →
              computed m' n
              ∧ (Node.layerClass nd ≠ "InputLayer" →
                   length (filter (n =.) (calls m')) = 1))).
Proof.
  intros Hvalid Hnames Hvalues Hfuel.
  rewrite (predict_checked fuel inputData m Hnames Hvalues).
  set (m1 := afterReset m) in *.
  pose proof (valid_dag_reset m Hvalid) as Hvalid1. fold m1 in Hvalid1.
  pose proof (valid_dag_edges m1 Hvalid1) as Hok1.
  pose proof (run_ok_reset m Hvalid) as Hrun1. fold m1 in Hrun1.
  assert (calls_sound m m1) as Hsound1.
  { split; [apply same_layers_reset|]. split; [constructor|].
    intros n Hn. by destruct (not_computed_reset m n). }
  assert (∀ n, n ∈ inputNames_of m1 →
            ∃ a d, JS.get (inputTensors m1) n = Some a
                   ∧ a < length (heap m1)
                   ∧ JS.get inputData n = Some (JS.VFloat32Array d)
                   ∧ is_Some (modelLayersMap m1 !! n)) as Hinputs.
  { intros n Hn. pose proof Hn as Hkey. apply elem_of_inputNames in Hkey.
    apply get_is_Some in Hkey as [a Ha].
    pose proof Hvalid1 as (_ & _ & _ & Hinp & _).
    rewrite Forall_forall in Hinp.
    destruct (Hinp (n, a)) as [Hk Hlt]; [by apply get_Some_elem_of|].
    simpl in Hk, Hlt. apply get_is_Some in Hk as [nd Hnd].
    destruct (Hok1 n nd Hnd) as (_ & Hl & _).
    unfold checkInputValues, JS.every in Hvalues.
    rewrite forallb_forall in Hvalues.
    specialize (Hvalues n (proj1 (list_elem_of_In _ _) Hn)).
    destruct (JS.get inputData n) as [[d| |]|]; try done.
    by exists a, d. }
  pose proof (loadInputs_sound m inputData (inputNames_of m1) m1
                Hinputs Hsound1) as Hloaded.
  assert (rtc (sched_step inputData) m1
            (loadInputs inputData (inputNames_of m1) m1).1) as Hsteps12
    by apply loadInputs_steps.
  destruct (loadInputs_frame inputData (inputNames_of m1) m1)
    as (Hlwr2 & Hrej2 & Ht2 & _).
  destruct (loadInputs _ _ _) as [m2 [[]|e]] eqn:Hload; simpl in *.
  2:{ eexists _, _. split; [done|]. left. exists [e].
      split; [done|]. split; [done|]. split; [by constructor|]. simpl.
      by rewrite (sg_running _ _ (steps_same_graph _ _ _ Hsteps12)). }
  destruct (traversal_run fuel inputData m m2 Hvalid Hfuel Hload)
    as (m3 & m4 & Hm3 & Hm4 & Hsteps & Hrun & Hlog & _ & _ & Hall).
  fold m1 in Hm3, Hsteps. rewrite Hm3. simpl. rewrite Hm4. simpl.
  pose proof (steps_same_graph _ _ _ Hsteps12) as Hsame12.
  assert (traversal_ok m m2) as Hinv2.
  { assert (results_logged m1) as Hlog1.
    { intros n Hn. by destruct (not_computed_reset m n). }
    assert (results_ok m1) as Hres1.
    { intros n l. unfold m1. simpl. rewrite lookup_fmap.
      destruct (modelLayersMap m !! n); [|done]. by intros [= <-]. }
    destruct (steps_results _ _ _ Hsteps12 Hrun1 Hlog1 Hres1)
      as [Hlog2 Hres2].
    split_and!; try done.
    - by eapply edges_ok_same_graph.
    - by eapply steps_run_ok.
    - rewrite Ht2. destruct Hvalid as (_ & _ & _ & _ & ->).
      by intros n ?%elem_of_nil. }
  assert (known m2 (inputNames_of m1)) as Hknown.
  { intros n Hn. rewrite (sg_dag _ _ Hsame12).
    destruct (Hinputs n Hn) as (a & _ & Ha & _).
    pose proof Hvalid1 as (_ & _ & _ & Hinp & _).
    rewrite Forall_forall in Hinp.
    destruct (Hinp (n, a)) as [Hk _]; [by apply get_Some_elem_of|].
    by apply get_is_Some. }
  pose proof (traverseDAG_ok m fuel _ m2 m3 Hinv2 Hknown Hm3) as Hinv3.
  pose proof (runTimers_ok m fuel fuel m3 m4 Hinv3 Hm4)
    as (_ & _ & _ & _ & (_ & Hthrown & Hreturned) & _).
  destruct (rejections m4) as [|e reasons] eqn:Hrej.
  - exists (collectOutputs m4).1, (collectOutputs m4).2.
    split; [by destruct (collectOutputs m4)|]. right.
    specialize (Hall eq_refl).
    assert ((∀ n, computed m4 n → returned m n)
            ∧ ∀ n nd, JS.get (modelDAG m) n = Some nd →
                computed m4 n
                ∧ (Node.layerClass nd ≠ "InputLayer" →
                     length (filter (n =.) (calls m4)) = 1)) as Hgoal.
    { split; [done|]. intros n nd Hget. split; [by eapply Hall|].
      intros Hcls. destruct Hrun as (_ & _ & Hnd & _ & Hcalls).
      rewrite (Hcalls Hrej). apply filter_eq_once; [done|].
      destruct (Hlog n) as [?|Hin]; [by eapply Hall|done|].
      pose proof (steps_same_graph _ _ _ Hsteps) as Hsame.
      rewrite (sg_inputs _ _ Hsame) in Hin.
      destruct (valid_dag_node m n nd Hvalid Hget) as (_ & _ & _ & Hc & _).
      destruct Hcls. by apply Hc. }
    destruct (collectOutputs_state m4) as [->| ->]; exact Hgoal.
  - eexists _, _. split; [done|]. left. exists (e :: reasons).
    split; [done|]. split; [done|]. split; [done|].
    by rewrite (sg_running _ _ (steps_same_graph _ _ _ Hsteps)).
Qed.

(** C1: for every valid DAG whose layers do not throw and every call of
    [predict] whose input passes the checks, the call ends, every node ends
    it with [hasResult] true, and the compute operation of every computable
    node was invoked exactly once. *)
Theorem predict_computes_every_node_once (fuel : nat)
    (inputData : JS.object JS.value) (m : Model) :
  valid_dag m →
  checkInputNames inputData m = true →
  checkInputValues inputData m = true →
  enough_fuel m ≤ fuel →
  layers_return m →
  ∃ m' o, predict fuel inputData m = Some (m', o)
    ∧ ∀ n nd, JS.get (modelDAG m) n = Some nd →
        computed m' n
        ∧ (Node.layerClass nd ≠ "InputLayer" →
             length (filter (n =.) (calls m')) = 1).
Proof.
  intros Hvalid Hnames Hvalues Hfuel Hreturn.
  destruct (predict_sound fuel inputData m Hvalid Hnames Hvalues Hfuel)
    as (m' & o & Hp & [(reasons & _ & Hne & Hthrown & _)|[_ Hall]]).
  - destruct reasons as [|e reasons]; [done|].
    apply Forall_cons in Hthrown as [He _].
    by destruct (thrown_not_return m e Hreturn).
  - by exists m', o.
Qed.


End call_soundness.

(** The diamond [in_1 -> left, right -> sum], run without and with a layer
    that throws. *)

Lemma predict_computes_every_node_once_witness :
  let m := Example.built false (Example.diamond "right") in
  ∃ m' o,
    predict (H := Example.layers) 12 (Example.inputData "in_1") m
    = Some (m', o)
    ∧ ∀ n nd, JS.get (modelDAG m) n = Some nd →
        computed m' n
        ∧ (Node.layerClass nd ≠ "InputLayer" →
             length (filter (n =.) (calls m')) = 1).
Proof.
  intros m.
  assert (map_Forall (λ _ l, name l ≠ "broken") (modelLayersMap m))
    as Hnames by (apply (bool_decide_unpack _); vm_compute; reflexivity).
  apply (predict_computes_every_node_once (H := Example.layers) 12
           (Example.inputData "in_1") m).
  - apply (bool_decide_unpack _). vm_compute. reflexivity.
  - vm_compute. reflexivity.
  - vm_compute. reflexivity.
  - vm_compute. lia.
  - intros n l xs Hl Hxs. simpl.
    rewrite decide_False by exact (Hnames n l Hl).
    destruct xs as [|x xs]; [done|]. eauto.
Defined.


(** ** What [predict] returns *)


Section return_facts.
Context `{Layers}.
Implicit Types (m : Model) (inputData : JS.object JS.value).


Lemma valid_dag_values m nd :
  valid_dag m → nd ∈ JS.values (modelDAG m) →
  JS.get (modelDAG m) (Node.name nd) = Some nd.
Proof.
  intros Hvalid ([n nd'] & -> & Hin)%list_elem_of_fmap. simpl.
  pose proof Hvalid as (Hnd & _).
  pose proof (elem_of_get _ _ _ Hnd Hin) as Hget.
  destruct (valid_dag_node m n nd' Hvalid Hget) as (_ & -> & _). done.
Qed.



End return_facts.

(** ** The chain built from a Sequential description has one output *)

Lemma forEach_invariant_lookup {A St} (P : nat → St → Prop)
    (f : nat → A → St → completion St) (a : list A) (index : nat) (s s' : St) :
  (∀ j x s s', a !! j = Some x → P (index + j) s →
     f (index + j) x s = Ok s' → P (S (index + j)) s') →
  P index s → forEach f a index s = Ok s' → P (index + length a) s'.
Proof.
  revert index s. induction a as [|x a IH]; intros index s Hf Hs; simpl.
  - intros [= <-]. by rewrite Nat.add_0_r.
  - destruct (f index x s) as [s1|] eqn:Hx; simpl; [|done].
    intros Hrest. replace (index + S (length a)) with (S index + length a)
      by lia.
    eapply IH; [| |exact Hrest].
    + intros j y t t' Hj Ht Hy.
      replace (S index + j) with (index + S j) in * by lia.
      by eapply Hf.
    + specialize (Hf 0 x s s1). rewrite Nat.add_0_r in Hf. by apply Hf.
Qed.

Lemma dag_update_get k f (dag dag' : JS.object Node.t) k' :
  dag_update k f dag = Ok dag' →
  JS.get dag' k' = if decide (k = k') then f <$> JS.get dag k
                   else JS.get dag k'.
Proof.
  unfold dag_update. destruct (JS.get dag k) as [nd|] eqn:Hk; [|done].
  intros [= <-]. case_decide as Hkk.
  - subst k'. by rewrite get_put_eq.
  - by rewrite get_put_ne.
Qed.

Lemma filter_none {A} (P : A → Prop) `{∀ x, Decision (P x)} (l : list A) :
  Forall (λ x, ¬ P x) l → filter P l = [].
Proof.
  induction 1 as [|x l Hx _ IH]; [done|].
  by rewrite filter_cons, decide_False.
Qed.

Lemma single_output_from_elems (dag : JS.object Node.t) (n0 : string) :
  NoDup (JS.keys dag) →
  (∀ n nd, (n, nd) ∈ dag → Node.outbound nd = [] → n = n0) →
  length (filter (λ nd, isOutput nd) (JS.values dag)) ≤ 1.
Proof.
  unfold JS.keys, JS.values.
  induction dag as [|[n nd] dag IH]; simpl; [lia|].
  intros [Hn Hnd]%NoDup_cons Hone. rewrite filter_cons.
  case_decide as Hout.
  - rewrite filter_none; [simpl; lia|].
    apply Is_true_true, bool_decide_eq_true in Hout.
    pose proof (Hone n nd (list_elem_of_here _ _) Hout) as ->.
    apply Forall_forall.
    intros nd' ([n' nd''] & -> & Hin)%list_elem_of_fmap Hout'. simpl in *.
    apply Is_true_true, bool_decide_eq_true in Hout'.
    apply Hn. apply list_elem_of_fmap. exists (n', nd''). split; [|done].
    simpl. symmetry. apply (Hone n' nd''); [by right|done].
  - apply IH; [done|]. intros n1 nd1 Hin. apply Hone. by right.
Qed.

Lemma single_output_from_keys (dag : JS.object Node.t) (n0 : string) :
  NoDup (JS.keys dag) →
  (∀ n nd, JS.get dag n = Some nd → Node.outbound nd = [] → n = n0) →
  length (filter (λ nd, isOutput nd) (JS.values dag)) ≤ 1.
Proof.
  intros Hnd Hone. apply (single_output_from_elems dag n0 Hnd).
  intros n nd Hin. apply Hone. by apply elem_of_get.
Qed.

Section chain_facts.
Context `{Layers} {regexp : JS.RegExp}.

Lemma push_outbound_not_output n nd :
  Node.outbound (Node.push_outbound n nd) ≠ [].
Proof. simpl. by intros [? ?]%app_nil. Qed.

(** One layer of a Sequential description: afterwards no node but the one of
    this layer is without outbound edge. *)
Lemma createLayers_body_sequential_dag modelConfig index layerDef m m' :
  createLayers_body "Sequential" modelConfig index layerDef m = Ok m' →
  NoDup (JS.keys (modelDAG m)) →
  (index = 0 → modelDAG m = []) →
  (0 < index →
   ∃ prevDef, modelConfig !! (index - 1) = Some prevDef
     ∧ ∀ n nd, JS.get (modelDAG m) n = Some nd → Node.outbound nd = [] →
         n = Keras.name (Keras.config prevDef)) →
  NoDup (JS.keys (modelDAG m'))
  ∧ ∀ n nd, JS.get (modelDAG m') n = Some nd → Node.outbound nd = [] →
      n = Keras.name (Keras.config layerDef).
Proof.
  unfold createLayers_body.
  destruct (implemented _); simpl; [|done].
  destruct (createInput "Sequential" index layerDef m) as [m1|] eqn:Hinput;
    simpl; [|done].
  destruct (createLayer _ _ _) as [layer|]; simpl; [|done].
  destruct (weightNames _) as [names|]; simpl; [|done].
  destruct (mapM _ names) as [ws|]; simpl; [|done].
  destruct (createEdges _ _ _ _ _) as [dag'|] eqn:Hedges; simpl; [|done].
  intros [= <-] Hnd H0 Hprev. simpl.
  set (name := Keras.name (Keras.config layerDef)) in *.
  set (fresh := {| Node.layerClass := Keras.class_name layerDef;
                   Node.name := name;
                   Node.inbound := []; Node.outbound := [] |}) in *.
  revert Hedges. unfold createEdges. simpl. fold name.
  revert Hinput. unfold createInput. case_decide as Hfirst.
  - destruct Hfirst as [_ ->].
    destruct (inputShape _) as [sh|]; simpl; [|done].
    intros [= <-].
    cbn [modelDAG set_inputTensors set_heap set_modelDAG set_modelLayersMap].
    rewrite (H0 eq_refl).
    destruct (dag_update "input" _ _) as [dag1|] eqn:H1; simpl; [|done].
    intros H2.
    pose proof (dag_update_keys _ _ _ _ H1) as Hk1.
    pose proof (dag_update_keys _ _ _ _ H2) as Hk2.
    split.
    { rewrite Hk2, Hk1. apply NoDup_keys_put. simpl.
      apply NoDup_singleton. }
    intros n nd. rewrite (dag_update_get _ _ _ _ n H2).
    case_decide as Hn; [done|].
    rewrite (dag_update_get _ _ _ _ n H1).
    case_decide as Hn'.
    + destruct (JS.get _ "input") as [nd0|]; [|done]. simpl.
      intros [= <-] Hout. by destruct (push_outbound_not_output name nd0).
    + rewrite get_put_ne by done. simpl. by rewrite decide_False.
  - rewrite decide_False by (intros [? _]; done).
    intros [= <-]. rewrite decide_False by (intros ->; by destruct Hfirst).
    destruct Hprev as (prevDef & Hlookup & Hsinks).
    { destruct index; [by destruct Hfirst|lia]. }
    rewrite Hlookup.
    set (prev := Keras.name (Keras.config prevDef)) in *.
    destruct (dag_update name _ _) as [dag1|] eqn:H1; simpl; [|done].
    intros H2.
    pose proof (dag_update_keys _ _ _ _ H1) as Hk1.
    pose proof (dag_update_keys _ _ _ _ H2) as Hk2.
    split.
    { rewrite Hk2, Hk1. by apply NoDup_keys_put. }
    intros n nd. rewrite (dag_update_get _ _ _ _ n H2).
    case_decide as Hn.
    + destruct (JS.get dag1 prev) as [nd0|]; [|done]. simpl.
      intros [= <-] Hout. by destruct (push_outbound_not_output name nd0).
    + rewrite (dag_update_get _ _ _ _ n H1).
      case_decide as Hn'; [done|].
      rewrite get_put_ne by done. intros Hget Hout.
      destruct Hn. symmetry. by eapply Hsinks.
Qed.

(** The graph built from a Sequential description has at most one node
    without outbound edge. *)
Lemma createLayers_sequential_single_output gpu pipeline layerCallPauses
    model raw metadata m :
  Keras.model_class_name model = "Sequential" →
  _createLayers (Model_new gpu pipeline layerCallPauses model raw metadata)
  = Ok m →
  single_output m.
Proof.
  intros Hclass. unfold _createLayers. simpl. rewrite Hclass.
  rewrite decide_True by done. intros Hbuild.
  pose proof (forEach_invariant_lookup
    (λ i s,
       NoDup (JS.keys (modelDAG s))
       ∧ (i = 0 → modelDAG s = [])
       ∧ (0 < i →
          ∃ prevDef, Keras.model_config model !! (i - 1) = Some prevDef
            ∧ ∀ n nd, JS.get (modelDAG s) n = Some nd →
                Node.outbound nd = [] →
                n = Keras.name (Keras.config prevDef)))
    (createLayers_body "Sequential" (Keras.model_config model))
    (Keras.model_config model) 0
    (Model_new gpu pipeline layerCallPauses model raw metadata) m) as Hinv.
  destruct Hinv as (Hnd & Hzero & Hpos); [| |exact Hbuild|].
  - intros j x s s' Hj (Hnd & Hzero & Hpos) Hbody. simpl in *.
    destruct (createLayers_body_sequential_dag _ _ _ _ _ Hbody Hnd Hzero Hpos)
      as [Hnd' Hsinks].
    split; [done|]. split; [done|]. intros _. exists x.
    rewrite Nat.sub_0_r. done.
  - simpl. split; [apply NoDup_nil_2|]. split; [done|lia].
  - unfold single_output. simpl in *.
    destruct (Keras.model_config model) as [|x rest] eqn:Hconfig.
    + rewrite (Hzero eq_refl). simpl. lia.
    + destruct Hpos as (prevDef & _ & Hsinks); [simpl; lia|].
      by eapply single_output_from_keys.
Qed.

End chain_facts.

Section return_claims.
Context `{Layers}.
Implicit Types (m : Model) (inputData : JS.object JS.value).



End return_claims.


(** ** Two runs that cannot be told apart *)

Section sim_facts.
Context `{Layers}.

Lemma same_tensor_app hA hB hA' hB' a b :
  same_tensor hA hB a b → same_tensor (hA ++ hA') (hB ++ hB') a b.
Proof.
  intros (t & Ha & Hb). exists t. split; by apply lookup_app_l_Some.
Qed.

Lemma same_tensor_alloc hA hB t :
  same_tensor (hA ++ [t]) (hB ++ [t]) (length hA) (length hB).
Proof. exists t. split; by apply list_lookup_middle. Qed.

Lemma layer_sim_app hA hB hA' hB' lA lB :
  layer_sim hA hB lA lB → layer_sim (hA ++ hA') (hB ++ hB') lA lB.
Proof.
  intros (Hst & Hr & Hv & Hres). repeat split; try done.
  intros Hh. destruct (Hres Hh) as (a & b & Ha & Hb & Hab).
  exists a, b. repeat split; try done. by apply same_tensor_app.
Qed.

Lemma ready_sim_app hA hB hA' hB' lA lB :
  ready_sim hA hB lA lB → ready_sim (hA ++ hA') (hB ++ hB') lA lB.
Proof.
  intros (Hst & a & b & Ha & Hb & Hab). split; [done|].
  exists a, b. repeat split; try done. by apply same_tensor_app.
Qed.

Lemma Layer_static_eq lA lB :
  Layer_static lA = Layer_static lB →
  layerClass lA = layerClass lB ∧ name lA = name lB
  ∧ _pipelineEnabled lA = _pipelineEnabled lB ∧ weights lA = weights lB.
Proof. unfold Layer_static, Layer_new. by intros [= -> -> -> ->]. Qed.

Lemma sim_extend sA sB hA hB c :
  sim sA sB → sim (extend hA c sA) (extend hB c sB).
Proof.
  intros [? ? ? ? ? ? ? ? Hc Hl]. constructor; simpl; try done.
  - by rewrite Hc.
  - intros n. destruct (Hl n); constructor. by apply layer_sim_app.
Qed.

Lemma sim_reject sA sB e : sim sA sB → sim (reject e sA) (reject e sB).
Proof.
  intros [? ? ? ? ? ? ? Hr ? Hl]. constructor; simpl; try done.
  by rewrite Hr.
Qed.

(** The tensors behind related references are the same. *)
Lemma mapM_same_tensor hA hB asA asB :
  Forall2 (same_tensor hA hB) asA asB →
  ∃ xs, mapM (hA !!.) asA = Some xs ∧ mapM (hB !!.) asB = Some xs.
Proof.
  induction 1 as [|a b asA asB (t & Ha & Hb) _ (xs & HA & HB)].
  - by exists [].
  - exists (t :: xs). simpl. by rewrite Ha, Hb, HA, HB.
Qed.

Lemma invoke_sim curA curB asA asB sA sB :
  Layer_static curA = Layer_static curB →
  Forall2 (same_tensor (heap sA) (heap sB)) asA asB →
  call_sim (name curA) sA sB (invoke curA asA sA) (invoke curB asB sB).
Proof.
  intros (Hc & Hn & _ & Hw)%Layer_static_eq Hargs.
  destruct (mapM_same_tensor _ _ _ _ Hargs) as (xs & HA & HB).
  unfold invoke. rewrite HA, HB, <-Hc, <-Hn, <-Hw.
  destruct (call _ _ _ xs) as [y|e]; simpl.
  - exists [y], [y], [name curA]. repeat split; try done.
    apply same_tensor_alloc.
  - exists [], [], [name curA]. repeat split; try done.
    + unfold extend. simpl. by rewrite app_nil_r.
    + unfold extend. simpl. by rewrite app_nil_r.
Qed.

Lemma call_sim_extend currentName sA sB hA hB oA oB :
  call_sim currentName (extend hA [] sA) (extend hB [] sB) oA oB →
  call_sim currentName sA sB oA oB.
Proof.
  intros (hA' & hB' & c & HA & HB & Hres).
  exists (hA ++ hA'), (hB ++ hB'), c.
  rewrite HA, HB, !extend_extend. simpl.
  split; [done|]. split; [done|]. simpl in Hres. by rewrite !app_assoc.
Qed.

Lemma regularLayerInput_sim curA curB inbA inbB copy rA rB x sA sB :
  Layer_static curA = Layer_static curB →
  Layer_static inbA = Layer_static inbB →
  heap sA !! rA = Some x → heap sB !! rB = Some x →
  ∃ hA hB,
    (regularLayerInput curA inbA copy rA x sA).2 = extend hA [] sA
    ∧ (regularLayerInput curB inbB copy rB x sB).2 = extend hB [] sB
    ∧ same_tensor (heap sA ++ hA) (heap sB ++ hB)
        (regularLayerInput curA inbA copy rA x sA).1
        (regularLayerInput curB inbB copy rB x sB).1.
Proof.
  intros (_ & _ & Hp & _)%Layer_static_eq (Hc & Hn & _)%Layer_static_eq HA HB.
  unfold regularLayerInput. rewrite <-Hp, <-Hc, <-Hn.
  repeat case_match; rewrite ?alloc_extend; simpl;
    try (eexists [_], [_]; split; [done|split; [done|]];
         apply (same_tensor_alloc (heap sA) (heap sB)));
    (exists [], []; rewrite !extend_nil, !app_nil_r;
     repeat split; try done; by exists x).
Qed.

Lemma regularLayerCall_sim curA curB inbA inbB copy sA sB :
  Layer_static curA = Layer_static curB →
  option_Forall2 (ready_sim (heap sA) (heap sB)) inbA inbB →
  call_sim (name curA) sA sB
    (_regularLayerCall curA inbA copy sA)
    (_regularLayerCall curB inbB copy sB).
Proof.
  intros Hst Hinb. unfold _regularLayerCall.
  destruct Hinb as [lA lB (Hsi & a & b & Ha & Hb & x & HxA & HxB)|].
  2:{ exists [], [], []. by rewrite !extend_nil. }
  rewrite Ha, Hb, HxA, HxB.
  destruct (regularLayerInput_sim curA curB lA lB copy a b x sA sB
              Hst Hsi HxA HxB) as (hA & hB & HA & HB & Hab).
  destruct (regularLayerInput curA _ _ _ _ _) as [a' sA'].
  destruct (regularLayerInput curB _ _ _ _ _) as [b' sB'].
  simpl in *. subst sA' sB'.
  apply (call_sim_extend _ sA sB hA hB).
  apply invoke_sim; [done|]. simpl. by constructor.
Qed.

Lemma mergeLayerInput_sim convert copy zA zB accA accB sA sB :
  Forall2 (λ iA iB : Layer * (nat * Tensor),
             Layer_static iA.1 = Layer_static iB.1 ∧ iA.2.2 = iB.2.2
             ∧ heap sA !! iA.2.1 = Some iA.2.2
             ∧ heap sB !! iB.2.1 = Some iB.2.2) zA zB →
  Forall2 (same_tensor (heap sA) (heap sB)) accA accB →
  ∃ hA hB,
    (foldl (mergeLayerInput convert copy) (accA, sA) zA).2 = extend hA [] sA
    ∧ (foldl (mergeLayerInput convert copy) (accB, sB) zB).2
      = extend hB [] sB
    ∧ Forall2 (same_tensor (heap sA ++ hA) (heap sB ++ hB))
        (foldl (mergeLayerInput convert copy) (accA, sA) zA).1
        (foldl (mergeLayerInput convert copy) (accB, sB) zB).1.
Proof.
  revert zB accA accB sA sB.
  induction zA as [|[lA [rA xA]] zA IH]; intros zB accA accB sA sB Hz Hacc.
  - apply Forall2_nil_inv_l in Hz as ->. exists [], []. simpl.
    by rewrite !extend_nil, !app_nil_r.
  - apply Forall2_cons_inv_l in Hz
      as ([lB [rB xB]] & zB' & (Hst & Hx & HA & HB) & Hz & ->).
    simpl in Hst, Hx, HA, HB. subst xB.
    assert (∃ h1A h1B aA aB,
      mergeLayerInput convert copy (accA, sA) (lA, (rA, xA))
      = (accA ++ [aA], extend h1A [] sA)
      ∧ mergeLayerInput convert copy (accB, sB) (lB, (rB, xA))
        = (accB ++ [aB], extend h1B [] sB)
      ∧ same_tensor (heap sA ++ h1A) (heap sB ++ h1B) aA aB)
      as (h1A & h1B & aA & aB & HsA & HsB & Hab).
    { destruct (Layer_static_eq _ _ Hst) as (Hc & Hn & _).
      unfold mergeLayerInput. rewrite <-Hc, <-Hn.
      destruct convert, (_fromPipeline xA), copy; rewrite ?alloc_extend;
        try (eexists [_], [_], _, _; split; [done|split; [done|]];
             apply (same_tensor_alloc (heap sA) (heap sB)));
        (exists [], [], rA, rB; rewrite !extend_nil, !app_nil_r;
         repeat split; try done; by exists xA). }
    cbn [foldl]. rewrite HsA, HsB.
    destruct (IH zB' (accA ++ [aA]) (accB ++ [aB])
                (extend h1A [] sA) (extend h1B [] sB))
      as (hA & hB & HfA & HfB & Hres).
    { eapply Forall2_impl; [exact Hz|]. simpl.
      intros iA iB (? & ? & ? & ?). repeat split; try done;
        by apply lookup_app_l_Some. }
    { simpl. apply Forall2_app; [|by constructor].
      eapply Forall2_impl; [exact Hacc|]. intros a b.
      apply same_tensor_app. }
    exists (h1A ++ hA), (h1B ++ hB). rewrite HfA, HfB, !extend_extend.
    simpl in Hres. rewrite !app_assoc. done.
Qed.

Lemma merge_inputs_sim hA hB insA insB :
  Forall2 (ready_sim hA hB) insA insB →
  ∃ inputsA inputsB,
    mapM (λ layer : Layer, r ← result layer; x ← hA !! r; Some (r, x)) insA
    = Some inputsA
    ∧ mapM (λ layer : Layer, r ← result layer; x ← hB !! r; Some (r, x))
        insB = Some inputsB
    ∧ inputsA.*2 = inputsB.*2
    ∧ Forall2 (λ iA iB : Layer * (nat * Tensor),
                 Layer_static iA.1 = Layer_static iB.1 ∧ iA.2.2 = iB.2.2
                 ∧ hA !! iA.2.1 = Some iA.2.2
                 ∧ hB !! iB.2.1 = Some iB.2.2)
        (zip insA inputsA) (zip insB inputsB).
Proof.
  induction 1 as [|lA lB insA insB (Hst & a & b & Ha & Hb & x & HxA & HxB) _
                    (iA & iB & HA & HB & Heq & Hz)].
  - exists [], []. repeat split; try done.
  - exists ((a, x) :: iA), ((b, x) :: iB). simpl.
    rewrite Ha, Hb. simpl. rewrite HxA, HxB. simpl. rewrite HA, HB. simpl.
    repeat split; [by f_equal|by constructor].
Qed.

Lemma every_snd {A B} (f : B → bool) (xs ys : list (A * B)) :
  xs.*2 = ys.*2 →
  JS.every xs (λ x, f x.2) = JS.every ys (λ y, f y.2).
Proof.
  revert ys. induction xs as [|x xs IH]; intros [|y ys]; try done.
  simpl. intros [= Hx Hxs]. unfold JS.every in *. simpl.
  by rewrite Hx, (IH ys Hxs).
Qed.

Lemma mergeLayerCall_sim curA curB insA insB copy sA sB :
  Layer_static curA = Layer_static curB →
  Forall2 (ready_sim (heap sA) (heap sB)) insA insB →
  call_sim (name curA) sA sB
    (_mergeLayerCall curA insA copy sA) (_mergeLayerCall curB insB copy sB).
Proof.
  intros Hst Hins. unfold _mergeLayerCall.
  destruct (merge_inputs_sim _ _ _ _ Hins)
    as (inputsA & inputsB & HA & HB & Heq & Hz).
  rewrite HA, HB.
  rewrite (every_snd _fromPipeline inputsA inputsB Heq).
  destruct (Layer_static_eq _ _ Hst) as (_ & _ & Hp & _). rewrite <-Hp.
  set (convert := negb _ || negb _).
  destruct (mergeLayerInput_sim convert copy _ _ [] [] sA sB Hz)
    as (hA & hB & HfA & HfB & Hres); [constructor|].
  destruct (foldl _ ([], sA) _) as [asA sA'].
  destruct (foldl _ ([], sB) _) as [asB sB'].
  simpl in *. subst sA' sB'.
  apply (call_sim_extend _ sA sB hA hB). by apply invoke_sim.
Qed.

Lemma sim_set_timers sA sB t :
  sim sA sB → sim (set_timers t sA) (set_timers t sB).
Proof. intros []. by constructor. Qed.

Lemma mapM_layers_sim sA sB ks :
  sim sA sB →
  option_Forall2 (Forall2 (layer_sim (heap sA) (heap sB)))
    (mapM (modelLayersMap sA !!.) ks) (mapM (modelLayersMap sB !!.) ks).
Proof.
  intros Hsim. induction ks as [|k ks IH]; simpl.
  - repeat constructor.
  - destruct (sim_layers _ _ Hsim k) as [lA lB Hl|]; simpl; [|constructor].
    destruct IH; simpl; constructor. by constructor.
Qed.

Lemma every_hasResult_sim hA hB lsA lsB :
  Forall2 (layer_sim hA hB) lsA lsB →
  JS.every lsA hasResult = JS.every lsB hasResult.
Proof.
  unfold JS.every.
  induction 1 as [|lA lB lsA lsB (_ & Hh & _) _ IH]; simpl; [done|].
  by rewrite Hh, IH.
Qed.

Lemma ready_of_layer_sim hA hB lsA lsB :
  Forall2 (layer_sim hA hB) lsA lsB → JS.every lsA hasResult = true →
  Forall2 (ready_sim hA hB) lsA lsB.
Proof.
  unfold JS.every.
  induction 1 as [|lA lB lsA lsB (Hst & _ & _ & Hres) _ IH]; simpl;
    [constructor|].
  intros [Hh Hall]%andb_true_iff. constructor; [|by apply IH].
  split; [done|]. by apply Hres.
Qed.

(** One node, in the two runs. *)
Lemma computeNode_sim node nd sA sB :
  sim sA sB →
  sim (computeNode node nd sA).1 (computeNode node nd sB).1
  ∧ (computeNode node nd sA).2 = (computeNode node nd sB).2.
Proof.
  intros Hsim. unfold computeNode.
  destruct (sim_layers _ _ Hsim node) as [curA curB (Hst & Hh & Hv & _)|];
    [|split; [by apply sim_reject|done]].
  rewrite <-Hv. destruct (visited curA); [done|].
  destruct (mapM_layers_sim sA sB (Node.inbound nd) Hsim)
    as [insA insB Hins|]; [|split; [by apply sim_reject|done]].
  rewrite <-(every_hasResult_sim _ _ _ _ Hins).
  destruct (JS.every insA hasResult) eqn:Hall; simpl; [|done].
  rewrite (sim_dag _ _ Hsim).
  destruct (copyBeforeCall_of _ _) as [copy|];
    [|split; [by apply sim_reject|done]].
  pose proof (ready_of_layer_sim _ _ _ _ Hins Hall) as Hready.
  assert (call_sim (name curA) sA sB
            (if decide (Node.layerClass nd = "Merge")
             then _mergeLayerCall curA insA copy sA
             else _regularLayerCall curA (head insA) copy sA)
            (if decide (Node.layerClass nd = "Merge")
             then _mergeLayerCall curB insB copy sB
             else _regularLayerCall curB (head insB) copy sB))
    as (hA & hB & c & HA & HB & Hres).
  { destruct (decide _); [by apply mergeLayerCall_sim|].
    apply regularLayerCall_sim; [done|]. destruct Hready; by constructor. }
  destruct (if decide (Node.layerClass nd = "Merge")
            then _mergeLayerCall curA insA copy sA
            else _regularLayerCall curA (head insA) copy sA) as [sA1 rA].
  destruct (if decide (Node.layerClass nd = "Merge")
            then _mergeLayerCall curB insB copy sB
            else _regularLayerCall curB (head insB) copy sB) as [sB1 rB].
  simpl in HA, HB, Hres. subst sA1 sB1.
  destruct rA as [a|e], rB as [b|e']; try done.
  - destruct Hres as [-> Hab]. split; [|done].
    destruct (Layer_static_eq _ _ Hst) as (_ & Hn & _).
    destruct Hsim as [? ? ? ? ? Hlog ? ? Hc Hl].
    constructor; simpl; try done.
    + by rewrite Hlog, Hn.
    + by rewrite Hc.
    + intros n. destruct (decide (node = n)) as [->|Hne].
      * rewrite !lookup_insert_eq. constructor.
        repeat split; try done. intros _. by exists a, b.
      * rewrite !lookup_insert_ne by done.
        destruct (Hl n); constructor. by apply layer_sim_app.
  - subst e'. split; [|done]. by apply sim_reject, sim_extend.
Qed.

Lemma foldl_mbind_sim (f : string → Model → option Model) nodes oA oB :
  (∀ x sA sB, sim sA sB → option_Forall2 sim (f x sA) (f x sB)) →
  option_Forall2 sim oA oB →
  option_Forall2 sim (foldl (λ acc x, acc ≫= f x) oA nodes)
    (foldl (λ acc x, acc ≫= f x) oB nodes).
Proof.
  intros Hf. revert oA oB. induction nodes as [|x nodes IH]; intros oA oB Ho;
    simpl; [done|].
  apply IH. destruct Ho; simpl; [by apply Hf|constructor].
Qed.

(** The traversal, in the two runs. *)
Lemma traverseDAG_sim fuel nodes sA sB :
  sim sA sB →
  option_Forall2 sim (_traverseDAG fuel nodes sA) (_traverseDAG fuel nodes sB).
Proof.
  revert nodes sA sB.
  induction fuel as [|fuel IH]; intros nodes sA sB Hsim; [constructor|].
  destruct nodes as [|node [|node' nodes]].
  - simpl. by constructor.
  - simpl. rewrite (sim_dag _ _ Hsim).
    destruct (JS.get _ node) as [nd|]; [|constructor; by apply sim_reject].
    destruct (decide _); [|by apply IH].
    destruct (computeNode_sim node nd sA sB Hsim) as [Hsim1 Hgo].
    destruct (computeNode node nd sA) as [sA1 goA].
    destruct (computeNode node nd sB) as [sB1 goB].
    simpl in Hsim1, Hgo. subst goB. destruct goA; [|by constructor].
    rewrite (sim_pauses _ _ Hsim1).
    destruct (layerCallPauses sA1); [|by apply IH].
    constructor. rewrite (sim_timers _ _ Hsim1). by apply sim_set_timers.
  - apply (foldl_mbind_sim (λ node, _traverseDAG fuel [node]));
      [|by constructor].
    intros x tA tB. apply IH.
Qed.

Lemma runTimers_sim fuel steps sA sB :
  sim sA sB →
  option_Forall2 sim (runTimers fuel steps sA) (runTimers fuel steps sB).
Proof.
  revert sA sB. induction steps as [|steps IH]; intros sA sB Hsim; simpl;
    rewrite (sim_timers _ _ Hsim);
    destruct (timers sA) as [|outbound rest]; try by constructor.
  destruct (traverseDAG_sim fuel outbound (set_timers rest sA)
              (set_timers rest sB)) as [tA tB Ht|]; simpl;
    [by apply sim_set_timers|by apply IH|constructor].
Qed.

(** *** Loading the same input *)

Lemma same_meta_refl t : same_meta t t.
Proof. by repeat split. Qed.

Lemma same_meta_trans t1 t2 t3 :
  same_meta t1 t2 → same_meta t2 t3 → same_meta t1 t3.
Proof.
  intros (? & ? & ? & ?) (? & ? & ? & ?). repeat split; congruence.
Qed.

Lemma same_meta_replace tA tB d :
  same_meta tA tB → replaceTensorData tA d = replaceTensorData tB d.
Proof.
  intros (Hs & Hp & Ha & Hw). unfold replaceTensorData.
  by rewrite Hs, Hp, Ha, Hw.
Qed.

Lemma same_meta_replaced t d : same_meta t (replaceTensorData t d).
Proof. by repeat split. Qed.

Lemma loadInput_sim inputData inputName nA nB sA sB :
  sim sA sB → inputs_sim nA nB sA sB →
  sim (loadInput inputData inputName sA).1
    (loadInput inputData inputName sB).1
  ∧ inputs_sim nA nB (loadInput inputData inputName sA).1
      (loadInput inputData inputName sB).1
  ∧ (loadInput inputData inputName sA).2
    = (loadInput inputData inputName sB).2.
Proof.
  intros Hsim Hinp. pose proof Hinp as (Hin & HnA & HnB & HrA & HrB).
  unfold loadInput. rewrite (sim_inputs _ _ Hsim).
  destruct (JS.get (inputTensors sA) inputName) as [a|] eqn:Ha; simpl;
    [|done].
  destruct (Hin _ _ Ha) as (HaA & HaB & tA & tB & HtA & HtB & Hmeta).
  rewrite HtA, HtB. simpl.
  destruct (JS.get inputData inputName) as [[d| |]|]; try done.
  rewrite <-(same_meta_replace tA tB d Hmeta).
  set (t' := replaceTensorData tA d).
  assert (sim (set_heap (<[a:=t']> (heap sA)) sA)
            (set_heap (<[a:=t']> (heap sB)) sB)) as Hsim1.
  { destruct Hsim as [? ? ? ? ? ? ? ? ? Hl]. constructor; simpl; try done.
    intros n. pose proof (Hl n) as Hn.
    destruct (modelLayersMap sA !! n) as [lA|] eqn:HlA;
      destruct (modelLayersMap sB !! n) as [lB|] eqn:HlB;
      inversion Hn as [? ? (Hst & Hh & Hv & Hres)|]; subst; constructor.
    repeat split; try done. intros Hhas.
    destruct (Hres Hhas) as (ra & rb & Hra & Hrb & t & HA & HB).
    exists ra, rb. repeat split; try done. exists t.
    pose proof (HrA n lA ra HlA Hra Hhas).
    pose proof (HrB n lB rb HlB Hrb ltac:(congruence)).
    rewrite !list_lookup_insert_ne by lia. done. }
  assert (inputs_sim nA nB (set_heap (<[a:=t']> (heap sA)) sA)
            (set_heap (<[a:=t']> (heap sB)) sB)) as Hinp1.
  { split; [|simpl; by rewrite !length_insert].
    intros k a' Ha'. simpl in Ha'.
    destruct (Hin k a' Ha') as (? & ? & tA' & tB' & HA' & HB' & ?).
    split; [done|split; [done|]]. simpl.
    destruct (decide (a = a')) as [<-|Hne].
    - exists t', t'.
      rewrite !list_lookup_insert_eq by (eapply lookup_lt_Some; done).
      repeat split; done.
    - exists tA', tB'. rewrite !list_lookup_insert_ne by done. done. }
  pose proof (sim_layers _ _ Hsim inputName) as Hn.
  destruct (modelLayersMap sA !! inputName) as [lA|] eqn:HlA;
    destruct (modelLayersMap sB !! inputName) as [lB|] eqn:HlB;
    inversion Hn as [? ? (Hst & _)|]; subst; [|done].
  destruct (Layer_static_eq _ _ Hst) as (Hc & Hnm & _ & Hw).
  rewrite <-Hc, <-Hnm, <-Hw.
  destruct (call _ _ _ [t']) as [y|e]; [|done].
  simpl. split; [|split; [|done]].
  - destruct Hsim1 as [? ? ? ? ? ? ? ? ? Hl]. simpl in *.
    constructor; simpl; try done.
    intros n. destruct (decide (inputName = n)) as [->|Hne].
    + rewrite !lookup_insert_eq. constructor.
      repeat split; try done. intros _. eexists _, _.
      split; [done|split; [done|]].
      apply (same_tensor_alloc (<[a:=t']> (heap sA)) (<[a:=t']> (heap sB))).
    + rewrite !lookup_insert_ne by done.
      destruct (Hl n); constructor. by apply layer_sim_app.
  - destruct Hinp1 as (Hin1 & HnA1 & HnB1 & _). simpl in *.
    split; [|split; [|split; [|split]]].
    + intros k a' Ha'.
      destruct (Hin1 k a' Ha') as (? & ? & tA' & tB' & HA' & HB' & ?).
      split; [done|split; [done|]]. exists tA', tB'. simpl.
      split; [by apply lookup_app_l_Some|].
      split; [by apply lookup_app_l_Some|done].
    + simpl. rewrite length_app. lia.
    + simpl. rewrite length_app. lia.
    + simpl. intros n l r Hl Hr Hhas.
      destruct (decide (inputName = n)) as [->|Hne].
      * rewrite lookup_insert_eq in Hl. injection Hl as <-.
        simpl in Hr. injection Hr as <-. done.
      * rewrite lookup_insert_ne in Hl by done. by eapply HrA.
    + simpl. intros n l r Hl Hr Hhas.
      destruct (decide (inputName = n)) as [->|Hne].
      * rewrite lookup_insert_eq in Hl. injection Hl as <-.
        simpl in Hr. injection Hr as <-. done.
      * rewrite lookup_insert_ne in Hl by done. by eapply HrB.
Qed.

Lemma loadInputs_sim inputData inputNames nA nB sA sB :
  sim sA sB → inputs_sim nA nB sA sB →
  sim (loadInputs inputData inputNames sA).1
    (loadInputs inputData inputNames sB).1
  ∧ (loadInputs inputData inputNames sA).2
    = (loadInputs inputData inputNames sB).2.
Proof.
  revert sA sB.
  induction inputNames as [|inputName rest IH]; intros sA sB Hsim Hinp;
    simpl; [done|].
  destruct (loadInput_sim inputData inputName nA nB sA sB Hsim Hinp)
    as (Hsim1 & Hinp1 & Hres).
  destruct (loadInput inputData inputName sA) as [sA1 rA].
  destruct (loadInput inputData inputName sB) as [sB1 rB].
  simpl in Hsim1, Hinp1, Hres. subst rB.
  destruct rA as [[]|e]; [by apply IH|done].
Qed.

(** *** What a run leaves of the tensors that were there *)

Lemma heap_meta_refl m : heap_meta m m.
Proof. intros a t Ha. exists t. split; [done|apply same_meta_refl]. Qed.

Lemma heap_meta_trans m1 m2 m3 :
  heap_meta m1 m2 → heap_meta m2 m3 → heap_meta m1 m3.
Proof.
  intros H12 H23 a t Ha. destruct (H12 a t Ha) as (t2 & Ha2 & Hm2).
  destruct (H23 a t2 Ha2) as (t3 & Ha3 & Hm3).
  exists t3. split; [done|by eapply same_meta_trans].
Qed.

Lemma loadInput_heap_meta inputData inputName m :
  heap_meta m (loadInput inputData inputName m).1.
Proof.
  unfold loadInput.
  destruct (JS.get (inputTensors m) inputName) as [a0|]; simpl;
    [|apply heap_meta_refl].
  destruct (heap m !! a0) as [t0|] eqn:Ht0; simpl; [|apply heap_meta_refl].
  destruct (JS.get inputData inputName) as [[d| |]|];
    try apply heap_meta_refl.
  assert (∀ a t, heap m !! a = Some t →
            ∃ t', <[a0:=replaceTensorData t0 d]> (heap m) !! a = Some t'
                  ∧ same_meta t t') as Hins.
  { intros a t Ha. destruct (decide (a0 = a)) as [->|Hne].
    - eexists. rewrite list_lookup_insert_eq by (eapply lookup_lt_Some; done).
      split; [done|]. assert (t = t0) as -> by congruence.
      apply same_meta_replaced.
    - exists t. rewrite list_lookup_insert_ne by done.
      split; [done|apply same_meta_refl]. }
  destruct (modelLayersMap m !! inputName) as [l|]; [|exact Hins].
  destruct (call _ _ _ _) as [y|e]; [|exact Hins].
  intros a t Ha. destruct (Hins a t Ha) as (t' & Ht' & Hm).
  exists t'. split; [simpl; by apply lookup_app_l_Some|done].
Qed.

Lemma step_heap_meta inputData m m' :
  sched_step inputData m m' → heap_meta m m'.
Proof.
  intros Hstep. destruct Hstep as [inputName m|node nd m Hnd| | |];
    try (intros a t Ha; exists t; split; [done|apply same_meta_refl]).
  - apply loadInput_heap_meta.
  - destruct (computeNode_cases node nd m) as [| |e h c|cur ins a h Hcur];
      simpl; try apply heap_meta_refl;
      intros a' t Ha; exists t;
      (split; [simpl; by apply lookup_app_l_Some|apply same_meta_refl]).
Qed.

Lemma steps_heap_meta inputData m m' :
  rtc (sched_step inputData) m m' → heap_meta m m'.
Proof.
  induction 1 as [|m1 m2 m3 Hstep _ IH]; [apply heap_meta_refl|].
  eapply heap_meta_trans; [by eapply step_heap_meta|done].
Qed.

(** *** Collecting the same output *)

Lemma resultData_sim sA sB n :
  sim sA sB → computed sA n → resultData sA n = resultData sB n.
Proof.
  intros Hsim Hc. unfold computed in Hc. unfold resultData.
  pose proof (sim_layers _ _ Hsim n) as Hn.
  destruct (modelLayersMap sA !! n) as [lA|]; [|done].
  simpl in Hc. injection Hc as Hh.
  inversion Hn as [? lB (_ & _ & _ & Hres)|]; subst. simpl.
  destruct (Hres Hh) as (a & b & Ha & Hb & t & HA & HB).
  unfold deref. rewrite Ha, Hb. simpl. by rewrite HA, HB.
Qed.

Lemma forEach_ext {A St} (f g : nat → A → St → completion St) l i s :
  (∀ j x s', x ∈ l → f j x s' = g j x s') →
  forEach f l i s = forEach g l i s.
Proof.
  revert i s. induction l as [|x l IH]; intros i s Hfg; simpl; [done|].
  rewrite (Hfg i x s) by left. destruct (g i x s) as [s'|e]; simpl; [|done].
  apply IH. intros j y s'' Hy. apply Hfg. by right.
Qed.

Lemma collectOutputs_sim sA sB :
  sim sA sB →
  (∀ nd, nd ∈ JS.values (modelDAG sA) → computed sA (Node.name nd)) →
  (collectOutputs sA).2 = (collectOutputs sB).2.
Proof.
  intros Hsim Hall. unfold collectOutputs.
  rewrite (sim_model _ _ Hsim), (sim_dag _ _ Hsim).
  destruct (decide (_ = "Sequential")).
  - destruct (JS.find _ isOutput) as [o|] eqn:Hfind; [|done].
    apply find_some in Hfind as [Hin _]. apply list_elem_of_In in Hin.
    rewrite <-(resultData_sim sA sB (Node.name o) Hsim (Hall o Hin)).
    by destruct (resultData sA _).
  - destruct (decide (_ = "Model")); [|done].
    set (l := filter _ _).
    match goal with
    | |- (match forEach ?fA l 0 [] with _ => _ end).2
         = (match forEach ?fB l 0 [] with _ => _ end).2 =>
        rewrite (forEach_ext fB fA l 0 [])
    end.
    + match goal with
      | |- context [forEach ?f l 0 []] => by destruct (forEach f l 0 [])
      end.
    + intros j x s' Hx. simpl.
      rewrite <-(resultData_sim sA sB (Node.name x) Hsim); [done|].
      apply Hall. by apply list_elem_of_filter in Hx as [_ Hx].
Qed.

End sim_facts.

(** ** Two successive calls *)

Section determinism_claims.
Context `{Layers}.

(** The state in which the second call starts its traversal cannot be told
    apart from the state in which the first one did. *)
Lemma afterReset_sim inputData m m4 :
  valid_dag m → rtc (sched_step inputData) (afterReset m) m4 →
  timers m4 = [] →
  sim (afterReset m) (afterReset m4)
  ∧ inputs_sim (length (heap m)) (length (heap m))
      (afterReset m) (afterReset m4).
Proof.
  intros Hvalid Hsteps Ht4.
  pose proof (steps_same_graph _ _ _ Hsteps) as Hsame.
  pose proof (steps_heap_meta _ _ _ Hsteps) as Hmeta.
  pose proof Hvalid as (_ & _ & _ & Hinp & Ht).
  destruct Hsame as [Hdag Hinputs Hmodel Hpauses _ _ Hstatic _ Hheap _ _].
  simpl in *. split.
  - constructor; simpl; try done; [congruence|].
    intros n. specialize (Hstatic n). rewrite !lookup_fmap in *.
    destruct (modelLayersMap m !! n) as [lA|];
      destruct (modelLayersMap m4 !! n) as [lB|]; simpl in *;
      try done; constructor.
    injection Hstatic as Hstatic. repeat split; try done.
    unfold Layer_static in *. simpl. congruence.
  - split; [|split; [done|split; [done|split]]].
    + intros k a Ha. apply get_Some_elem_of in Ha.
      rewrite Forall_forall in Hinp. destruct (Hinp _ Ha) as [_ Hlt].
      simpl in Hlt. split; [done|split; [done|]].
      destruct (lookup_lt_is_Some_2 _ _ Hlt) as [tA HtA].
      destruct (Hmeta a tA HtA) as (tB & HtB & Hm). by exists tA, tB.
    + simpl. intros n l a. rewrite lookup_fmap.
      destruct (modelLayersMap m !! n); [|done]. by intros [= <-].
    + simpl. intros n l a. rewrite lookup_fmap.
      destruct (modelLayersMap m4 !! n); [|done]. by intros [= <-].
Qed.

(** C9: when a call of [predict] on a valid DAG resolves with an output
    object, the next call with the same input data resolves with the same
    output object, buffer for buffer: nothing the first call leaves in the
    layers, in the input tensors or in the tensors it allocated reaches the
    result of the second. *)
Theorem successive_predicts_agree (fuel : nat)
    (inputData : JS.object JS.value) (m m1 : Model)
    (outputData : option (JS.object JS.Float32Array)) :
  valid_dag m → enough_fuel m ≤ fuel →
  predict fuel inputData m = Some (m1, Resolved outputData) →
  ∃ m2, predict fuel inputData m1 = Some (m2, Resolved outputData).
Proof.
  intros Hvalid Hfuel Hp.
  assert (checkInputNames inputData m = true
          ∧ checkInputValues inputData m = true) as [Hnames Hvalues].
  { revert Hp. unfold predict.
    change (checkInputNames inputData (set_isRunning true m))
      with (checkInputNames inputData m).
    change (checkInputValues inputData (set_isRunning true m))
      with (checkInputValues inputData m).
    destruct (checkInputNames inputData m); [|done].
    by destruct (checkInputValues inputData m). }
  rewrite (predict_checked fuel inputData m Hnames Hvalues) in Hp.
  destruct (loadInputs _ _ _) as [mA2 [[]|e]] eqn:Hload; [|done].
  destruct (traversal_run fuel inputData m mA2 Hvalid Hfuel Hload)
    as (mA3 & mA4 & HA3 & HA4 & Hsteps & _ & _ & _ & Htimers & Hall).
  rewrite HA3 in Hp. simpl in Hp. rewrite HA4 in Hp. simpl in Hp.
  destruct (rejections mA4) eqn:Hrej; [|done]. injection Hp as Hp.
  specialize (Hall eq_refl).
  pose proof (steps_same_graph _ _ _ Hsteps) as Hsame.
  assert (inputTensors m1 = inputTensors m) as Hinputs1.
  { replace m1 with (collectOutputs mA4).1 by by rewrite Hp.
    destruct (collectOutputs_state mA4) as [->| ->]; apply Hsame. }
  assert (afterReset m1 = afterReset mA4) as Hreset1.
  { replace m1 with (collectOutputs mA4).1 by by rewrite Hp.
    by destruct (collectOutputs_state mA4) as [->| ->]. }
  assert (inputNames_of (afterReset m1) = inputNames_of (afterReset m))
    as Hnames1.
  { unfold inputNames_of. simpl. by rewrite Hinputs1. }
  rewrite (predict_checked fuel inputData m1).
  2:{ revert Hnames. unfold checkInputNames, inputNames_of.
      by rewrite Hinputs1. }
  2:{ revert Hvalues. unfold checkInputValues, inputNames_of.
      by rewrite Hinputs1. }
  rewrite Hnames1, Hreset1.
  destruct (afterReset_sim inputData m mA4 Hvalid Hsteps Htimers)
    as [Hsim1 Hinp1].
  destruct (loadInputs_sim inputData (inputNames_of (afterReset m)) _ _ _ _
              Hsim1 Hinp1) as [Hsim2 Hres2].
  rewrite Hload in Hsim2, Hres2.
  destruct (loadInputs _ _ (afterReset mA4)) as [mB2 rB].
  simpl in Hsim2, Hres2. subst rB.
  pose proof (traverseDAG_sim fuel (inputNames_of (afterReset m)) _ _ Hsim2)
    as Hsim3.
  rewrite HA3 in Hsim3.
  destruct (_traverseDAG fuel _ mB2) as [mB3|]; [|by inversion Hsim3].
  assert (sim mA3 mB3) as Hsim3' by by inversion Hsim3.
  simpl.
  pose proof (runTimers_sim fuel fuel _ _ Hsim3') as Hsim4.
  rewrite HA4 in Hsim4.
  destruct (runTimers fuel fuel mB3) as [mB4|]; [|by inversion Hsim4].
  assert (sim mA4 mB4) as Hsim4' by by inversion Hsim4.
  simpl. rewrite (sim_rejections _ _ Hsim4'), Hrej.
  exists (collectOutputs mB4).1. f_equal.
  rewrite (surjective_pairing (collectOutputs mB4)). f_equal.
  rewrite <-(collectOutputs_sim mA4 mB4 Hsim4'); [by rewrite Hp|].
  intros nd Hnd. rewrite (sg_dag _ _ Hsame) in Hnd. simpl in Hnd.
  apply (Hall (Node.name nd) nd). by apply valid_dag_values.
Qed.

End determinism_claims.

Lemma successive_predicts_agree_witness :
  let m := Example.built true (Example.diamond "right") in
  ∃ m1,
    predict (H := Example.layers) 12 (Example.inputData "in_1") m
    = Some (m1, Resolved (Some [("sum", Example.twoFloats)]))
    ∧ ∃ m2,
        predict (H := Example.layers) 12 (Example.inputData "in_1") m1
        = Some (m2, Resolved (Some [("sum", Example.twoFloats)])).
Proof.
  intros m. eexists. split; [vm_compute; reflexivity|].
  apply (successive_predicts_agree (H := Example.layers) 12
           (Example.inputData "in_1") m).
  - apply (bool_decide_unpack _). vm_compute. reflexivity.
  - vm_compute. lia.
  - vm_compute. reflexivity.
Defined.

(** ** The requests, event by event *)

Section request_facts.
Import Loader Xhr.
Implicit Types (s : state) (c : completion unit) (evs : list event).

Lemma interrupt_kept s :
  _ready (_interrupt s) = _ready s ∧ built (_interrupt s) = built s
  ∧ loaded (_interrupt s) = loaded s
  ∧ xhrProgress (_interrupt s) = xhrProgress s.
Proof.
  unfold _interrupt. simpl. unfold _interrupt_one.
  repeat (match goal with
          | |- context [JS.get ?o ?k] => destruct (JS.get o k) as [[?|]|]
          end; simpl); done.
Qed.

Lemma on_catch_fields e s :
  _ready (on_catch e s) = Fulfilled ∧ all (on_catch e s) = all s
  ∧ built (on_catch e s) = built s ∧ console (on_catch e s) = console s ++ [e]
  ∧ loaded (on_catch e s) = loaded s
  ∧ xhrProgress (on_catch e s) = xhrProgress s.
Proof.
  unfold on_catch. simpl. rewrite interrupt_console, interrupt_all. simpl.
  match goal with
  | |- context [_interrupt ?s1] =>
      destruct (interrupt_kept s1) as (_ & -> & -> & ->)
  end.
  done.
Qed.

Lemma run_snoc c evs ev : run c (evs ++ [ev]) = handle c (run c evs) ev.
Proof. unfold run. by rewrite foldl_app. Qed.

(** What an event changes of the promise chain, by the state of
    [Promise.all]. *)
Lemma handle_settled c s ev :
  all s ≠ Pending →
  all (handle c s ev) = all s ∧ _ready (handle c s ev) = _ready s
  ∧ built (handle c s ev) = built s ∧ console (handle c s ev) = console s.
Proof.
  intros Hall. destruct ev as [type|type e|type e]; simpl.
  - unfold onload. rewrite bool_decide_eq_false_2 by done. done.
  - unfold onprogress. by destruct (ProgressEvent.lengthComputable e).
  - unfold onerror. case_decide; [done|].
    destruct (all s) eqn:Hs; [by destruct Hall|done..].
Qed.

Lemma handle_loaded c s ev t :
  t ∈ loaded (handle c s ev) ↔ t ∈ loaded s ∨ ev = Load t.
Proof.
  destruct ev as [type|type e|type e]; simpl.
  - assert (t ∈ (if decide (type ∈ loaded s) then loaded s
                 else loaded s ++ [type]) ↔ t ∈ loaded s ∨ Load type = Load t)
      as Hgot.
    { case_decide as Hin.
      - split; [by left|]. intros [?|[= ->]]; done.
      - rewrite elem_of_app, list_elem_of_singleton.
        split; (intros [?|?]; [by left|right; congruence]). }
    unfold onload. destruct (_ && _); [|done].
    unfold on_then. destruct c as [[]|e]; [done|].
    destruct (on_catch_fields e
      {| xhrs := JS.put (xhrs s) type None;
         xhrProgress := JS.put (xhrProgress s) type 100;
         loaded := if decide (type ∈ loaded s) then loaded s
                   else loaded s ++ [type];
         aborted := aborted s; console := console s; all := Fulfilled;
         built := built s; _ready := _ready s |})
      as (_ & _ & _ & _ & -> & _). done.
  - unfold onprogress. destruct (ProgressEvent.lengthComputable e); simpl;
      (split; [by left|by intros [?|?]]).
  - unfold onerror. case_decide; [split; [by left|by intros [?|?]]|].
    destruct (all s);
      try (split; [by left|by intros [?|?]]).
    match goal with
    | |- context [on_catch ?e ?s1] =>
        destruct (on_catch_fields e s1) as (_ & _ & _ & _ & -> & _)
    end.
    simpl. split; [by left|by intros [?|?]].
Qed.

Lemma run_loaded c evs t : t ∈ loaded (run c evs) ↔ Load t ∈ evs.
Proof.
  induction evs as [|ev evs IH] using rev_ind.
  - simpl. split; by intros ?%elem_of_nil.
  - rewrite run_snoc, handle_loaded, IH, elem_of_app, list_elem_of_singleton.
    split; (intros [?|?]; [by left|by right]).
Qed.

(** The four states of the promise chain of [_initialize]: waiting; built;
    the build threw; a request failed. *)
Lemma run_phase c evs :
  let s := run c evs in
  (_ready s = Pending ∧ all s = Pending ∧ built s = false ∧ console s = [])
  ∨ (_ready s = Fulfilled ∧ all s = Fulfilled ∧ built s = true
     ∧ console s = [] ∧ c = Ok ())
  ∨ (∃ e, _ready s = Fulfilled ∧ all s = Fulfilled ∧ built s = false
          ∧ console s = [e] ∧ c = Throw e)
  ∨ (∃ e, _ready s = Fulfilled ∧ all s = Rejected e ∧ built s = false
          ∧ console s = [e]).
Proof.
  induction evs as [|ev evs IH] using rev_ind; [by left|].
  simpl in *. rewrite run_snoc. set (s := run c evs) in *.
  destruct IH as [(Hr & Ha & Hb & Hc)|IH].
  2:{ assert (all s ≠ Pending) as Hall.
      { destruct IH as [(_ & -> & _)|[(e & _ & -> & _)|(e & _ & -> & _)]];
          done. }
      destruct (handle_settled c s ev Hall) as (-> & -> & -> & ->).
      by right. }
  destruct ev as [type|type e|type e]; simpl.
  - unfold onload. cbv zeta. rewrite Ha, bool_decide_eq_true_2 by done.
    rewrite !andb_true_l.
    match goal with
    | |- context [forallb ?f dataTypes] => destruct (forallb f dataTypes)
    end; [|by left].
    unfold on_then. destruct c as [[]|e].
    + right. left. simpl. done.
    + right. right. left. exists e.
      match goal with
      | |- context [on_catch ?e ?s1] =>
          destruct (on_catch_fields e s1) as (-> & -> & -> & -> & _)
      end.
      simpl. by rewrite Hb, Hc.
  - left. unfold onprogress.
    by destruct (ProgressEvent.lengthComputable e).
  - unfold onerror. case_decide; [by left|].
    right. right. right. exists e. rewrite Ha.
    match goal with
    | |- context [on_catch ?e ?s1] =>
        destruct (on_catch_fields e s1) as (-> & -> & -> & -> & _)
    end.
    simpl. by rewrite Hb, Hc.
Qed.

(** While [Promise.all] is pending and no request has failed, it waits for
    an artifact. *)
Lemma run_waiting c evs :
  (∀ type e, Failure type e ∉ evs) →
  all (run c evs) ≠ Pending ↔ ∀ t, t ∈ dataTypes → Load t ∈ evs.
Proof.
  induction evs as [|ev evs IH] using rev_ind; intros Hnf.
  { split; [done|]. intros Hall. specialize (Hall "model").
    apply elem_of_nil in Hall; [done|]. left. }
  assert (∀ type e, Failure type e ∉ evs) as Hnf'.
  { intros type e Hin. apply (Hnf type e). apply elem_of_app. by left. }
  specialize (IH Hnf'). rewrite run_snoc.
  destruct (decide (all (run c evs) = Pending)) as [Hp|Hp].
  - assert (¬ ∀ t, t ∈ dataTypes → Load t ∈ evs) as Hnot.
    { intros Hall. by apply IH in Hall. }
    destruct ev as [type|type e|type e]; simpl.
    + unfold onload. cbv zeta. rewrite Hp, bool_decide_eq_true_2 by done.
      rewrite !andb_true_l.
      match goal with
      | |- context [forallb ?f dataTypes] =>
          destruct (forallb f dataTypes) eqn:Hdone
      end.
      * rewrite forallb_forall in Hdone.
        assert (∀ t, t ∈ dataTypes → Load t ∈ evs ++ [Load type]) as Hall.
        { intros t Ht. apply list_elem_of_In, Hdone in Ht.
          apply bool_decide_eq_true in Ht.
          apply elem_of_app. case_decide as Hin.
          - left. by apply (run_loaded c).
          - apply elem_of_app in Ht as [Ht| ->%list_elem_of_singleton].
            + left. by apply (run_loaded c).
            + right. left. }
        split; [done|]. intros _. unfold on_then. destruct c as [[]|e]; [done|].
        match goal with
        | |- context [on_catch ?e ?s1] =>
            destruct (on_catch_fields e s1) as (_ & -> & _)
        end.
        done.
      * simpl. split; [done|]. intros Hall. exfalso.
        apply not_true_iff_false in Hdone. apply Hdone.
        apply forallb_forall. intros t Ht%list_elem_of_In.
        apply bool_decide_eq_true.
        specialize (Hall t Ht).
        apply elem_of_app in Hall as [Hin|[= <-]%list_elem_of_singleton].
        -- apply (run_loaded c) in Hin. case_decide; [done|].
           apply elem_of_app. by left.
        -- case_decide; [done|]. apply elem_of_app. right. left.
    + assert (all (onprogress type e (run c evs)) = Pending) as ->.
      { unfold onprogress. by destruct (ProgressEvent.lengthComputable e). }
      split; [done|]. intros Hall. destruct Hnot. intros t Ht.
      specialize (Hall t Ht).
      by apply elem_of_app in Hall as [?|[=]%list_elem_of_singleton].
    + destruct (Hnf type e). apply elem_of_app. right. left.
  - destruct (handle_settled c (run c evs) ev Hp) as (-> & _).
    split; [|done]. intros _ t Ht. apply elem_of_app. left.
    by apply IH.
Qed.

Lemma foldl_settled c s evs :
  all s ≠ Pending →
  all (foldl (handle c) s evs) = all s
  ∧ _ready (foldl (handle c) s evs) = _ready s
  ∧ built (foldl (handle c) s evs) = built s
  ∧ console (foldl (handle c) s evs) = console s.
Proof.
  revert s. induction evs as [|ev evs IH]; intros s Hall; [done|]. simpl.
  destruct (handle_settled c s ev Hall) as (Ha & Hr & Hb & Hc).
  destruct (IH (handle c s ev)) as (-> & -> & -> & ->); [congruence|].
  done.
Qed.

Lemma run_not_rejected c evs :
  (∀ type e, Failure type e ∉ evs) → ∀ e, all (run c evs) ≠ Rejected e.
Proof.
  induction evs as [|ev evs IH] using rev_ind; intros Hnf e; [done|].
  assert (∀ type e, Failure type e ∉ evs) as Hnf'.
  { intros type e' Hin. apply (Hnf type e'). apply elem_of_app. by left. }
  rewrite run_snoc.
  destruct (decide (all (run c evs) = Pending)) as [Hp|Hp].
  2:{ destruct (handle_settled c (run c evs) ev Hp) as (-> & _). by apply IH. }
  destruct ev as [type|type e'|type e']; simpl.
  - unfold onload. cbv zeta. rewrite Hp.
    match goal with
    | |- context [bool_decide ?P && forallb ?f dataTypes] =>
        destruct (bool_decide P && forallb f dataTypes)
    end; [|done].
    unfold on_then. destruct c as [[]|e0]; [done|].
    match goal with
    | |- context [on_catch ?e ?s1] =>
        destruct (on_catch_fields e s1) as (_ & -> & _)
    end.
    done.
  - unfold onprogress. destruct (ProgressEvent.lengthComputable e'); simpl;
      by rewrite Hp.
  - destruct (Hnf type e'). apply elem_of_app. right. left.
Qed.

(** X1: the promise of [ready()] is never rejected.  Whatever the requests
    report and whatever [_createLayers] does, it is pending until
    [Promise.all] settles and fulfilled from then on; when it is fulfilled
    and the graph was not built, the error is on the console and nowhere
    else. *)
Theorem ready_is_never_rejected (createLayers : completion unit)
    (evs : list event) :
  let s := run createLayers evs in
  (∀ e, ready s ≠ Rejected e)
  ∧ (ready s = Fulfilled ↔ all s ≠ Pending)
  ∧ (built s = true → console s = [] ∧ createLayers = Ok ())
  ∧ (ready s = Fulfilled → built s = false → ∃ e, console s = [e]).
Proof.
  simpl. unfold ready.
  destruct (run_phase createLayers evs)
    as [(Hr & Ha & Hb & Hc)
       |[(Hr & Ha & Hb & Hc & Hok)
        |[(e & Hr & Ha & Hb & Hc & Hthrow)|(e & Hr & Ha & Hb & Hc)]]];
    rewrite Hr, Ha, Hb, Hc; split_and!; try done; eauto.
Qed.

(** X2: when a request that has not loaded fails while [Promise.all] is
    pending, the graph is never built, whatever arrives afterwards: the
    failure is logged, and [ready()] is fulfilled all the same. *)
Theorem failed_request_prevents_build (createLayers : completion unit)
    (evs1 evs2 : list event) (type : string) (e : Error) :
  all (run createLayers evs1) = Pending →
  Load type ∉ evs1 →
  let s := run createLayers (evs1 ++ Failure type e :: evs2) in
  built s = false ∧ console s = [e] ∧ all s = Rejected e
  ∧ ready s = Fulfilled.
Proof.
  intros Hp Hnew. simpl. unfold run, ready. rewrite foldl_app. simpl.
  fold (run createLayers evs1).
  destruct (run_phase createLayers evs1)
    as [(Hr & Ha & Hb & Hc)|[(_ & Ha & _)|[(? & _ & Ha & _)|(? & _ & Ha & _)]]];
    try congruence.
  assert (all (onerror type e (run createLayers evs1)) = Rejected e
          ∧ _ready (onerror type e (run createLayers evs1)) = Fulfilled
          ∧ built (onerror type e (run createLayers evs1)) = false
          ∧ console (onerror type e (run createLayers evs1)) = [e])
    as (Ha1 & Hr1 & Hb1 & Hc1).
  { unfold onerror. rewrite decide_False by by rewrite run_loaded.
    rewrite Hp.
    match goal with
    | |- context [on_catch ?e ?s1] =>
        destruct (on_catch_fields e s1) as (-> & -> & -> & -> & _)
    end.
    simpl. by rewrite Hb, Hc. }
  destruct (foldl_settled createLayers
              (onerror type e (run createLayers evs1)) evs2)
    as (-> & -> & -> & ->); [by rewrite Ha1|].
  done.
Qed.

(** X3: as long as no request fails, [ready()] is fulfilled exactly when
    the three artifacts have arrived, and the graph is built exactly when,
    in addition, [_createLayers] did not throw: a fulfilled [ready()] does
    not tell that the model is usable. *)
Theorem build_waits_for_all_artifacts (createLayers : completion unit)
    (evs : list event) :
  (∀ type e, Failure type e ∉ evs) →
  let s := run createLayers evs in
  (ready s = Fulfilled ↔ ∀ t, t ∈ dataTypes → Load t ∈ evs)
  ∧ (built s = true
     ↔ createLayers = Ok () ∧ ∀ t, t ∈ dataTypes → Load t ∈ evs).
Proof.
  intros Hnf. simpl. unfold ready.
  pose proof (run_waiting createLayers evs Hnf) as Hw.
  pose proof (run_not_rejected createLayers evs Hnf) as Hnr.
  destruct (run_phase createLayers evs)
    as [(Hr & Ha & Hb & Hc)
       |[(Hr & Ha & Hb & Hc & Hok)
        |[(e & Hr & Ha & Hb & Hc & Hthrow)|(e & Hr & Ha & Hb & Hc)]]];
    rewrite Hr, Hb; rewrite Ha in Hw.
  - split; (split; [done|]).
    + intros Hall. apply Hw in Hall. done.
    + intros [_ Hall]. apply Hw in Hall. done.
  - assert (∀ t, t ∈ dataTypes → Load t ∈ evs) by by apply Hw.
    split; (split; done).
  - assert (∀ t, t ∈ dataTypes → Load t ∈ evs) by by apply Hw.
    split; (split; [done|]); [done|]. intros [Hok _]. congruence.
  - by destruct (Hnr e).
Qed.

End request_facts.

Lemma failed_request_prevents_build_witness :
  let s := Xhr.run (Ok ())
             ([Xhr.Load "weights"]
              ++ Xhr.Failure "model" (ArtifactLoadError "model")
                 :: [Xhr.Load "metadata"]) in
  Loader.built s = false
  ∧ Loader.console s = [ArtifactLoadError "model"]
  ∧ Loader.all s = Loader.Rejected (ArtifactLoadError "model")
  ∧ Loader.ready s = Loader.Fulfilled.
Proof.
  apply (failed_request_prevents_build (Ok ()) [Xhr.Load "weights"]
           [Xhr.Load "metadata"]).
  - reflexivity.
  - by intros [=]%list_elem_of_singleton.
Defined.

Lemma build_waits_for_all_artifacts_witness :
  let evs := [Xhr.Load "weights"; Xhr.Load "model"; Xhr.Load "metadata"] in
  (Loader.ready (Xhr.run (Throw MissingWeightError) evs) = Loader.Fulfilled
   ↔ ∀ t, t ∈ Loader.dataTypes → Xhr.Load t ∈ evs)
  ∧ (Loader.built (Xhr.run (Throw MissingWeightError) evs) = true
     ↔ Throw MissingWeightError = Ok ()
       ∧ ∀ t, t ∈ Loader.dataTypes → Xhr.Load t ∈ evs).
Proof.
  apply (build_waits_for_all_artifacts (Throw MissingWeightError)
           [Xhr.Load "weights"; Xhr.Load "model"; Xhr.Load "metadata"]).
  intros type e Hin. repeat (apply elem_of_cons in Hin as [Hin|Hin]; [done|]).
  by apply elem_of_nil in Hin.
Defined.

Section progress_facts.
Import Loader Xhr.
Implicit Types (s : state) (c : completion unit) (evs : list event).

Lemma handle_progress c s ev :
  xhrProgress (handle c s ev)
  = match ev with
    | Load type => JS.put (xhrProgress s) type 100
    | Progress type e =>
        if ProgressEvent.lengthComputable e
        then JS.put (xhrProgress s) type (percentComplete e)
        else xhrProgress s
    | Failure _ _ => xhrProgress s
    end.
Proof.
  destruct ev as [type|type e|type e]; simpl.
  - unfold onload. cbv zeta.
    match goal with
    | |- context [bool_decide ?P && forallb ?f dataTypes] =>
        destruct (bool_decide P && forallb f dataTypes)
    end; [|done].
    unfold on_then. destruct c as [[]|e0]; [done|].
    match goal with
    | |- context [on_catch ?e ?s1] =>
        destruct (on_catch_fields e s1) as (_ & _ & _ & _ & _ & ->)
    end.
    done.
  - unfold onprogress. by destruct (ProgressEvent.lengthComputable e).
  - unfold onerror. case_decide; [done|]. destruct (all s); try done.
    match goal with
    | |- context [on_catch ?e ?s1] =>
        destruct (on_catch_fields e s1) as (_ & _ & _ & _ & _ & ->)
    end.
    done.
Qed.

Lemma percentComplete_le e :
  0 < ProgressEvent.total e →
  ProgressEvent.loaded e ≤ ProgressEvent.total e →
  percentComplete e ≤ 100.
Proof.
  intros Ht Hl. unfold percentComplete.
  apply Nat.lt_succ_r. apply Nat.Div0.div_lt_upper_bound. lia.
Qed.

(** The three percentages stay three, each at most 100. *)
Lemma run_percentages c evs :
  Forall wellformed evs →
  ∃ a b d,
    xhrProgress (run c evs) = [("model", a); ("weights", b); ("metadata", d)]
    ∧ a ≤ 100 ∧ b ≤ 100 ∧ d ≤ 100.
Proof.
  induction evs as [|ev evs IH] using rev_ind; intros Hwf.
  { exists 0, 0, 0. split; [done|lia]. }
  apply Forall_app in Hwf as [Hwf [[Hty Hev] _]%Forall_cons].
  destruct (IH Hwf) as (a & b & d & Hp & Ha & Hb & Hd).
  rewrite run_snoc, handle_progress, Hp.
  assert (∀ v, v ≤ 100 →
            ∃ a' b' d',
              JS.put [("model", a); ("weights", b); ("metadata", d)]
                (type_of ev) v
              = [("model", a'); ("weights", b'); ("metadata", d')]
              ∧ a' ≤ 100 ∧ b' ≤ 100 ∧ d' ≤ 100) as Hput.
  { intros v Hv. unfold dataTypes in Hty.
    repeat (apply elem_of_cons in Hty as [->|Hty]);
      [exists v, b, d|exists a, v, d|exists a, b, v|by apply elem_of_nil in Hty];
      (split; [done|lia]). }
  destruct ev as [type|type e|type e]; simpl in *.
  - apply Hput. lia.
  - destruct (ProgressEvent.lengthComputable e); [|by exists a, b, d].
    apply Hput. destruct Hev as [? ?]; [done|]. by apply percentComplete_le.
  - by exists a, b, d.
Qed.

(** After the load of an artifact and until the next progress event of its
    request, its percentage is 100. *)
Lemma run_loaded_percentage c evs1 evs2 t :
  (∀ e, Progress t e ∉ evs2) →
  JS.get (xhrProgress (run c (evs1 ++ Load t :: evs2))) t = Some 100.
Proof.
  induction evs2 as [|ev evs2 IH] using rev_ind; intros Hnp.
  - rewrite run_snoc, handle_progress. apply get_put_eq.
  - assert (∀ e, Progress t e ∉ evs2) as Hnp'.
    { intros e Hin. apply (Hnp e). apply elem_of_app. by left. }
    specialize (IH Hnp').
    replace (evs1 ++ Load t :: evs2 ++ [ev])
      with ((evs1 ++ Load t :: evs2) ++ [ev])
      by by rewrite <-app_assoc.
    rewrite run_snoc, handle_progress.
    destruct ev as [type|type e|type e]; [| |done].
    + destruct (decide (type = t)) as [->|Hne];
        [apply get_put_eq|by rewrite get_put_ne].
    + destruct (ProgressEvent.lengthComputable e); [|done].
      rewrite get_put_ne; [done|]. intros ->. apply (Hnp e).
      apply elem_of_app. right. left.
Qed.

(** X4: with the events a browser sends, [getLoadingProgress] is a
    percentage, and it is 100 when every artifact has been loaded and no
    progress event of its request came after. *)
Theorem loading_progress_is_a_percentage (createLayers : completion unit)
    (evs : list event) :
  Forall wellformed evs →
  getLoadingProgress (run createLayers evs) ≤ 100
  ∧ ((∀ t, t ∈ dataTypes →
        ∃ evs1 evs2, evs = evs1 ++ Load t :: evs2
                     ∧ ∀ e, Progress t e ∉ evs2) →
     getLoadingProgress (run createLayers evs) = 100).
Proof.
  intros Hwf.
  destruct (run_percentages createLayers evs Hwf)
    as (a & b & d & Hp & Ha & Hb & Hd).
  unfold getLoadingProgress. rewrite Hp.
  change (JS.values [("model", a); ("weights", b); ("metadata", d)])
    with [a; b; d].
  change (sum_list [a; b; d]) with (a + (b + (d + 0))).
  change (List.length [a; b; d]) with 3.
  split.
  - apply Nat.lt_succ_r. apply Nat.Div0.div_lt_upper_bound. lia.
  - intros Hlast.
    assert (∀ t, t ∈ dataTypes →
              JS.get (xhrProgress (run createLayers evs)) t = Some 100)
      as Hget.
    { intros t Ht. destruct (Hlast t Ht) as (evs1 & evs2 & -> & Hnp).
      by apply run_loaded_percentage. }
    rewrite Hp in Hget.
    pose proof (Hget "model" ltac:(by left)) as [= ->].
    pose proof (Hget "weights" ltac:(by right; left)) as [= ->].
    pose proof (Hget "metadata" ltac:(by right; right; left)) as [= ->].
    reflexivity.
Qed.

Lemma interrupt_one_idle s t :
  (∀ x, ¬ in_flight s t x) → _interrupt_one s t = s.
Proof.
  unfold in_flight, _interrupt_one. intros Hidle.
  destruct (JS.get (xhrs s) t) as [[x|]|]; [|done..]. by destruct (Hidle x).
Qed.

Lemma interrupt_one_keeps_idle s t t' :
  t = t' ∨ (∀ x, ¬ in_flight s t' x) →
  ∀ x, ¬ in_flight (_interrupt_one s t) t' x.
Proof.
  unfold in_flight, _interrupt_one. intros Hidle x.
  destruct (JS.get (xhrs s) t) as [[y|]|] eqn:Hget; simpl.
  - destruct (decide (t = t')) as [->|Hne].
    + by rewrite get_put_eq.
    + rewrite get_put_ne by done. destruct Hidle as [?|Hidle]; [done|].
      apply Hidle.
  - destruct Hidle as [<-|Hidle]; [by rewrite Hget|apply Hidle].
  - destruct Hidle as [<-|Hidle]; [by rewrite Hget|apply Hidle].
Qed.

(** X5: [_interrupt] clears the slot of every request it aborts, so a
    second call finds nothing to abort and changes nothing. *)
Theorem interrupt_twice_is_interrupt_once (s : state) :
  _interrupt (_interrupt s) = _interrupt s.
Proof.
  unfold _interrupt at 1. simpl.
  assert (∀ t, t ∈ ["model"; "weights"; "metdata"] →
            ∀ x, ¬ in_flight (_interrupt s) t x) as Hidle.
  { intros t Ht. unfold _interrupt. simpl.
    repeat (apply elem_of_cons in Ht as [->|Ht]).
    - do 2 (apply interrupt_one_keeps_idle; right).
      apply interrupt_one_keeps_idle. by left.
    - apply interrupt_one_keeps_idle; right.
      apply interrupt_one_keeps_idle. by left.
    - apply interrupt_one_keeps_idle. by left.
    - by apply elem_of_nil in Ht. }
  rewrite (interrupt_one_idle (_interrupt s) "model")
    by (apply Hidle; by left).
  rewrite (interrupt_one_idle (_interrupt s) "weights")
    by (apply Hidle; by right; left).
  apply interrupt_one_idle. apply Hidle. by right; right; left.
Qed.

End progress_facts.

Lemma loading_progress_is_a_percentage_witness :
  let half := {| ProgressEvent.lengthComputable := true;
                 ProgressEvent.loaded := 1; ProgressEvent.total := 3 |} in
  Loader.getLoadingProgress
    (Xhr.run (Ok ()) [Xhr.Progress "weights" half; Xhr.Load "model"]) ≤ 100.
Proof.
  intros half.
  apply (loading_progress_is_a_percentage (Ok ())
           [Xhr.Progress "weights" half; Xhr.Load "model"]).
  repeat constructor; try (apply (bool_decide_unpack _); reflexivity);
    simpl; lia.
Defined.

(** ** The graph that [_createLayers] builds *)

Section construction_facts.
Context `{Layers} {regexp : JS.RegExp}.








Lemma createLayer_name gpu pipeline layerDef layer :
  createLayer gpu pipeline layerDef = Ok layer →
  name layer = layerName layerDef.
Proof.
  unfold createLayer. case_decide; [|by intros [= <-]].
  destruct (Keras.layer _) as [[wrapped ?]|]; [|done].
  destruct (implemented wrapped); [|done]. by intros [= <-].
Qed.










End construction_facts.



(** ** The layers that [_createLayers] makes, and its errors *)

Section layer_facts.
Context `{Layers} {regexp : JS.RegExp}.

Lemma mapM_Ok {A B} (f : A → completion B) l k :
  mapM f l = Ok k ↔ Forall2 (λ x y, f x = Ok y) l k.
Proof.
  revert k. induction l as [|x l IH]; intros k; simpl.
  - split; [intros [= <-]; constructor|by intros ->%Forall2_nil_inv_l].
  - destruct (f x) as [y|e] eqn:Hx; simpl.
    + destruct (mapM f l) as [k'|e] eqn:Hl; simpl.
      * split.
        -- intros [= <-]. constructor; [done|]. by apply IH.
        -- intros (y' & k'' & Hy & Hk & ->)%Forall2_cons_inv_l.
           apply IH in Hk. assert (y = y') as -> by congruence.
           by assert (k' = k'') as -> by congruence.
      * split; [done|].
        intros (y' & k'' & Hy & Hk & ->)%Forall2_cons_inv_l.
        by apply IH in Hk.
    + split; [done|].
      intros (y' & k'' & Hy & Hk & ->)%Forall2_cons_inv_l. congruence.
Qed.



(** What [createInput] does to the layers and to the data. *)
Lemma createInput_layers modelClass index layerDef m m1 :
  createInput modelClass index layerDef m = Ok m1 →
  data_metadata m1 = data_metadata m ∧ data_weights m1 = data_weights m
  ∧ gpu m1 = gpu m ∧ pipeline m1 = pipeline m
  ∧ ∀ x, (modelClass = "Sequential" → 0 < index) →
      modelLayersMap m1 !! x = modelLayersMap m !! x.
Proof.
  unfold createInput. case_decide as Hfirst.
  - destruct (inputShape _) as [sh|]; simpl; [|done]. intros [= <-]. simpl.
    split_and!; try done. intros x Hpos. destruct Hfirst as [Hc ->].
    specialize (Hpos Hc). lia.
  - case_decide.
    + destruct (inputShape _) as [sh|]; simpl; [|done]. by intros [= <-].
    + by intros [= <-].
Qed.

(** One layer of the description: the layer object it leaves behind. *)
Lemma createLayers_body_layer modelClass modelConfig index layerDef m m' :
  createLayers_body modelClass modelConfig index layerDef m = Ok m' →
  implemented (Keras.class_name layerDef) = true
  ∧ data_metadata m' = data_metadata m ∧ data_weights m' = data_weights m
  ∧ (∃ l names,
       modelLayersMap m' !! layerName layerDef = Some l
       ∧ layerClass l = Keras.class_name layerDef
       ∧ name l = layerName layerDef
       ∧ hasResult l = false
       ∧ weightNames layerDef = Ok names
       ∧ Forall2 (λ weightName w,
                    bindWeight (data_metadata m) (data_weights m)
                      (layerName layerDef) weightName = Ok w)
           names (weights l))
  ∧ ∀ x, x ≠ layerName layerDef →
      (modelClass = "Sequential" → 0 < index) →
      modelLayersMap m' !! x = modelLayersMap m !! x.
Proof.
  unfold createLayers_body.
  destruct (implemented _); simpl; [|done].
  destruct (createInput modelClass index layerDef m) as [m1|] eqn:Hinput;
    simpl; [|done].
  destruct (createLayer _ _ _) as [layer|] eqn:Hlayer; simpl; [|done].
  destruct (weightNames _) as [names|]; simpl; [|done].
  destruct (mapM _ names) as [ws|] eqn:Hws; simpl; [|done].
  destruct (createEdges _ _ _ _ _) as [dag'|]; simpl; [|done].
  intros [= <-]. simpl.
  destruct (createInput_layers _ _ _ _ _ Hinput) as (Hm & Hr & _ & _ & Hl).
  split; [done|]. split; [done|]. split; [done|]. split.
  - eexists _, names. unfold layerName. rewrite lookup_insert_eq.
    split; [done|]. simpl. split; [done|].
    split; [by eapply createLayer_name|]. split; [done|]. split; [done|].
    by apply mapM_Ok.
  - intros x Hx Hpos. unfold layerName in Hx.
    rewrite lookup_insert_ne by done. by apply Hl.
Qed.

(** X8: when [_createLayers] succeeds on a description of layers with
    distinct names, every layer of the description is of an implemented
    class and has its layer object, filed under its name, of its class, not
    yet computed, and holding one weight tensor for each of its weight names,
    in their order: a host tensor with the shape of the first metadata entry
    of the layer that the expression made from the weight name matches, on
    the window of the raw buffer that this entry describes. *)
Theorem built_layers_hold_their_weights (gpu pipeline pauses : bool)
    (model : Keras.model) (raw : JS.ArrayBuffer) (metadata : list Meta.entry)
    (m : Model) :
  Keras.model_class_name model ∈ ["Sequential"; "Model"] →
  NoDup (names_of (Keras.model_config model)) →
  _createLayers (Model_new gpu pipeline pauses model raw metadata) = Ok m →
  ∀ layerDef, layerDef ∈ Keras.model_config model →
    implemented (Keras.class_name layerDef) = true
    ∧ ∃ l names,
        modelLayersMap m !! layerName layerDef = Some l
        ∧ layerClass l = Keras.class_name layerDef
        ∧ name l = layerName layerDef
        ∧ hasResult l = false
        ∧ weightNames layerDef = Ok names
        ∧ Forall2 (λ weightName w,
                     JS.RegExp_valid ("^" +:+ weightName) = true
                     ∧ ∃ meta,
                         head (matching metadata (layerName layerDef)
                                 weightName) = Some meta
                         ∧ w = Tensor_new
                                 {| JS.buffer := raw;
                                    JS.byteOffset := Meta.offset meta;
                                    JS.length := Meta.length meta |}
                                 (Meta.shape meta)
                         ∧ Meta.offset meta mod 4 = 0
                         ∧ Meta.offset meta + 4 * Meta.length meta
                           ≤ length raw)
            names (weights l).
Proof.
  intros Hclass Hnd. unfold _createLayers. simpl.
  set (config := Keras.model_config model) in *.
  assert ((if decide (Keras.model_class_name model = "Sequential")
           then config
           else if decide (Keras.model_class_name model = "Model")
                then config else []) = config) as ->.
  { repeat case_decide; try done.
    apply elem_of_cons in Hclass as [?|Hclass]; [done|].
    by apply list_elem_of_singleton in Hclass. }
  intros Hbuild.
  pose proof (forEach_invariant_lookup
    (λ i s,
       data_metadata s = metadata ∧ data_weights s = raw
       ∧ ∀ j layerDef, j < i → config !! j = Some layerDef →
           implemented (Keras.class_name layerDef) = true
           ∧ ∃ l names,
               modelLayersMap s !! layerName layerDef = Some l
               ∧ layerClass l = Keras.class_name layerDef
               ∧ name l = layerName layerDef
               ∧ hasResult l = false
               ∧ weightNames layerDef = Ok names
               ∧ Forall2 (λ weightName w,
                            bindWeight metadata raw (layerName layerDef)
                              weightName = Ok w) names (weights l))
    (createLayers_body (Keras.model_class_name model) config) config 0
    (Model_new gpu pipeline pauses model raw metadata) m) as Hinv.
  destruct Hinv as (_ & _ & Hall); [| |exact Hbuild|].
  - intros j x s s' Hj (Hm & Hr & Hall) Hbody. simpl in *.
    destruct (createLayers_body_layer _ _ _ _ _ _ Hbody)
      as (Himpl & Hm' & Hr' & (l & names & Hl) & Hsame).
    split; [congruence|]. split; [congruence|].
    intros j' layerDef Hlt Hj'.
    destruct (decide (j' = j)) as [->|Hne].
    + assert (layerDef = x) as -> by congruence.
      split; [done|]. exists l, names. by rewrite <-Hm, <-Hr.
    + assert (j' < j) as Hlt' by lia.
      destruct (Hall j' layerDef Hlt' Hj') as (Hi' & l' & names' & Hl' & Hrest).
      split; [done|]. exists l', names'. split; [|done].
      rewrite Hsame; [done| |lia].
      intros Heq. apply Hne.
      eapply (NoDup_lookup (names_of config) _ _ (layerName layerDef));
        [done| |].
      * unfold names_of. by rewrite list_lookup_fmap, Hj'.
      * unfold names_of. rewrite list_lookup_fmap, Hj. simpl. by rewrite Heq.
  - simpl. split; [done|]. split; [done|]. lia.
  - intros layerDef (i & Hi)%list_elem_of_lookup_1.
    destruct (Hall i layerDef) as (Himpl & l & names & Hl & Hc & Hn & Hh
                                   & Hnames & Hws);
      [simpl; by eapply lookup_lt_Some|done|].
    split; [done|]. exists l, names. split_and!; try done.
    eapply Forall2_impl; [exact Hws|]. intros weightName w.
    apply bindWeight_Ok.
Qed.

End layer_facts.

Lemma built_layers_hold_their_weights_witness :
  let dense := Example.layerDef "Dense" "dense_1" [] in
  let model := {| Keras.model_class_name := "Sequential";
                  Keras.model_config := [dense] |} in
  let raw := JS.buffer Example.twoFloats in
  let metadata :=
    [{| Meta.layer_name := "dense_1"; Meta.weight_name := "dense_1_W";
        Meta.offset := 0; Meta.length := 1; Meta.shape := [1] |};
     {| Meta.layer_name := "dense_1"; Meta.weight_name := "dense_1_b";
        Meta.offset := 4; Meta.length := 1; Meta.shape := [1] |}] in
  ∃ m,
    _createLayers (H := Example.layers) (regexp := Example.regexp)
      (Model_new false false false model raw metadata) = Ok m
    ∧ implemented (Layers := Example.layers) (Keras.class_name dense) = true
    ∧ ∃ l names,
        modelLayersMap m !! layerName dense = Some l
        ∧ layerClass l = Keras.class_name dense
        ∧ name l = layerName dense
        ∧ hasResult l = false
        ∧ weightNames (H := Example.layers) dense = Ok names
        ∧ Forall2 (λ weightName w,
                     JS.RegExp_valid (RegExp := Example.regexp)
                       ("^" +:+ weightName) = true
                     ∧ ∃ meta,
                         head (matching (regexp := Example.regexp) metadata
                                 (layerName dense) weightName) = Some meta
                         ∧ w = Tensor_new
                                 {| JS.buffer := raw;
                                    JS.byteOffset := Meta.offset meta;
                                    JS.length := Meta.length meta |}
                                 (Meta.shape meta)
                         ∧ Meta.offset meta mod 4 = 0
                         ∧ Meta.offset meta + 4 * Meta.length meta
                           ≤ length raw)
            names (weights l).
Proof.
  intros dense model raw metadata. eexists.
  split; [vm_compute; reflexivity|].
  apply (built_layers_hold_their_weights (H := Example.layers)
           (regexp := Example.regexp) false false false model raw metadata _).
  - left.
  - apply (bool_decide_unpack _). vm_compute. reflexivity.
  - vm_compute. reflexivity.
  - left.
Defined.

Section error_facts.
Context `{Layers} {regexp : JS.RegExp}.









End error_facts.


Section empty_graph_facts.
Context `{Layers} {regexp : JS.RegExp}.

(** X10: a description that names no layer, or whose class is neither
    Sequential nor Model, builds an empty graph without error.  [predict]
    then accepts the empty input object only; for class Model it resolves
    with an empty object, for class Sequential it is rejected with a
    TypeError (there is no output node to read) and for any other class it
    resolves with [undefined], in both cases leaving [isRunning] true. *)
Theorem empty_graph_predictions (gpu pipeline pauses : bool)
    (model : Keras.model) (raw : JS.ArrayBuffer) (metadata : list Meta.entry)
    (fuel : nat) :
  0 < fuel →
  Keras.model_class_name model ∉ ["Sequential"; "Model"]
  ∨ Keras.model_config model = [] →
  let m0 := Model_new gpu pipeline pauses model raw metadata in
  _createLayers m0 = Ok m0
  ∧ predict fuel [] m0
    = Some (if decide (Keras.model_class_name model = "Model")
            then (set_isRunning false (afterReset m0), Resolved (Some []))
            else if decide (Keras.model_class_name model = "Sequential")
                 then (afterReset m0, Rejected [TypeError])
                 else (afterReset m0, Resolved None))
  ∧ isRunning (afterReset m0) = true
  ∧ ∀ inputData, inputData ≠ [] →
      predict fuel inputData m0
      = Some (set_isRunning false (set_isRunning true m0),
              Rejected [InvalidInputError (WrongNames [])]).
Proof.
  intros Hfuel Hempty m0.
  assert (_createLayers m0 = Ok m0) as Hbuild.
  { unfold _createLayers, m0. simpl.
    destruct Hempty as [Hclass| ->]; [|by repeat case_decide].
    rewrite decide_False by (intros Heq; apply Hclass; rewrite Heq; left).
    rewrite decide_False; [done|].
    intros Heq; apply Hclass; rewrite Heq. right; left. }
  split; [done|]. split; [|split; [done|]].
  - destruct fuel as [|fuel]; [lia|].
    unfold predict, checkInputNames, checkInputValues, inputNames_of, m0.
    simpl. unfold collectOutputs. simpl.
    repeat case_decide; try done. congruence.
  - intros inputData Hne.
    assert (checkInputNames inputData (set_isRunning true m0) = false) as Hn.
    { unfold checkInputNames, inputNames_of, JS.isEqual, m0.
      apply bool_decide_eq_false_2.
      change (JS.sort (JS.keys inputData) ≠ JS.sort []).
      rewrite sort_eq_iff. intros Hperm%Permutation_nil_r.
      by destruct inputData. }
    unfold predict. cbv zeta. rewrite Hn. reflexivity.
Qed.

End empty_graph_facts.

Lemma empty_graph_predictions_witness :
  let model := {| Keras.model_class_name := "Graph";
                  Keras.model_config :=
                    [Example.layerDef "Dense" "dense_1" []] |} in
  let m0 := Model_new false false false model [] [] in
  _createLayers (H := Example.layers) (regexp := Example.regexp) m0 = Ok m0
  ∧ predict (H := Example.layers) 1 [] m0
    = Some (afterReset m0, Resolved None).
Proof.
  intros model m0.
  destruct (empty_graph_predictions (H := Example.layers) (regexp := Example.regexp) false false false
              model [] [] 1) as (Hbuild & Hp & _).
  - lia.
  - left. apply (bool_decide_unpack _). vm_compute. reflexivity.
  - split; [exact Hbuild|exact Hp].
Defined.

(** ** What a call leaves of the model *)

Section kept_facts.
Context `{Layers}.

Lemma static_reset m n :
  Layer_static <$> modelLayersMap (afterReset m) !! n
  = Layer_static <$> modelLayersMap m !! n.
Proof. simpl. rewrite lookup_fmap. by destruct (modelLayersMap m !! n). Qed.

Lemma dag_ok_isRunning b m seen dag :
  dag_ok m seen dag → dag_ok (set_isRunning b m) seen dag.
Proof.
  revert seen. induction dag as [|[n nd] dag IH]; intros seen; simpl;
    [done|].
  intros [Hn Hrest]. split; [exact Hn|by apply IH].
Qed.

Lemma valid_dag_isRunning b m : valid_dag m → valid_dag (set_isRunning b m).
Proof.
  intros (Hnd & Hdag & Hnames & Hinp & Ht). unfold valid_dag.
  split_and!; try done. by apply dag_ok_isRunning.
Qed.

(** X11: a call of [predict], however it ends, leaves the graph, the input
    tensors' names, the description and every layer's class, name, mode and
    weights as they were; and when it resolves on a valid DAG, the model is a
    valid DAG again, ready for the next call. *)
Theorem predict_keeps_the_model (fuel : nat) (inputData : JS.object JS.value)
    (m m' : Model) (o : outcome) :
  predict fuel inputData m = Some (m', o) →
  modelDAG m' = modelDAG m
  ∧ inputTensors m' = inputTensors m
  ∧ data_model m' = data_model m
  ∧ (∀ n, Layer_static <$> modelLayersMap m' !! n
          = Layer_static <$> modelLayersMap m !! n)
  ∧ (valid_dag m → ∀ out, o = Resolved out → valid_dag m').
Proof.
  intros Hp.
  destruct (checkInputNames inputData m) eqn:Hnames.
  2:{ revert Hp. unfold predict.
      change (checkInputNames inputData (set_isRunning true m))
        with (checkInputNames inputData m).
      rewrite Hnames. simpl. intros [= <- <-]. by split_and!. }
  destruct (checkInputValues inputData m) eqn:Hvalues.
  2:{ revert Hp. unfold predict.
      change (checkInputNames inputData (set_isRunning true m))
        with (checkInputNames inputData m).
      change (checkInputValues inputData (set_isRunning true m))
        with (checkInputValues inputData m).
      rewrite Hnames, Hvalues. simpl. intros [= <- <-]. by split_and!. }
  rewrite (predict_checked fuel inputData m Hnames Hvalues) in Hp.
  pose proof (loadInputs_steps inputData (inputNames_of (afterReset m))
                (afterReset m)) as Hsteps12.
  assert (∀ s, same_graph (afterReset m) s →
            modelDAG s = modelDAG m ∧ inputTensors s = inputTensors m
            ∧ data_model s = data_model m
            ∧ (∀ n, Layer_static <$> modelLayersMap s !! n
                    = Layer_static <$> modelLayersMap m !! n)) as Hkept.
  { intros s Hsame. split_and!; try apply Hsame.
    intros n. rewrite (sg_static _ _ Hsame n). apply static_reset. }
  destruct (loadInputs _ _ _) as [m2 [[]|e]]; simpl in *.
  2:{ injection Hp as <- <-.
      destruct (Hkept m2) as (? & ? & ? & ?);
        [by eapply steps_same_graph|].
      by split_and!. }
  destruct (_traverseDAG fuel _ m2) as [m3|] eqn:Hm3; [|done]. simpl in Hp.
  destruct (runTimers fuel fuel m3) as [m4|] eqn:Hm4; [|done]. simpl in Hp.
  assert (rtc (sched_step inputData) (afterReset m) m4) as Hsteps.
  { etrans; [exact Hsteps12|].
    etrans; [by eapply traverseDAG_steps|by eapply runTimers_steps]. }
  pose proof (steps_same_graph _ _ _ Hsteps) as Hsame.
  destruct (Hkept m4 Hsame) as (Hdag & Hinp & Hmodel & Hstatic).
  assert (valid_dag m → valid_dag m4) as Hvalid4.
  { intros Hvalid.
    eapply valid_dag_same_graph; [exact Hsame|by eapply runTimers_empty|].
    by apply valid_dag_reset. }
  destruct (rejections m4) eqn:Hrej.
  - injection Hp as Hp.
    assert (m' = (collectOutputs m4).1) as -> by by rewrite Hp.
    destruct (collectOutputs_state m4) as [->| ->];
      (split_and!;
       [exact Hdag|exact Hinp|exact Hmodel|exact Hstatic
       |intros Hv out _; try apply valid_dag_isRunning; exact (Hvalid4 Hv)]).
  - injection Hp as <- <-.
    split_and!; [exact Hdag|exact Hinp|exact Hmodel|exact Hstatic|done].
Qed.

End kept_facts.

Lemma predict_keeps_the_model_witness :
  let m := Example.built true (Example.diamond "broken") in
  ∃ m' o,
    predict (H := Example.layers) 12 (Example.inputData "in_1") m
    = Some (m', o)
    ∧ modelDAG m' = modelDAG m
    ∧ inputTensors m' = inputTensors m
    ∧ data_model m' = data_model m
    ∧ (∀ n, Layer_static <$> modelLayersMap m' !! n
            = Layer_static <$> modelLayersMap m !! n)
    ∧ (valid_dag m → ∀ out, o = Resolved out → valid_dag m').
Proof.
  intros m. eexists _, _. split; [vm_compute; reflexivity|].
  apply (predict_keeps_the_model (H := Example.layers) 12
           (Example.inputData "in_1") m).
  vm_compute. reflexivity.
Defined.

(** ** The order in which the layers are computed *)

Section order_facts.
Context `{Layers}.
Implicit Types (m : Model) (inputData : JS.object JS.value).

(** [computeNode] goes on only after a call, and a call needs an inbound
    layer unless the node is a Merge node. *)
Lemma computeNode_go node nd m :
  (computeNode node nd m).2 = true →
  Node.layerClass nd = "Merge" ∨ Node.inbound nd ≠ [].
Proof.
  unfold computeNode.
  destruct (modelLayersMap m !! node) as [currentLayer|]; [|done].
  destruct (visited currentLayer); [done|].
  destruct (mapM _ (Node.inbound nd)) as [inboundLayers|] eqn:Hin; [|done].
  destruct (negb _); [done|].
  destruct (copyBeforeCall_of _ _) as [copy|]; [|done].
  destruct (decide (Node.layerClass nd = "Merge")) as [?|Hc]; [by left|].
  intros Hgo. right. intros Hnil. rewrite Hnil in Hin. simpl in Hin.
  injection Hin as <-. simpl in Hgo. done.
Qed.

Lemma snoc_split {A} (l1 l2 log : list A) n x :
  l1 ++ n :: l2 = log ++ [x] →
  (l2 = [] ∧ l1 = log ∧ n = x) ∨ ∃ l2', l2 = l2' ++ [x] ∧ log = l1 ++ n :: l2'.
Proof.
  destruct l2 as [|y l2 _] using rev_ind.
  - intros [-> ->]%app_inj_tail. by left.
  - rewrite app_comm_cons, app_assoc. intros [<- ->]%app_inj_tail.
    right. by exists l2.
Qed.

Lemma step_log_ordered inputData m m' :
  sched_step inputData m m' → run_ok m → results_logged m →
  log_ordered m → log_ordered m'.
Proof.
  intros Hstep (_ & Hnames & _) Hlogged Hord.
  destruct Hstep as [inputName m|node nd m Hnd| | |]; try done.
  - destruct (loadInput_cases inputData inputName m)
      as (hp & Hlen & [->|(l & r & Hl & Hkey & Hr & ->)]); done.
  - pose proof (computeNode_go node nd m) as Hgo.
    destruct (computeNode_cases node nd m)
      as [| |e h c|cur ins a h Hcur Hvis Hin HF Ha]; simpl; try done.
    intros l1 n l2. simpl. intros Hsplit.
    rewrite (Hnames node cur Hcur) in Hsplit. symmetry in Hsplit.
    apply snoc_split in Hsplit as [(-> & -> & ->)|(l2' & -> & Hlog)].
    + split; [exists nd; split; [done|by apply Hgo]|].
      intros k Hk. apply Hlogged. unfold inbound_of in Hk. simpl in Hk.
      rewrite Hnd in Hk. simpl in Hk.
      apply mapM_Some in Hin.
      apply list_elem_of_lookup_1 in Hk as [i Hi].
      destruct (Forall2_lookup_l _ _ _ _ _ Hin Hi) as (lk & Hlk & Hk).
      unfold computed. rewrite Hk. simpl. f_equal.
      rewrite Forall_forall in HF. apply HF.
      by eapply list_elem_of_lookup_2.
    + destruct (Hord l1 n l2' Hlog) as [Hnode Hinb]. split; [done|].
      done.
Qed.

Lemma steps_log_ordered inputData m m' :
  rtc (sched_step inputData) m m' → run_ok m → results_logged m →
  log_ordered m → log_ordered m'.
Proof.
  induction 1 as [|m1 m2 m3 Hstep _ IH]; [done|].
  intros Hrun Hlogged Hord.
  destruct (step_results _ _ _ Hstep Hrun) as [Hl _].
  apply IH; [by eapply step_run_ok|by apply Hl|by eapply step_log_ordered].
Qed.

(** X12: when a call on a valid DAG ends without anything thrown,
    [layersWithResults] lists the nodes other than the input nodes, each
    once, in an order in which every node comes after the nodes that feed
    it: a layer is never computed before its inbound layers. *)
Theorem layers_are_computed_in_dependency_order (fuel : nat)
    (inputData : JS.object JS.value) (m m' : Model) (o : outcome) :
  valid_dag m →
  checkInputNames inputData m = true →
  checkInputValues inputData m = true →
  enough_fuel m ≤ fuel →
  predict fuel inputData m = Some (m', o) →
  rejections m' = [] →
  NoDup (layersWithResults m')
  ∧ (∀ n, n ∈ layersWithResults m' ↔ computable m n)
  ∧ ∀ l1 n l2, layersWithResults m' = l1 ++ n :: l2 →
      ∀ k, k ∈ inbound_of m n → k ∈ l1 ∨ is_input m k.
Proof.
  intros Hvalid Hnames Hvalues Hfuel Hp Hrej'.
  rewrite (predict_checked fuel inputData m Hnames Hvalues) in Hp.
  destruct (loadInputs _ _ _) as [m2 [[]|e]] eqn:Hload.
  2:{ injection Hp as <- <-. simpl in Hrej'.
      by apply app_nil in Hrej' as [_ [=]]. }
  destruct (traversal_run fuel inputData m m2 Hvalid Hfuel Hload)
    as (m3 & m4 & H3 & H4 & Hsteps & Hrun & Hlogged & _ & _ & Hall).
  rewrite H3 in Hp. simpl in Hp. rewrite H4 in Hp. simpl in Hp.
  destruct (rejections m4) eqn:Hrej.
  2:{ injection Hp as <- <-. congruence. }
  injection Hp as Hp. specialize (Hall eq_refl).
  assert (layersWithResults m' = layersWithResults m4) as ->.
  { replace m' with (collectOutputs m4).1 by by rewrite Hp.
    by destruct (collectOutputs_state m4) as [->| ->]. }
  pose proof (steps_same_graph _ _ _ Hsteps) as Hsame.
  assert (modelDAG m4 = modelDAG m) as Hdag by apply Hsame.
  assert (inputTensors m4 = inputTensors m) as Hinp by apply Hsame.
  assert (log_ordered m4) as Hord.
  { eapply steps_log_ordered; [exact Hsteps|by apply run_ok_reset| |].
    - intros n Hn. by apply not_computed_reset in Hn.
    - intros l1 n l2 Hnil. simpl in Hnil. by destruct l1. }
  assert (∀ n nd, JS.get (modelDAG m) n = Some nd →
            (Node.layerClass nd = "InputLayer"
             ↔ n ∈ JS.keys (inputTensors m))
            ∧ (Node.layerClass nd = "InputLayer" ↔ Node.inbound nd = []))
    as Hnode.
  { intros n nd Hget.
    by destruct (valid_dag_node m n nd Hvalid Hget) as (? & _ & _ & ? & ? & _). }
  destruct Hrun as (_ & _ & Hnd & _). split; [done|]. split.
  - intros n. split.
    + intros (l1 & l2 & Hsplit)%list_elem_of_split.
      destruct (Hord l1 n l2 Hsplit) as [(nd & Hget & Hwhich) _].
      rewrite Hdag in Hget. exists nd. split; [done|].
      destruct (Hnode n nd Hget) as [_ Hinb].
      destruct Hwhich as [Hc|Hne]; [by rewrite Hc|].
      intros Hc. by apply Hinb in Hc.
    + intros (nd & Hget & Hc).
      destruct (Hlogged n (Hall n nd Hget)) as [?|Hin]; [done|].
      rewrite Hinp in Hin. by apply (Hnode n nd Hget) in Hin.
  - intros l1 n l2 Hsplit k Hk.
    destruct (Hord l1 n l2 Hsplit) as [_ Hinb].
    destruct (Hinb k) as [?|Hin]; [|by left|].
    + unfold inbound_of in *. by rewrite Hdag.
    + right. apply valid_dag_input; [done|]. by rewrite <-Hinp.
Qed.

End order_facts.

Lemma layers_are_computed_in_dependency_order_witness :
  let m := Example.built true (Example.diamond "right") in
  ∃ m' o,
    predict (H := Example.layers) 12 (Example.inputData "in_1") m
    = Some (m', o)
    ∧ layersWithResults m' = ["left"; "right"; "sum"]
    ∧ NoDup (layersWithResults m')
    ∧ (∀ n, n ∈ layersWithResults m' ↔ computable m n)
    ∧ ∀ l1 n l2, layersWithResults m' = l1 ++ n :: l2 →
        ∀ k, k ∈ inbound_of m n → k ∈ l1 ∨ is_input m k.
Proof.
  intros m. eexists _, _. split; [vm_compute; reflexivity|].
  split; [vm_compute; reflexivity|].
  eapply (layers_are_computed_in_dependency_order (H := Example.layers) 12
            (Example.inputData "in_1") m).
  - apply (bool_decide_unpack _). vm_compute. reflexivity.
  - vm_compute. reflexivity.
  - vm_compute. reflexivity.
  - vm_compute. lia.
  - vm_compute. reflexivity.
  - vm_compute. reflexivity.
Defined.

(** ** The tensors handed to a layer *)

Section handed_facts.
Context `{Layers}.
Implicit Types (m : Model) (x t : Tensor).

(** X13: what [_regularLayerCall] hands to the layer, when
    [transferFromPipeline] returns host tensors.  The tensor is from the
    pipeline exactly when the layer runs in pipeline mode and the inbound
    result is from the pipeline; the data and shape of a host result pass
    unchanged; with [copyBeforeCall] the layer gets a new object, and without
    it, when no transfer is needed, the inbound result itself.  No existing
    tensor is changed. *)
Theorem regular_call_hands_a_compatible_tensor (currentLayer inboundLayer : Layer)
    (copyBeforeCall : bool) (r : nat) (x : Tensor) (m : Model) :
  (∀ cls n t, _fromPipeline (transferFromPipeline cls n t) = false) →
  result inboundLayer = Some r → heap m !! r = Some x →
  ∃ a t h,
    _regularLayerCall currentLayer (Some inboundLayer) copyBeforeCall m
    = invoke currentLayer [a] (extend h [] m)
    ∧ (heap m ++ h) !! a = Some t
    ∧ _fromPipeline t = _pipelineEnabled currentLayer && _fromPipeline x
    ∧ (_fromPipeline x = false → data t = data x ∧ shape t = shape x)
    ∧ (copyBeforeCall = true → a = length (heap m) ∧ h = [t])
    ∧ (copyBeforeCall = false →
       _pipelineEnabled currentLayer = true ∨ _fromPipeline x = false →
       a = r ∧ h = [] ∧ t = x).
Proof.
  intros Htransfer Hr Hx. unfold _regularLayerCall. rewrite Hr, Hx.
  unfold regularLayerInput. rewrite !alloc_extend.
  destruct (_fromPipeline x) eqn:Hfp, (_pipelineEnabled currentLayer) eqn:Hpe,
    copyBeforeCall; simpl.
  all: first
    [ eexists (length (heap m)), _, [_];
      split; [reflexivity|]; split; [by apply list_lookup_middle|];
      simpl; rewrite ?Htransfer;
      split; [done|]; split; [done|]; split; [done|];
      intros ? [?|?]; done
    | exists r, x, []; rewrite extend_nil, app_nil_r;
      split; [done|]; split; [done|]; split; [done|]; split; [done|];
      split; [done|]; intros ? [?|?]; done ].
Qed.

(** One step of the map over the inbound results of a Merge layer. *)
Lemma mergeLayerInput_step convert copy acc m0 inboundLayer r x :
  (∀ cls n t, _fromPipeline (transferFromPipeline cls n t) = false) →
  heap m0 !! r = Some x →
  (convert = false → _fromPipeline x = true) →
  ∃ a h1 t1,
    mergeLayerInput convert copy (acc, m0) (inboundLayer, (r, x))
    = (acc ++ [a], extend h1 [] m0)
    ∧ (heap m0 ++ h1) !! a = Some t1
    ∧ _fromPipeline t1 = negb convert
    ∧ (copy = true → a = length (heap m0) ∧ h1 = [t1])
    ∧ handed convert copy inboundLayer r x a t1.
Proof.
  intros Htransfer Hx Hpipe. unfold mergeLayerInput, handed.
  rewrite !alloc_extend.
  destruct convert, (_fromPipeline x) eqn:Hfp, copy; simpl;
    try (specialize (Hpipe eq_refl); done);
    try (eexists (length (heap m0)), [_], _;
         split; [reflexivity|]; split; [by apply list_lookup_middle|];
         simpl; rewrite ?Htransfer; split_and!; try done;
         by intros ? [?|?]);
    (exists r, [], x; rewrite extend_nil, app_nil_r; split_and!; try done;
     by intros ? [?|?]).
Qed.

Lemma mergeLayerInput_fold convert copy
    (zs : list (Layer * (nat * Tensor))) acc m0 :
  (∀ cls n t, _fromPipeline (transferFromPipeline cls n t) = false) →
  Forall (λ z, heap m0 !! z.2.1 = Some z.2.2
               ∧ (convert = false → _fromPipeline z.2.2 = true)) zs →
  ∃ new h ts,
    foldl (mergeLayerInput convert copy) (acc, m0) zs
    = (acc ++ new, extend h [] m0)
    ∧ mapM ((heap m0 ++ h) !!.) new = Some ts
    ∧ length ts = length zs
    ∧ Forall (λ t, _fromPipeline t = negb convert) ts
    ∧ (copy = true → new = seq (length (heap m0)) (length zs) ∧ h = ts)
    ∧ ∀ i l r x, zs !! i = Some (l, (r, x)) →
        ∃ a t, new !! i = Some a ∧ ts !! i = Some t
               ∧ handed convert copy l r x a t.
Proof.
  intros Htransfer. revert acc m0.
  induction zs as [|[l [r x]] zs IH]; intros acc m0 Hzs.
  - exists [], [], []. simpl. rewrite extend_nil, app_nil_r. by split_and!.
  - apply Forall_cons in Hzs as [[Hx Hpipe] Hzs]. simpl in Hx, Hpipe.
    destruct (mergeLayerInput_step convert copy acc m0 l r x Htransfer Hx Hpipe)
      as (a & h1 & t1 & Hstep & Ha & Hflag & Hcopy & Hhanded).
    cbn [foldl]. rewrite Hstep.
    destruct (IH (acc ++ [a]) (extend h1 [] m0))
      as (new & h & ts & Hfold & Hnew & Hlen & Hts & Hcopy' & Hall).
    { eapply Forall_impl; [exact Hzs|]. intros z [Hz ?]. split; [|done].
      simpl. by apply lookup_app_l_Some. }
    simpl in Hnew, Hcopy'.
    exists (a :: new), (h1 ++ h), (t1 :: ts).
    rewrite Hfold, extend_extend, <-!app_assoc. simpl. split_and!.
    + done.
    + rewrite app_assoc. rewrite (lookup_app_l_Some _ _ _ _ Ha). simpl.
      by rewrite Hnew.
    + by rewrite Hlen.
    + by constructor.
    + intros Hc. destruct (Hcopy Hc) as [-> ->].
      destruct (Hcopy' Hc) as [-> ->]. rewrite length_app. simpl.
      split; [|done]. f_equal. f_equal. lia.
    + intros [|i] l' r' x'; simpl.
      * intros [= <- <- <-]. by exists a, t1.
      * apply Hall.
Qed.

(** X14: what [_mergeLayerCall] hands to the layer, when
    [transferFromPipeline] returns host tensors: one tensor for each inbound
    layer, in their order, the [i]-th one made from the result of the
    [i]-th inbound layer (it keeps the data and shape of a host result, is
    the transfer of a result from the pipeline when the results are
    converted, and is that result itself when there is neither copy nor
    transfer); all are from the pipeline when the layer runs in pipeline
    mode and all inbound results are from the pipeline, and all are host
    tensors otherwise, never a mix; with [copyBeforeCall] they are all new
    objects.  No existing tensor is changed. *)
Theorem merge_call_hands_compatible_tensors (currentLayer : Layer)
    (inboundLayers : list Layer) (copyBeforeCall : bool) (m : Model)
    (inputs : list (nat * Tensor)) :
  (∀ cls n t, _fromPipeline (transferFromPipeline cls n t) = false) →
  mapM (λ layer : Layer, r ← result layer; x ← heap m !! r; Some (r, x))
    inboundLayers = Some inputs →
  let pipelined :=
    _pipelineEnabled currentLayer
    && JS.every inputs (λ rx, _fromPipeline rx.2) in
  ∃ args h ts,
    _mergeLayerCall currentLayer inboundLayers copyBeforeCall m
    = invoke currentLayer args (extend h [] m)
    ∧ mapM ((heap m ++ h) !!.) args = Some ts
    ∧ length ts = length inboundLayers
    ∧ Forall (λ t, _fromPipeline t = pipelined) ts
    ∧ (copyBeforeCall = true →
       args = seq (length (heap m)) (length inboundLayers) ∧ h = ts)
    ∧ ∀ i l r x, inboundLayers !! i = Some l → inputs !! i = Some (r, x) →
        ∃ a t, args !! i = Some a ∧ ts !! i = Some t
               ∧ handed (negb pipelined) copyBeforeCall l r x a t.
Proof.
  intros Htransfer Hinputs pipelined. unfold _mergeLayerCall.
  rewrite Hinputs.
  set (canRun := JS.every inputs (λ rx, _fromPipeline rx.2)) in *.
  set (convert := negb canRun || negb (_pipelineEnabled currentLayer)).
  assert (convert = negb pipelined) as Hconvert.
  { unfold convert, pipelined.
    by destruct canRun, (_pipelineEnabled currentLayer). }
  pose proof Hinputs as Hall. apply mapM_Some in Hall.
  assert (length (zip inboundLayers inputs) = length inboundLayers) as Hlen.
  { rewrite length_zip_with. apply Forall2_length in Hall. lia. }
  destruct (mergeLayerInput_fold convert copyBeforeCall
              (zip inboundLayers inputs) [] m Htransfer)
    as (new & h & ts & Hfold & Hnew & Hlts & Hts & Hcopy & Hhanded).
  { apply Forall_forall. intros [l [r x]] Hz. simpl.
    apply elem_of_zip_with in Hz as (l' & rx & [= <- <-] & Hl & Hrx).
    apply list_elem_of_lookup_1 in Hrx as [i Hi].
    destruct (Forall2_lookup_r _ _ _ _ _ Hall Hi) as (l0 & _ & Hl0).
    split.
    - destruct (result l0) as [r0|]; simpl in Hl0; [|done].
      destruct (heap m !! r0) as [x0|] eqn:Hx0; simpl in Hl0; [|done].
      by injection Hl0 as <- <-.
    - intros Hconv. unfold convert in Hconv.
      apply orb_false_iff in Hconv as [Hrun%negb_false_iff _].
      unfold canRun, JS.every in Hrun. rewrite forallb_forall in Hrun.
      apply (Hrun (r, x)). apply list_elem_of_In.
      by eapply list_elem_of_lookup_2. }
  rewrite Hfold. simpl. exists new, h, ts. rewrite <-Hconvert.
  split_and!; try done.
  - congruence.
  - eapply Forall_impl; [exact Hts|]. intros t ->. rewrite Hconvert.
    by destruct pipelined.
  - intros Hc. destruct (Hcopy Hc) as [-> ->]. by rewrite Hlen.
  - intros i l r x Hl Hrx. apply Hhanded.
    apply lookup_zip_with_Some. by exists l, (r, x).
Qed.

End handed_facts.

Lemma regular_call_hands_a_compatible_tensor_witness :
  let x := Tensor_weblas_copy (Tensor_new Example.twoFloats [2]) in
  let m := set_heap [x] (Model_new true true false Example.single [] []) in
  let currentLayer := Layer_new "Activation" "act_1" false [] in
  let inboundLayer := Layer_done 0 (Layer_new "Dense" "dense_1" true []) in
  ∃ a t h,
    _regularLayerCall (H := Example.layers) currentLayer (Some inboundLayer)
      true m
    = invoke (H := Example.layers) currentLayer [a] (extend h [] m)
    ∧ (heap m ++ h) !! a = Some t
    ∧ _fromPipeline t = _pipelineEnabled currentLayer && _fromPipeline x
    ∧ (_fromPipeline x = false → data t = data x ∧ shape t = shape x)
    ∧ (true = true → a = length (heap m) ∧ h = [t])
    ∧ (true = false →
       _pipelineEnabled currentLayer = true ∨ _fromPipeline x = false →
       a = 0 ∧ h = [] ∧ t = x).
Proof.
  intros x m currentLayer inboundLayer.
  apply (regular_call_hands_a_compatible_tensor (H := Example.layers)
           currentLayer inboundLayer true 0 x m).
  - intros cls n t. reflexivity.
  - reflexivity.
  - reflexivity.
Defined.

Lemma merge_call_hands_compatible_tensors_witness :
  let x := Tensor_weblas_copy (Tensor_new Example.twoFloats [2]) in
  let y := Tensor_new Example.twoFloats [2] in
  let m := set_heap [x; y] (Model_new true true false Example.single [] []) in
  let currentLayer := Layer_new "Merge" "sum" true [] in
  let left := Layer_done 0 (Layer_new "Dense" "left" true []) in
  let right := Layer_done 1 (Layer_new "Activation" "right" false []) in
  ∃ args h ts,
    _mergeLayerCall (H := Example.layers) currentLayer [left; right] false m
    = invoke (H := Example.layers) currentLayer args (extend h [] m)
    ∧ mapM ((heap m ++ h) !!.) args = Some ts
    ∧ length ts = 2
    ∧ Forall (λ t, _fromPipeline t = false) ts
    ∧ (false = true → args = seq (length (heap m)) 2 ∧ h = ts)
    ∧ ∀ i l r z, [left; right] !! i = Some l →
        [(0, x); (1, y)] !! i = Some (r, z) →
        ∃ a t, args !! i = Some a ∧ ts !! i = Some t
               ∧ handed (H := Example.layers) true false l r z a t.
Proof.
  intros x y m currentLayer left right.
  apply (merge_call_hands_compatible_tensors (H := Example.layers)
           currentLayer [left; right] false m [(0, x); (1, y)]).
  - intros cls n t. reflexivity.
  - reflexivity.
Defined.
